(** * langroid.parsing.json: extraction, repair and validation of JSON
      embedded in free text

    A shallow embedding of [langroid/parsing/json.py] and of the parts of
    the Python standard library ([str.replace], [str.expandtabs], [re.sub],
    [json.loads]) and of pyparsing ([nestedExpr], [originalTextFor],
    [searchString]) that the module calls.

    Python strings are sequences of Unicode code points; exceptions are
    values of an error monad.  The interpreter's resource limits (recursion
    depth, the digit limit of [int]) are not part of the model: every bound
    below is taken from the length of the input and is shown never to be
    reached. *)

From Stdlib Require Import List NArith ZArith Bool Ascii String Arith Lia.
Import ListNotations.

Set Implicit Arguments.

Abbreviation length := List.length (only parsing).
Notation "x ++ y" := (List.app x y) (only parsing) : list_scope.
Open Scope list_scope.

(** ** Strings *)

(** A character is its code point. *)
Abbreviation char := N.
Abbreviation str := (list char).

Definition ord (a : ascii) : char := N_of_ascii a.

Definition DQUOTE : char := 34%N.
Definition SQUOTE : char := 39%N.
Definition BSLASH : char := 92%N.
Definition TAB : char := 9%N.
Definition LF : char := 10%N.
Definition CR : char := 13%N.
Definition SPACE : char := 32%N.
Definition LBRACE : char := 123%N.
Definition RBRACE : char := 125%N.
Definition LBRACKET : char := 91%N.
Definition RBRACKET : char := 93%N.
Definition COLON : char := 58%N.
Definition COMMA : char := 44%N.
Definition UNDERSCORE : char := 95%N.
Definition MINUS : char := 45%N.
Definition PLUS : char := 43%N.
Definition DOT : char := 46%N.

(** [py s] is the Python string written [s], where the apostrophe stands
    for the double quote (code point 34): [py "{'a':1}"] is the Python
    literal ['{"a":1}']. *)
Fixpoint py (s : string) : str :=
  match s with
  | EmptyString => []
  | String a t => (if Ascii.eqb a "'" then DQUOTE else ord a) :: py t
  end.

Definition in_range (lo hi c : char) : bool := ((lo <=? c) && (c <=? hi))%N.
Arguments in_range (lo hi c)%_N : simpl never.

Definition one_of (cs : str) (c : char) : bool := existsb (N.eqb c) cs.
Arguments one_of cs c : simpl never.

Fixpoint str_eqb (a b : str) : bool :=
  match a, b with
  | [], [] => true
  | x :: a', y :: b' => (x =? y)%N && str_eqb a' b'
  | _, _ => false
  end.

(** [s.startswith(p)] *)
Fixpoint startswith (p s : str) : bool :=
  match p, s with
  | [], _ => true
  | x :: p', y :: s' => (x =? y)%N && startswith p' s'
  | _ :: _, [] => false
  end.

(** [p in s] for strings: [p] occurs in [s] as a substring. *)
Fixpoint contains (p s : str) : bool :=
  startswith p s || match s with [] => false | _ :: t => contains p t end.

(** ** Exceptions *)

Inductive exn : Type :=
| ValueError          (* includes json.JSONDecodeError, its subclass *)
| StopIteration
| ParseException
| TypeError
| KeyError
| RecursionError.

Inductive result (A : Type) : Type :=
| Ok (a : A)
| Raise (e : exn).
Arguments Ok {A} a.
Arguments Raise {A} e.

Definition bind {A B : Type} (m : result A) (k : A -> result B) : result B :=
  match m with
  | Ok a => k a
  | Raise e => Raise e
  end.

Notation "x <- m ;; k" := (bind m (fun x => k))
  (at level 61, m at next level, right associativity).
Notation "' ( x , y ) <- m ;; k" := (bind m (fun p => let '(x, y) := p in k))
  (at level 61, x name, y name, m at next level, right associativity).

Definition exn_eqb (a b : exn) : bool :=
  match a, b with
  | ValueError, ValueError | StopIteration, StopIteration
  | ParseException, ParseException | TypeError, TypeError
  | KeyError, KeyError | RecursionError, RecursionError => true
  | _, _ => false
  end.

(** [try: m  except e: h] *)
Definition try_except {A : Type} (m : result A) (e : exn) (h : unit -> result A) : result A :=
  match m with
  | Ok a => Ok a
  | Raise e' => if exn_eqb e' e then h tt else Raise e'
  end.

(** ** [str] methods *)

Module Str.

(** [s.replace(old, new)] for a non-empty [old]: the occurrences of [old]
    are found from left to right without overlap.  [skip] counts the
    characters of the occurrence under replacement that are still to be
    passed over. *)
Fixpoint replace_from (old new : str) (skip : nat) (s : str) : str :=
  match s with
  | [] => []
  | c :: t =>
      match skip with
      | S k => replace_from old new k t
      | O =>
          if startswith old s
          then new ++ replace_from old new (length old - 1) t
          else c :: replace_from old new 0 t
      end
  end.

Definition replace (old new s : str) : str := replace_from old new 0 s.

(** [s.expandtabs()] with the default tab size 8: the column restarts
    after a line feed or a carriage return. *)
Fixpoint expandtabs_from (col : nat) (s : str) : str :=
  match s with
  | [] => []
  | c :: t =>
      if (c =? TAB)%N then
        let incr := 8 - col mod 8 in
        repeat SPACE incr ++ expandtabs_from (col + incr) t
      else
        c :: expandtabs_from (if (c =? LF)%N || (c =? CR)%N then 0 else S col) t
  end.

Definition expandtabs (s : str) : str := expandtabs_from 0 s.

End Str.

(** ** Regular expressions ([re])

    The fragment of [re] the module and its libraries use, with the
    backtracking semantics of the engine: [matches r s] lists the inputs
    left after a match of [r] at the start of [s], in the order in which
    the engine tries them; the first one is the match [re] reports. *)

Module Re.

Inductive regex : Type :=
| Eps
| Chr (c : char)
| Cls (p : char -> bool)
| Cat (a b : regex)
| Alt (a b : regex)
| Star (a : regex)
| Grp (a : regex).

Definition Plus (a : regex) : regex := Cat a (Star a).
Definition Opt (a : regex) : regex := Alt a Eps.

(** A greedy repetition: one more round first, then none.  A round must
    consume input, so [length s] rounds are never all used. *)
Fixpoint star_from (f : str -> list str) (n : nat) (s : str) : list str :=
  match n with
  | O => [s]
  | S n' =>
      flat_map (fun s' => if length s' <? length s then star_from f n' s' else [])
               (f s) ++ [s]
  end.

Fixpoint matches (r : regex) (s : str) : list str :=
  match r with
  | Eps => [s]
  | Chr c => match s with x :: t => if (x =? c)%N then [t] else [] | [] => [] end
  | Cls p => match s with x :: t => if p x then [t] else [] | [] => [] end
  | Cat a b => flat_map (matches b) (matches a s)
  | Alt a b => matches a s ++ matches b s
  | Star a => star_from (matches a) (length s) s
  | Grp a => matches a s
  end.

(** [pattern.match(s, pos)], as the input left after the match. *)
Definition re_match (r : regex) (s : str) : option str := hd_error (matches r s).

(** [\s] on [str] patterns: the code points for which [str.isspace]
    holds. *)
Definition space (c : char) : bool :=
  in_range 9 13 c || in_range 28 32 c || (c =? 133)%N || (c =? 160)%N
  || (c =? 5760)%N || in_range 8192 8202 c || (c =? 8232)%N || (c =? 8233)%N
  || (c =? 8239)%N || (c =? 8287)%N || (c =? 12288)%N.

Definition lower (c : char) : bool := in_range 97 122 c.
Definition upper (c : char) : bool := in_range 65 90 c.
Definition digit (c : char) : bool := in_range 48 57 c.
Definition hexdigit (c : char) : bool :=
  digit c || in_range 97 102 c || in_range 65 70 c.

(** [re.sub(pattern, repl, s)] for a pattern that matches no empty
    string and a replacement without backslash: at each position the
    first match is replaced and the search goes on after it; where there
    is none the character is copied.  [skip] counts the characters of the
    match under replacement that are still to be passed over. *)
Fixpoint sub_from (r : regex) (repl : str) (skip : nat) (s : str) : str :=
  match s with
  | [] => []
  | c :: t =>
      match skip with
      | S k => sub_from r repl k t
      | O =>
          match re_match r s with
          | Some rest => repl ++ sub_from r repl (length s - length rest - 1) t
          | None => c :: sub_from r repl 0 t
          end
      end
  end.

Definition sub (r : regex) (repl s : str) : str := sub_from r repl 0 s.

End Re.

(** ** pyparsing

    A parse element maps the input at the current location to the input
    left after its match, or raises [ParseException].  Only the locations
    are kept: the one caller, [originalTextFor], drops the tokens and
    returns the text between the start and the end of the match. *)

Module Pyparsing.

Import Re.

Definition parser := str -> result str.

Definition DEFAULT_WHITE_CHARS : str := [SPACE; LF; TAB; CR].

(** [ParserElement.preParse]: the element skips leading whitespace. *)
Fixpoint preParse (s : str) : str :=
  match s with
  | c :: t => if one_of DEFAULT_WHITE_CHARS c then preParse t else s
  | [] => []
  end.

Definition skipWhitespace (p : parser) : parser := fun s => p (preParse s).

Definition Literal (c : char) : parser := fun s =>
  match s with
  | x :: t => if (x =? c)%N then Ok t else Raise ParseException
  | [] => Raise ParseException
  end.

Definition Regex (r : regex) : parser := fun s =>
  match re_match r s with
  | Some t => Ok t
  | None => Raise ParseException
  end.

(** [CharsNotIn(notChars, exact=1)] *)
Definition CharsNotIn1 (notChars : str) : parser := fun s =>
  match s with
  | x :: t => if one_of notChars x then Raise ParseException else Ok t
  | [] => Raise ParseException
  end.

Fixpoint And (ps : list parser) : parser := fun s =>
  match ps with
  | [] => Ok s
  | p :: ps' => t <- p s ;; And ps' t
  end.

Fixpoint MatchFirst (ps : list parser) : parser := fun s =>
  match ps with
  | [] => Raise ParseException
  | p :: ps' => try_except (p s) ParseException (fun _ => MatchFirst ps' s)
  end.

(** [~p] *)
Definition NotAny (p : parser) : parser := fun s =>
  match p s with
  | Ok _ => Raise ParseException
  | Raise ParseException => Ok s
  | Raise e => Raise e
  end.

(** The loop of [_MultipleMatch.parseImpl]: [p] is matched until it
    fails.  [n] bounds the number of rounds. *)
Fixpoint many (p : parser) (n : nat) (s : str) : result str :=
  match n with
  | O => Raise RecursionError
  | S n' =>
      match p s with
      | Ok t => many p n' t
      | Raise ParseException => Ok s
      | Raise e => Raise e
      end
  end.

Definition ZeroOrMore (p : parser) : parser := fun s => many p (S (length s)) s.
Definition OneOrMore (p : parser) : parser := fun s => t <- p s ;; ZeroOrMore p t.

(** One character of the body of a string quoted with [q], or one escape:
    [^q\n\r\\]|(?:qq)|(?:\\(?:[^x]|x[0-9a-fA-F]+))  *)
Definition quoted_char (q : char) : regex :=
  Alt (Cls (fun c => negb (one_of [q; LF; CR; BSLASH] c)))
      (Alt (Cat (Chr q) (Chr q))
           (Cat (Chr BSLASH)
                (Alt (Cls (fun c => negb (c =? ord "x")%N))
                     (Cat (Chr (ord "x")) (Plus (Cls hexdigit)))))).

(** A quoted string up to its closing quote: the quote [q] and any number
    of [quoted_char]. *)
Definition quoted_re (q : char) : regex := Cat (Chr q) (Star (quoted_char q)).

(** [quoted_string]: a [Combine] of the first match of two alternatives,
    each the [Regex] of the body followed by the closing quote, for the
    double quote and then for the apostrophe; inside a [Combine] no
    whitespace is skipped. *)
Definition quoted_string : parser :=
  MatchFirst [ And [Regex (quoted_re DQUOTE); Literal DQUOTE];
               And [Regex (quoted_re SQUOTE); Literal SQUOTE] ].

(** The default content of [nested_expr] for one-character delimiters:
    [Combine(OneOrMore(~ignoreExpr +
       CharsNotIn(opener + closer + DEFAULT_WHITE_CHARS, exact=1)))]. *)
Definition content (opener closer : char) : parser :=
  OneOrMore (And [ NotAny quoted_string;
                   CharsNotIn1 (opener :: closer :: DEFAULT_WHITE_CHARS) ]).

(** One item between the delimiters of [nested_expr]:
    [ignoreExpr | ret | content], each alternative after the whitespace. *)
Definition nested_item (opener closer : char) (ret : parser) : parser :=
  MatchFirst [ skipWhitespace quoted_string;
               skipWhitespace ret;
               skipWhitespace (content opener closer) ].

(** [nested_expr(opener, closer)] with the default [ignore_expr], a
    quoted string:
    [ret <<= Group(Suppress(opener)
                   + ZeroOrMore(ignoreExpr | ret | content)
                   + Suppress(closer))].
    [depth] bounds the recursion through [ret]. *)
Fixpoint nested_expr (opener closer : char) (depth : nat) : parser := fun s =>
  match depth with
  | O => Raise RecursionError
  | S d =>
      let ret := nested_expr opener closer d in
      And [ skipWhitespace (Literal opener);
            ZeroOrMore (nested_item opener closer ret);
            skipWhitespace (Literal closer) ] s
  end.

(** [original_text_for(expr)]: the one token is the text of the input
    from the start of the match of [expr] to its end. *)
Definition original_text_for (expr : parser) : str -> result (str * str) := fun s =>
  rest <- expr s ;;
  Ok (firstn (length s - length rest) s, rest).

(** The loop of [scan_string]: after the whitespace, the expression is
    tried at the location; a match that moves on is yielded and the scan
    goes on after it, otherwise it goes on one character further.  [n]
    bounds the number of rounds. *)
Fixpoint scan_from (expr : str -> result (str * str)) (n : nat) (s : str)
  : result (list str) :=
  match n with
  | O => Raise RecursionError
  | S n' =>
      let pre := preParse s in
      let next := match pre with
                  | [] => Ok []
                  | _ :: t => scan_from expr n' t
                  end in
      match expr pre with
      | Ok (tokens, rest) =>
          if length rest <? length s
          then r <- scan_from expr n' rest ;; Ok (tokens :: r)
          else next
      | Raise ParseException => next
      | Raise e => Raise e
      end
  end.

(** [expr.search_string(s)]: the tokens of all matches of [scan_string],
    which first expands the tabs of the input. *)
Definition search_string (expr : nat -> str -> result (str * str)) (s : str)
  : result (list str) :=
  let instring := Str.expandtabs s in
  scan_from (expr (S (length instring))) (S (length instring)) instring.

End Pyparsing.

(** ** Python values, as far as [json.loads] produces them *)

Inductive pyval : Type :=
| PNone
| PBool (b : bool)
| PInt (z : Z)
| PFloat (literal : str)      (* [float(literal)]; rounding is not modelled *)
| PStr (s : str)
| PList (l : list pyval)
| PDict (d : list (str * pyval)).

(** [d[k] = v] on a dictionary kept in insertion order: a key that is
    present keeps its place and takes the new value. *)
Fixpoint dict_set (d : list (str * pyval)) (k : str) (v : pyval) : list (str * pyval) :=
  match d with
  | [] => [(k, v)]
  | (k', v') :: d' =>
      if str_eqb k' k then (k', v) :: d' else (k', v') :: dict_set d' k v
  end.

(** [dict(pairs)] *)
Definition dict (pairs : list (str * pyval)) : list (str * pyval) :=
  fold_left (fun d kv => dict_set d (fst kv) (snd kv)) pairs [].

Fixpoint dict_get (d : list (str * pyval)) (k : str) : option pyval :=
  match d with
  | [] => None
  | (k', v) :: d' => if str_eqb k' k then Some v else dict_get d' k
  end.

(** [f in x] for a string [f] *)
Definition py_in (f : str) (x : pyval) : result bool :=
  match x with
  | PDict d => Ok (match dict_get d f with Some _ => true | None => false end)
  | PList l => Ok (existsb (fun v => match v with PStr t => str_eqb t f | _ => false end) l)
  | PStr t => Ok (contains f t)
  | _ => Raise TypeError
  end.

(** [x[f]] for a string [f] *)
Definition py_getitem (x : pyval) (f : str) : result pyval :=
  match x with
  | PDict d => match dict_get d f with Some v => Ok v | None => Raise KeyError end
  | _ => Raise TypeError
  end.

(** ** [json]: the decoder of the standard library

    After [json/decoder.py] and [json/scanner.py].  Decimal and
    hexadecimal digits are the ASCII ones, as in the C accelerator that
    CPython loads in their place. *)

Module Json.

Import Re.

(** [WHITESPACE.match(s, end).end()] *)
Fixpoint w (s : str) : str :=
  match s with
  | c :: t => if one_of [SPACE; TAB; LF; CR] c then w t else s
  | [] => []
  end.

Definition hexval (c : char) : option N :=
  if digit c then Some (c - 48)%N
  else if in_range 97 102 c then Some (c - 87)%N
  else if in_range 65 70 c then Some (c - 55)%N
  else None.

(** [int(esc, 16)] for the four characters after the [u] of an escape *)
Definition hex4 (a b c d : char) : option N :=
  match hexval a, hexval b, hexval c, hexval d with
  | Some x, Some y, Some z, Some u => Some (4096 * x + 256 * y + 16 * z + u)%N
  | _, _, _, _ => None
  end.

(** [BACKSLASH]: the one-character escapes *)
Definition BACKSLASH (esc : char) : option char :=
  if (esc =? DQUOTE)%N then Some DQUOTE
  else if (esc =? BSLASH)%N then Some BSLASH
  else if (esc =? ord "/")%N then Some (ord "/")
  else if (esc =? ord "b")%N then Some 8%N
  else if (esc =? ord "f")%N then Some 12%N
  else if (esc =? ord "n")%N then Some LF
  else if (esc =? ord "r")%N then Some CR
  else if (esc =? ord "t")%N then Some TAB
  else None.

(** [py_scanstring(s, end)] with [strict=True], on the input after the
    opening quote; the chunks of the source are read one character at a
    time.  Returns the decoded string and the input after the closing
    quote. *)
Fixpoint scanstring (s : str) : result (str * str) :=
  match s with
  | [] => Raise ValueError                     (* unterminated string *)
  | c :: t =>
      if (c =? DQUOTE)%N then Ok ([], t)
      else if (c =? BSLASH)%N then
        match t with
        | [] => Raise ValueError               (* unterminated string *)
        | esc :: t2 =>
            if negb (esc =? ord "u")%N then
              match BACKSLASH esc with
              | Some ch => '(r, rest) <- scanstring t2 ;; Ok (ch :: r, rest)
              | None => Raise ValueError       (* invalid escape *)
              end
            else
              match t2 with
              | h1 :: h2 :: h3 :: h4 :: t6 =>
                  match hex4 h1 h2 h3 h4 with
                  | None => Raise ValueError   (* invalid uXXXX escape *)
                  | Some uni =>
                      let single := '(r, rest) <- scanstring t6 ;; Ok (uni :: r, rest) in
                      if in_range 55296 56319 uni && startswith [BSLASH; ord "u"] t6 then
                        match t6 with
                        | _ :: _ :: g1 :: g2 :: g3 :: g4 :: t12 =>
                            match hex4 g1 g2 g3 g4 with
                            | None => Raise ValueError
                            | Some uni2 =>
                                if in_range 56320 57343 uni2 then
                                  let ch := (65536 + (N.lor (N.shiftl (uni - 55296) 10)
                                                            (uni2 - 56320)))%N in
                                  '(r, rest) <- scanstring t12 ;; Ok (ch :: r, rest)
                                else single
                            end
                        | _ => Raise ValueError
                        end
                      else single
                  end
              | _ => Raise ValueError          (* invalid uXXXX escape *)
              end
        end
      else if (c <? 32)%N then Raise ValueError  (* invalid control character *)
      else '(r, rest) <- scanstring t ;; Ok (c :: r, rest)
  end.

(** [NUMBER_RE], three groups in a row: the integer part (an optional
    minus sign, then 0 or a digit from 1 to 9 followed by digits), the
    optional fraction [\.\d+] and the optional exponent [[eE][-+]?\d+]. *)
Definition integer_re : regex :=
  Cat (Opt (Chr MINUS))
      (Alt (Chr (ord "0")) (Cat (Cls (in_range 49 57)) (Star (Cls digit)))).
Definition frac_re : regex := Cat (Chr DOT) (Plus (Cls digit)).
Definition exp_re : regex :=
  Cat (Cls (one_of [ord "e"; ord "E"]))
      (Cat (Opt (Cls (one_of [MINUS; PLUS]))) (Plus (Cls digit))).
Definition NUMBER_RE : regex :=
  Cat (Grp integer_re) (Cat (Opt (Grp frac_re)) (Opt (Grp exp_re))).

(** [s[:len(s) - len(rest)]]: the text matched when [rest] is left *)
Definition matched (s rest : str) : str := firstn (length s - length rest) s.

(** [NUMBER_RE.match(s, idx)] with its three groups and the input after
    the match; the groups are matched one after the other. *)
Definition match_number (s : str) : option (str * str * str * str) :=
  match re_match (Grp integer_re) s with
  | None => None
  | Some r1 =>
      match re_match (Opt (Grp frac_re)) r1 with
      | None => None
      | Some r2 =>
          match re_match (Opt (Grp exp_re)) r2 with
          | None => None
          | Some r3 => Some (matched s r1, matched r1 r2, matched r2 r3, r3)
          end
      end
  end.

(** [int(s)] for a decimal literal with an optional sign *)
Definition digits_value (s : str) : Z :=
  fold_left (fun acc c => (10 * acc + Z.of_N (c - 48))%Z) s 0%Z.
Definition parse_int (s : str) : Z :=
  match s with
  | c :: t => if (c =? MINUS)%N then (- digits_value t)%Z else digits_value s
  | [] => 0%Z
  end.

(** The loop of [JSONObject], entered after the opening quote of a key.
    [n] bounds the number of rounds. *)
Fixpoint JSONObject_loop (scan_once : str -> result (pyval * str)) (n : nat)
         (s : str) (pairs : list (str * pyval)) : result (pyval * str) :=
  match n with
  | O => Raise RecursionError
  | S n' =>
      '(key, s1) <- scanstring s ;;
      match w s1 with
      | c :: s2 =>
          if negb (c =? COLON)%N then Raise ValueError   (* expecting ':' *)
          else
            '(value, s3) <- try_except (scan_once (w s2)) StopIteration
                                       (fun _ => Raise ValueError) ;;
            let pairs := pairs ++ [(key, value)] in
            match w s3 with
            | nextchar :: s4 =>
                if (nextchar =? RBRACE)%N then Ok (PDict (dict pairs), s4)
                else if negb (nextchar =? COMMA)%N then Raise ValueError
                else
                  match w s4 with
                  | q :: s5 =>
                      if (q =? DQUOTE)%N then JSONObject_loop scan_once n' s5 pairs
                      else Raise ValueError    (* expecting property name *)
                  | [] => Raise ValueError
                  end
            | [] => Raise ValueError            (* expecting ',' *)
            end
      | [] => Raise ValueError
      end
  end.

(** [JSONObject((s, end), ...)], on the input after the brace *)
Definition JSONObject (scan_once : str -> result (pyval * str)) (s : str)
  : result (pyval * str) :=
  match w s with
  | nextchar :: t =>
      if (nextchar =? DQUOTE)%N then JSONObject_loop scan_once (S (length t)) t []
      else if (nextchar =? RBRACE)%N then Ok (PDict [], t)
      else Raise ValueError                    (* expecting property name *)
  | [] => Raise ValueError
  end.

(** The loop of [JSONArray]. *)
Fixpoint JSONArray_loop (scan_once : str -> result (pyval * str)) (n : nat)
         (s : str) (values : list pyval) : result (pyval * str) :=
  match n with
  | O => Raise RecursionError
  | S n' =>
      '(value, s1) <- try_except (scan_once s) StopIteration
                                 (fun _ => Raise ValueError) ;;
      let values := values ++ [value] in
      match w s1 with
      | nextchar :: s2 =>
          if (nextchar =? RBRACKET)%N then Ok (PList values, s2)
          else if negb (nextchar =? COMMA)%N then Raise ValueError
          else JSONArray_loop scan_once n' (w s2) values
      | [] => Raise ValueError                  (* expecting ',' *)
      end
  end.

(** [JSONArray((s, end), scan_once)], on the input after the bracket *)
Definition JSONArray (scan_once : str -> result (pyval * str)) (s : str)
  : result (pyval * str) :=
  match w s with
  | nextchar :: t =>
      if (nextchar =? RBRACKET)%N then Ok (PList [], t)
      else JSONArray_loop scan_once (S (length s)) (w s) []
  | [] => JSONArray_loop scan_once (S (length s)) (w s) []
  end.

(** [_scan_once(string, idx)].  An object or an array is entered through
    a recursive call, which the interpreter refuses with [RecursionError]
    when none is left: [limit] is the number of nested calls that the
    interpreter still allows. *)
Fixpoint scan_once (limit : nat) (string : str) : result (pyval * str) :=
  match string with
  | [] => Raise StopIteration
  | nextchar :: t =>
      if (nextchar =? DQUOTE)%N then
        '(x, rest) <- scanstring t ;; Ok (PStr x, rest)
      else if (nextchar =? LBRACE)%N then
        match limit with
        | O => Raise RecursionError
        | S l => JSONObject (scan_once l) t
        end
      else if (nextchar =? LBRACKET)%N then
        match limit with
        | O => Raise RecursionError
        | S l => JSONArray (scan_once l) t
        end
      else if startswith (py "null") string then Ok (PNone, skipn 4 string)
      else if startswith (py "true") string then Ok (PBool true, skipn 4 string)
      else if startswith (py "false") string then Ok (PBool false, skipn 5 string)
      else
        match match_number string with
        | Some (integer, frac, exp, rest) =>
            match frac, exp with
            | [], [] => Ok (PInt (parse_int integer), rest)
            | _, _ => Ok (PFloat (integer ++ frac ++ exp), rest)
            end
        | None =>
            if startswith (py "NaN") string then
              Ok (PFloat (py "NaN"), skipn 3 string)
            else if startswith (py "Infinity") string then
              Ok (PFloat (py "Infinity"), skipn 8 string)
            else if startswith (py "-Infinity") string then
              Ok (PFloat (py "-Infinity"), skipn 9 string)
            else Raise StopIteration
        end
  end.

(** [JSONDecoder.raw_decode] and [JSONDecoder.decode] *)
Definition raw_decode (limit : nat) (s : str) : result (pyval * str) :=
  try_except (scan_once limit s) StopIteration (fun _ => Raise ValueError).

Definition decode (limit : nat) (s : str) : result pyval :=
  '(obj, rest) <- raw_decode limit (w s) ;;
  match w rest with
  | [] => Ok obj
  | _ :: _ => Raise ValueError                 (* extra data *)
  end.

(** [json.loads(s)] for a [str], called where the interpreter allows
    [limit] more nested calls: a leading byte order mark is refused. *)
Definition loads_within (limit : nat) (s : str) : result pyval :=
  if startswith [65279%N] s then Raise ValueError
  else decode limit s.

(** [json.loads(s)] where the recursion limit of the interpreter is out of
    reach: a text has fewer nested objects and arrays than characters. *)
Definition loads (s : str) : result pyval := loads_within (S (length s)) s.

End Json.

(** ** langroid/parsing/json.py *)

(** [is_valid_json(json_str)], called where the interpreter allows
    [limit] more nested calls. *)
Definition is_valid_json_within (limit : nat) (json_str : str) : result bool :=
  try_except (_ <- Json.loads_within limit json_str ;; Ok true)
             ValueError (fun _ => Ok false).

(** [is_valid_json(json_str)] where the recursion limit of the interpreter
    is out of reach. *)
Definition is_valid_json (json_str : str) : result bool :=
  is_valid_json_within (S (length json_str)) json_str.

(** [flatten(nested_list)]: the generator, as the list of what it yields.
    An item is a list (or a tuple) of items, or any other value. *)
Section Flatten.

Variable A : Type.

Inductive nested : Type :=
| Item (a : A)
| Nest (l : list nested).

(** What the body of the loop yields for one [item]. *)
Fixpoint flatten_item (item : nested) : list A :=
  match item with
  | Item a => [a]
  | Nest l => flat_map flatten_item l
  end.

Definition flatten (nested_list : list nested) : list A :=
  flat_map flatten_item nested_list.

End Flatten.

Definition get_json_candidates (s : str) : list str :=
  let curly_braces := fun depth =>
    Pyparsing.original_text_for (Pyparsing.nested_expr LBRACE RBRACE depth) in
  match Pyparsing.search_string curly_braces s with
  | Ok results => results
  | Raise _ => []
  end.

(** The pattern of [replace_undefined]: a colon, [\s*], and one group
    with a character of [[a-zA-Z_]] followed by [[a-zA-Z_0-9\-]*]. *)
Definition bareword_start (c : char) : bool :=
  Re.lower c || Re.upper c || (c =? UNDERSCORE)%N.
Definition bareword_char (c : char) : bool :=
  Re.lower c || Re.upper c || (c =? UNDERSCORE)%N || Re.digit c || (c =? MINUS)%N.

Definition undefined_re : Re.regex :=
  Re.Cat (Re.Chr COLON)
    (Re.Cat (Re.Star (Re.Cls Re.space))
       (Re.Grp (Re.Cat (Re.Cls bareword_start) (Re.Star (Re.Cls bareword_char))))).

Definition default_placeholder : str := py "'<undefined>'".

Definition replace_undefined (s : str) (undefined_placeholder : str) : str :=
  let preprocessed_s :=
    Re.sub undefined_re (py ": " ++ undefined_placeholder) s in
  preprocessed_s.

(** One candidate of [normalized_candidates]. *)
Definition normalize (candidate : str) : str :=
  Str.replace (py "\_") (py "_")
    (Str.replace (py "\}") (py "}")
       (Str.replace (py "\{") (py "{") candidate)).

(** The list comprehension [[c for c in candidates if is_valid_json(c)]] *)
Fixpoint filter_valid (candidates : list str) : result (list str) :=
  match candidates with
  | [] => Ok []
  | candidate :: rest =>
      b <- is_valid_json candidate ;;
      r <- filter_valid rest ;;
      Ok (if b then candidate :: r else r)
  end.

Definition extract_top_level_json (s : str) : result (list str) :=
  let json_candidates := get_json_candidates s in
  let normalized_candidates := map normalize json_candidates in
  let candidates :=
    map (fun candidate => replace_undefined candidate default_placeholder)
        normalized_candidates in
  filter_valid candidates.

(** The [for j in jsons] loop of [top_level_json_field]. *)
Fixpoint first_field (f : str) (jsons : list str) : result pyval :=
  match jsons with
  | [] => Ok (PStr [])
  | j :: rest =>
      json_data <- Json.loads j ;;
      b <- py_in f json_data ;;
      if b then py_getitem json_data f else first_field f rest
  end.

Definition top_level_json_field (s f : str) : result pyval :=
  jsons <- extract_top_level_json s ;;
  if length jsons =? 0 then Ok (PStr [])
  else first_field f jsons.

(** ** Vocabulary of the statements *)

(** [starts_in p s]: [s] begins with a character of the class [p]. *)
Definition starts_in (p : char -> bool) (s : str) : bool :=
  match s with
  | c :: _ => p c
  | [] => false
  end.

(** A bareword token: a letter or an underscore, then letters, digits,
    underscores and hyphens. *)
Definition is_bareword (w : str) : bool :=
  match w with
  | c :: t => bareword_start c && forallb bareword_char t
  | [] => false
  end.

(** [scans f s]: at [s] the scanner [f] returns a value and strictly less
    input, or raises [ValueError] or [StopIteration]. *)
Definition scans (f : str -> result (pyval * str)) (s : str) : Prop :=
  match f s with
  | Ok (_, r) => length r < length s
  | Raise e => e = ValueError \/ e = StopIteration
  end.

(** [decodes m s]: the decoder step [m] on [s] returns a dictionary and
    strictly less input, or raises [ValueError]. *)
Definition decodes (dicts : bool) (m : result (pyval * str)) (s : str) : Prop :=
  match m with
  | Ok (v, r) =>
      length r < length s
      /\ (dicts = true -> exists d, v = PDict d)
  | Raise e => e = ValueError
  end.

(** [valid_json s]: [json.loads(s)] returns a value. *)
Definition valid_json (s : str) : bool :=
  match Json.loads s with
  | Ok _ => true
  | Raise _ => false
  end.

(** [advances p]: a match of the parse element [p] consumes a prefix of
    the input. *)
Definition advances (p : Pyparsing.parser) : Prop :=
  forall s r, p s = Ok r -> exists m, s = m ++ r.

(** [behaves strictly p s]: on [s] the parse element [p] matches and
    leaves no more input than it got (less, when [strictly]), or raises
    [ParseException]. *)
Definition behaves (strictly : bool) (p : Pyparsing.parser) (s : str) : Prop :=
  match p s with
  | Ok r => if strictly then length r < length s else length r <= length s
  | Raise e => e = ParseException
  end.

(** [loop_end o c d s]: where the items between the delimiters end when
    they start at [s], after the whitespace. *)
Definition loop_end (o c : char) (d : nat) (s : str) : result str :=
  r <- Pyparsing.ZeroOrMore
         (Pyparsing.nested_item o c (Pyparsing.nested_expr o c d)) s ;;
  Ok (Pyparsing.preParse r).

(** [plain c]: outside a quoted string the character [c] is content of a
    nested expression in braces: no brace, no whitespace, no quote. *)
Definition plain (c : char) : bool :=
  negb (one_of [LBRACE; RBRACE; SPACE; LF; TAB; CR; DQUOTE; SQUOTE] c).

(** [over P r]: the regular expression [r] matches characters of the class
    [P] only. *)
Fixpoint over (P : char -> bool) (r : Re.regex) : Prop :=
  match r with
  | Re.Eps => True
  | Re.Chr c => P c = true
  | Re.Cls p => forall c, p c = true -> P c = true
  | Re.Cat a b | Re.Alt a b => over P a /\ over P b
  | Re.Star a | Re.Grp a => over P a
  end.

(** [laid_out s l]: the strings of [l] stand in [s] one after the other
    without overlap, in the order of [l]. *)
Inductive laid_out : str -> list str -> Prop :=
| laid_out_nil (s : str) : laid_out s []
| laid_out_cons (p c rest : str) (l : list str) :
    laid_out rest l -> laid_out (p ++ c ++ rest) (c :: l).

(** [lstrip p s]: [s] without its leading characters of the class [p]. *)
Fixpoint lstrip (p : char -> bool) (s : str) : str :=
  match s with
  | c :: t => if p c then lstrip p t else s
  | [] => []
  end.

(** [bareword_value s]: [s] starts with a colon that optional whitespace
    and the first character of a bareword follow. *)
Definition bareword_value (s : str) : bool :=
  match s with
  | c :: t => (c =? COLON)%N && starts_in bareword_start (lstrip Re.space t)
  | [] => false
  end.

(** [has_bareword_value s]: somewhere in [s] a colon is followed by
    optional whitespace and the first character of a bareword. *)
Fixpoint has_bareword_value (s : str) : bool :=
  match s with
  | [] => false
  | _ :: t => bareword_value s || has_bareword_value t
  end.

(** [inert ph]: a placeholder the repairer does not read again: it has no
    colon and starts with a character that is neither whitespace nor the
    start of a bareword. *)
Definition inert (ph : str) : bool :=
  starts_in (fun c => negb (Re.space c) && negb (bareword_start c)) ph
  && negb (existsb (N.eqb COLON) ph).

(** [json_space c]: [c] is one of the characters that [json] skips
    between the tokens. *)
Definition json_space (c : char) : bool := one_of [SPACE; TAB; LF; CR] c.

(** [followed q m]: the result [m] of a scanner, with [q] put after the
    input it leaves. *)
Definition followed (A : Type) (q : str) (m : result (A * str)) : result (A * str) :=
  '(x, r) <- m ;; Ok (x, r ++ q).

(** [braced J]: [J] runs from an opening brace to a closing brace. *)
Definition braced (J : str) : bool :=
  match J with
  | c :: t => (c =? LBRACE)%N
              && match rev t with z :: _ => (z =? RBRACE)%N | [] => false end
  | [] => false
  end.

(** [plain_object J]: [J] runs from an opening brace to a closing brace,
    has no tab, is accepted by [json.loads], and is left as it is by the
    normalization and by the repairer. *)
Definition plain_object (J : str) : bool :=
  braced J
  && forallb (fun x => negb (x =? TAB)%N) J
  && valid_json J
  && str_eqb (normalize J) J
  && str_eqb (replace_undefined J default_placeholder) J.

(** [prose p]: [p] has no opening brace and no tab. *)
Definition prose (p : str) : bool :=
  forallb (fun x => negb (x =? LBRACE)%N && negb (x =? TAB)%N) p.

(** [laid segs tail]: the text that has, for each pair of [segs] in turn,
    the prose of the pair and then its object, and [tail] at the end. *)
Definition laid (segs : list (str * str)) (tail : str) : str :=
  fold_right (fun seg t => fst seg ++ snd seg ++ t) tail segs.

(** ** Tactics *)

(** Lists equal up to the association of [++] and [::]. *)
Ltac list_assoc :=
  repeat first [rewrite <- app_assoc | rewrite <- app_comm_cons]; try reflexivity.

(** Arithmetic on the lengths of the inputs. *)
Ltac len :=
  repeat first [ progress cbn [Datatypes.length app] in *
               | rewrite length_app in * ];
  lia.

(** The four cases of a disjunction of equations, each rewritten. *)
Ltac four_cases H :=
  let E := fresh in
  destruct H as [E|[E|[E|E]]]; rewrite E in *.

(** An escape cut short by whitespace [q]: [H] says that four characters
    taken there are no hexadecimal number. *)
Ltac short_escape q H :=
  let Hs := fresh "Hs" in
  let u := fresh "u" in
  pose proof H as Hs;
  cbn [app] in Hs |- *; revert Hs; generalize q; intros u Hs;
  destruct u as [|? [|? [|? [|? ?]]]]; try reflexivity;
  cbv iota beta in Hs |- *; rewrite Hs; reflexivity.

(** * Facts about [str] methods *)

Lemma startswith_app (p s : str) : startswith p (p ++ s) = true.
Proof. induction p as [|x p IH]; simpl; [reflexivity|]. now rewrite N.eqb_refl. Qed.

Lemma startswith_spec (p s : str) :
  startswith p s = true <-> exists t, s = p ++ t.
Proof.
  revert s; induction p as [|x p IH]; intros s; simpl.
  - split; [eauto|reflexivity].
  - destruct s as [|y s]; [split; [discriminate|intros [t H]; discriminate]|].
    rewrite andb_true_iff, N.eqb_eq, IH. split.
    + intros [-> [t ->]]. now exists t.
    + intros [t H]. injection H as -> ->. eauto.
Qed.

Lemma contains_cons (p : str) (c : char) (s : str) :
  contains p (c :: s) = startswith p (c :: s) || contains p s.
Proof. reflexivity. Qed.

Lemma contains_tail (p : str) (c : char) (s : str) :
  contains p (c :: s) = false -> contains p s = false.
Proof. rewrite contains_cons. now intros [_ H]%orb_false_iff. Qed.

Section Unescape.

(** [s.replace(b + x, x)] for two characters [b] and [x]. *)
Variables b x : char.
Hypothesis b_x : b <> x.

Local Notation unesc := (Str.replace [b; x] [x]).

Lemma unesc_nil : unesc [] = [].
Proof. reflexivity. Qed.

Lemma unesc_hit (t : str) : unesc (b :: x :: t) = x :: unesc t.
Proof.
  unfold Str.replace. simpl. now rewrite !N.eqb_refl.
Qed.

Lemma unesc_miss (c : char) (t : str) :
  startswith [b; x] (c :: t) = false -> unesc (c :: t) = c :: unesc t.
Proof.
  unfold Str.replace. intros H.
  change (Str.replace_from [b; x] [x] 0 (c :: t))
    with (if startswith [b; x] (c :: t)
          then [x] ++ Str.replace_from [b; x] [x] (length [b; x] - 1) t
          else c :: Str.replace_from [b; x] [x] 0 t).
  now rewrite H.
Qed.

Lemma unesc_cases (s : str) :
  (s = []) \/ (exists t, s = b :: x :: t /\ unesc s = x :: unesc t)
  \/ (exists c t, s = c :: t /\ startswith [b; x] s = false /\ unesc s = c :: unesc t).
Proof.
  destruct s as [|c t]; [now left|right].
  destruct (startswith [b; x] (c :: t)) eqn:E.
  - left. apply startswith_spec in E as [t' E]. simpl in E. injection E as -> ->.
    exists t'. split; [reflexivity|apply unesc_hit].
  - right. exists c, t. split; [reflexivity|split; [reflexivity|now apply unesc_miss]].
Qed.

(** Without an occurrence nothing changes. *)
Lemma unesc_absent (s : str) : contains [b; x] s = false -> unesc s = s.
Proof.
  induction s as [|c t IH]; intros H; [reflexivity|].
  rewrite contains_cons in H. apply orb_false_iff in H as [H1 H2].
  rewrite unesc_miss by exact H1. now rewrite IH.
Qed.

Lemma unesc_head (s : str) (y : char) (r : str) :
  unesc s = y :: r ->
  (exists t, s = y :: t) \/ (y = x /\ exists t, s = b :: x :: t).
Proof.
  destruct (unesc_cases s) as [->|[(t & -> & E)|(c & t & -> & _ & E)]]; rewrite ?E.
  - discriminate.
  - intros H. injection H as <- _. right. split; eauto.
  - intros H. injection H as <- _. left. eauto.
Qed.

(** After the replacement an occurrence is left only where the input
    had the two characters after one more [b]. *)
Lemma unesc_removes (s : str) :
  contains [b; b; x] s = false -> contains [b; x] (unesc s) = false.
Proof.
  remember (length s) as n eqn:Hn. revert s Hn.
  induction n as [n IH] using lt_wf_ind. intros s Hn H.
  destruct (unesc_cases s) as [->|[(t & -> & E)|(c & t & -> & M & E)]]; rewrite ?E.
  - reflexivity.
  - rewrite contains_cons. apply orb_false_iff. split.
    + simpl. destruct (N.eqb_spec b x); [congruence|reflexivity].
    + apply (IH (length t)); [subst n; simpl; lia|reflexivity|].
      now apply contains_tail, contains_tail in H.
  - rewrite contains_cons. apply orb_false_iff. split.
    + simpl. destruct (N.eqb_spec b c) as [<-|]; [|reflexivity]. simpl.
      destruct (unesc t) as [|y r] eqn:U; [reflexivity|].
      destruct (N.eqb_spec x y) as [<-|]; [|reflexivity]. exfalso.
      apply unesc_head in U as [[t' ->]|[_ [t' ->]]].
      * simpl in M. now rewrite !N.eqb_refl in M.
      * simpl in H. now rewrite !N.eqb_refl in H.
    + apply (IH (length t)); [subst n; simpl; lia|reflexivity|].
      now apply contains_tail in H.
Qed.

(** The replacement brings no two characters [p1 p2] together, unless
    they end in [x]. *)
Lemma unesc_keeps2 (p1 p2 : char) (s : str) :
  p2 <> x -> p1 <> x ->
  contains [p1; p2] s = false -> contains [p1; p2] (unesc s) = false.
Proof.
  intros N2 N1.
  remember (length s) as n eqn:Hn. revert s Hn.
  induction n as [n IH] using lt_wf_ind. intros s Hn H.
  destruct (unesc_cases s) as [->|[(t & -> & E)|(c & t & -> & M & E)]]; rewrite ?E.
  - reflexivity.
  - rewrite contains_cons. apply orb_false_iff. split.
    + simpl. destruct (N.eqb_spec p1 x); [congruence|reflexivity].
    + apply (IH (length t)); [subst n; simpl; lia|reflexivity|].
      now apply contains_tail, contains_tail in H.
  - rewrite contains_cons. apply orb_false_iff. split.
    + simpl. destruct (N.eqb_spec p1 c) as [<-|]; [|reflexivity]. simpl.
      destruct (unesc t) as [|y r] eqn:U; [reflexivity|].
      destruct (N.eqb_spec p2 y) as [<-|]; [|reflexivity]. exfalso.
      apply unesc_head in U as [[t' ->]|[? _]]; [|congruence].
      simpl in H. now rewrite !N.eqb_refl in H.
    + apply (IH (length t)); [subst n; simpl; lia|reflexivity|].
      now apply contains_tail in H.
Qed.

Lemma unesc_keeps3 (p1 p2 p3 : char) (s : str) :
  p3 <> x -> p2 <> x -> p1 <> x ->
  contains [p1; p2; p3] s = false -> contains [p1; p2; p3] (unesc s) = false.
Proof.
  intros N3 N2 N1.
  remember (length s) as n eqn:Hn. revert s Hn.
  induction n as [n IH] using lt_wf_ind. intros s Hn H.
  destruct (unesc_cases s) as [->|[(t & -> & E)|(c & t & -> & M & E)]]; rewrite ?E.
  - reflexivity.
  - rewrite contains_cons. apply orb_false_iff. split.
    + simpl. destruct (N.eqb_spec p1 x); [congruence|reflexivity].
    + apply (IH (length t)); [subst n; simpl; lia|reflexivity|].
      now apply contains_tail, contains_tail in H.
  - rewrite contains_cons. apply orb_false_iff. split.
    + simpl. destruct (N.eqb_spec p1 c) as [<-|]; [|reflexivity]. simpl.
      destruct (unesc t) as [|y r] eqn:U; [reflexivity|].
      destruct (N.eqb_spec p2 y) as [<-|]; [|reflexivity]. simpl.
      destruct r as [|z r']; [reflexivity|].
      destruct (N.eqb_spec p3 z) as [<-|]; [|reflexivity]. exfalso.
      pose proof U as U'.
      apply unesc_head in U' as [[t' ->]|[? _]]; [|congruence].
      destruct (unesc_cases (p2 :: t')) as [?|[(t2 & E2 & U2)|(c2 & t2 & E2 & M2 & U2)]];
        [discriminate| |].
      * rewrite U2 in U. congruence.
      * injection E2 as <- <-. rewrite U2 in U. injection U as U.
        apply unesc_head in U as [[t3 ->]|[? _]]; [|congruence].
        simpl in H. now rewrite !N.eqb_refl in H.
    + apply (IH (length t)); [subst n; simpl; lia|reflexivity|].
      now apply contains_tail in H.
Qed.

End Unescape.

(** * The candidate normalizer *)

Lemma normalize_absent (s : str) :
  contains [BSLASH; LBRACE] s = false ->
  contains [BSLASH; RBRACE] s = false ->
  contains [BSLASH; UNDERSCORE] s = false ->
  normalize s = s.
Proof.
  intros H1 H2 H3. unfold normalize.
  change (py "\{") with [BSLASH; LBRACE]. change (py "{") with [LBRACE].
  change (py "\}") with [BSLASH; RBRACE]. change (py "}") with [RBRACE].
  change (py "\_") with [BSLASH; UNDERSCORE]. change (py "_") with [UNDERSCORE].
  rewrite (@unesc_absent BSLASH LBRACE s H1), (@unesc_absent BSLASH RBRACE s H2).
  now apply unesc_absent.
Qed.

Lemma normalize_clean (s : str) :
  contains [BSLASH; BSLASH; LBRACE] s = false ->
  contains [BSLASH; BSLASH; RBRACE] s = false ->
  contains [BSLASH; BSLASH; UNDERSCORE] s = false ->
  contains [BSLASH; LBRACE] (normalize s) = false
  /\ contains [BSLASH; RBRACE] (normalize s) = false
  /\ contains [BSLASH; UNDERSCORE] (normalize s) = false.
Proof.
  intros H1 H2 H3. unfold normalize.
  change (py "\{") with [BSLASH; LBRACE]. change (py "{") with [LBRACE].
  change (py "\}") with [BSLASH; RBRACE]. change (py "}") with [RBRACE].
  change (py "\_") with [BSLASH; UNDERSCORE]. change (py "_") with [UNDERSCORE].
  assert (A1 : contains [BSLASH; LBRACE] (Str.replace [BSLASH; LBRACE] [LBRACE] s) = false)
    by (apply unesc_removes; [discriminate|exact H1]).
  assert (A2 : contains [BSLASH; BSLASH; RBRACE]
                 (Str.replace [BSLASH; LBRACE] [LBRACE] s) = false)
    by (apply unesc_keeps3; [discriminate..|exact H2]).
  assert (A3 : contains [BSLASH; BSLASH; UNDERSCORE]
                 (Str.replace [BSLASH; LBRACE] [LBRACE] s) = false)
    by (apply unesc_keeps3; [discriminate..|exact H3]).
  set (s1 := Str.replace [BSLASH; LBRACE] [LBRACE] s) in *.
  assert (B1 : contains [BSLASH; LBRACE] (Str.replace [BSLASH; RBRACE] [RBRACE] s1) = false)
    by (apply unesc_keeps2; [discriminate..|exact A1]).
  assert (B2 : contains [BSLASH; RBRACE] (Str.replace [BSLASH; RBRACE] [RBRACE] s1) = false)
    by (apply unesc_removes; [discriminate|exact A2]).
  assert (B3 : contains [BSLASH; BSLASH; UNDERSCORE]
                 (Str.replace [BSLASH; RBRACE] [RBRACE] s1) = false)
    by (apply unesc_keeps3; [discriminate..|exact A3]).
  set (s2 := Str.replace [BSLASH; RBRACE] [RBRACE] s1) in *.
  repeat split.
  - apply unesc_keeps2; [discriminate..|exact B1].
  - apply unesc_keeps2; [discriminate..|exact B2].
  - apply unesc_removes; [discriminate|exact B3].
Qed.

(** * Facts about the regular expressions *)

Lemma span_class (p : char -> bool) (s : str) :
  exists a r, s = a ++ r /\ forallb p a = true /\ starts_in p r = false.
Proof.
  induction s as [|c t (a & r & -> & Ha & Hr)].
  - now exists [], [].
  - destruct (p c) eqn:E.
    + exists (c :: a), r. simpl. now rewrite E.
    + now exists [], (c :: a ++ r).
Qed.

Lemma starts_in_app (p : char -> bool) (q x : str) :
  starts_in p q = false -> starts_in p x = false -> starts_in p (q ++ x) = false.
Proof. destruct q; simpl; auto. Qed.

Lemma flat_map_empty (A B : Type) (f : A -> list B) (l : list A) :
  Forall (fun a => f a = []) l -> flat_map f l = [].
Proof. induction 1 as [|a l E _ IH]; simpl; [reflexivity|]. now rewrite E, IH. Qed.

Lemma matches_cat (a b : Re.regex) (s : str) :
  Re.matches (Re.Cat a b) s = flat_map (Re.matches b) (Re.matches a s).
Proof. reflexivity. Qed.

Lemma matches_grp (a : Re.regex) (s : str) : Re.matches (Re.Grp a) s = Re.matches a s.
Proof. reflexivity. Qed.

Lemma matches_cls_cons (p : char -> bool) (c : char) (t : str) :
  Re.matches (Re.Cls p) (c :: t) = if p c then [t] else [].
Proof. reflexivity. Qed.

Lemma matches_chr_cons (x c : char) (t : str) :
  Re.matches (Re.Chr x) (c :: t) = if (c =? x)%N then [t] else [].
Proof. reflexivity. Qed.

Lemma flat_map_one (A B : Type) (f : A -> list B) (a : A) : flat_map f [a] = f a.
Proof. simpl. apply app_nil_r. Qed.

Section StarClass.

Import Re.
Variable p : char -> bool.

Lemma star_class_stop (n : nat) (r : str) :
  starts_in p r = false -> star_from (matches (Cls p)) n r = [r].
Proof.
  intros H. destruct n; [reflexivity|]. simpl.
  destruct r as [|c t]; [reflexivity|]. simpl in H. now rewrite H.
Qed.

Lemma star_class_step (n : nat) (c : char) (t : str) :
  p c = true ->
  star_from (matches (Cls p)) (S n) (c :: t)
  = star_from (matches (Cls p)) n t ++ [c :: t].
Proof.
  intros H. simpl. rewrite H. simpl.
  destruct (Nat.ltb_spec (length t) (S (length t))); [|lia].
  now rewrite app_nil_r.
Qed.

(** A greedy repetition of a class takes the whole run first; every
    other choice stops before a character of the class. *)
Lemma star_class_run (a r : str) (n : nat) :
  forallb p a = true -> starts_in p r = false -> length a <= n ->
  exists l, star_from (matches (Cls p)) n (a ++ r) = r :: l
            /\ Forall (fun s' => starts_in p s' = true) l.
Proof.
  revert n. induction a as [|c a IH]; intros n Ha Hr Hn.
  - exists []. split; [now apply star_class_stop|constructor].
  - simpl in Ha. apply andb_true_iff in Ha as [Hc Ha].
    destruct n as [|n]; [simpl in Hn; lia|].
    destruct (IH n Ha Hr) as (l & E & F); [simpl in Hn; lia|].
    exists (l ++ [c :: a ++ r]). split.
    + simpl app. rewrite star_class_step by exact Hc. now rewrite E.
    + apply Forall_app. split; [exact F|]. constructor; [exact Hc|constructor].
Qed.

Lemma matches_star_class (a r : str) :
  forallb p a = true -> starts_in p r = false ->
  exists l, matches (Star (Cls p)) (a ++ r) = r :: l
            /\ Forall (fun s' => starts_in p s' = true) l.
Proof.
  intros Ha Hr. simpl. apply star_class_run; [exact Ha|exact Hr|].
  rewrite length_app. lia.
Qed.

End StarClass.

Lemma bareword_start_not_space (c : char) :
  bareword_start c = true -> Re.space c = false.
Proof.
  unfold bareword_start, Re.space, Re.lower, Re.upper, in_range. intros H.
  repeat match goal with
         | H : _ || _ = true |- _ => apply orb_true_iff in H as [H|H]
         | H : _ && _ = true |- _ => apply andb_true_iff in H as [? ?]
         | H : (_ <=? _)%N = true |- _ => apply N.leb_le in H
         | H : (_ =? _)%N = true |- _ => apply N.eqb_eq in H
         end;
  repeat (apply orb_false_iff; split);
  try (apply andb_false_iff;
       destruct (N.leb_spec 9 c), (N.leb_spec 28 c), (N.leb_spec 8192 c);
       first [now left | right; apply N.leb_gt; unfold UNDERSCORE in *; lia | exfalso; unfold UNDERSCORE in *; lia]);
  try (apply N.eqb_neq; unfold UNDERSCORE in *; lia).
Qed.

Lemma bareword_start_char (c : char) :
  bareword_start c = true -> bareword_char c = true.
Proof.
  unfold bareword_start, bareword_char. intros H. now rewrite H.
Qed.

(** The group of [undefined_re]: a bareword, taken as far as it goes. *)
Lemma matches_bareword (h : char) (w q : str) :
  bareword_start h = true -> forallb bareword_char w = true ->
  starts_in bareword_char q = false ->
  exists l, Re.matches (Re.Grp (Re.Cat (Re.Cls bareword_start)
                                        (Re.Star (Re.Cls bareword_char))))
                       (h :: w ++ q) = q :: l.
Proof.
  intros Hh Hw Hq.
  destruct (matches_star_class bareword_char w q Hw Hq) as (l & E & _).
  exists l. rewrite matches_grp, matches_cat, matches_cls_cons, Hh, flat_map_one.
  exact E.
Qed.

Lemma matches_no_bareword (s : str) :
  starts_in bareword_start s = false ->
  Re.matches (Re.Grp (Re.Cat (Re.Cls bareword_start)
                              (Re.Star (Re.Cls bareword_char)))) s = [].
Proof.
  intros H. rewrite matches_grp, matches_cat.
  destruct s as [|c t]; [reflexivity|]. simpl in H.
  now rewrite matches_cls_cons, H.
Qed.

(** [undefined_re] at a colon: after the whitespace, a bareword is taken
    whole; without one there is no match. *)
Lemma undefined_re_after_colon (ws r : str) :
  forallb Re.space ws = true -> starts_in Re.space r = false ->
  Re.matches undefined_re (COLON :: ws ++ r)
  = Re.matches (Re.Grp (Re.Cat (Re.Cls bareword_start)
                                (Re.Star (Re.Cls bareword_char)))) r.
Proof.
  intros Hws Hr. unfold undefined_re.
  rewrite matches_cat, matches_chr_cons, N.eqb_refl, flat_map_one, matches_cat.
  destruct (matches_star_class Re.space ws r Hws Hr) as (l & -> & F).
  change (flat_map ?f (r :: l)) with (f r ++ flat_map f l).
  rewrite (@flat_map_empty _ _ _ l), app_nil_r; [reflexivity|].
  eapply Forall_impl; [|exact F]. intros s' Hs'. cbv beta in Hs'.
  apply matches_no_bareword. destruct s' as [|c t]; [reflexivity|]. simpl in *.
  destruct (bareword_start c) eqn:E; [|reflexivity].
  apply bareword_start_not_space in E. congruence.
Qed.

Lemma undefined_re_hit (ws w q : str) :
  forallb Re.space ws = true -> is_bareword w = true ->
  starts_in bareword_char q = false ->
  Re.re_match undefined_re (COLON :: ws ++ w ++ q) = Some q.
Proof.
  intros Hws Hw Hq. destruct w as [|h w]; [discriminate|].
  simpl in Hw. apply andb_true_iff in Hw as [Hh Hw].
  unfold Re.re_match. rewrite undefined_re_after_colon.
  - simpl app. destruct (matches_bareword h w q Hh Hw Hq) as (l & ->). reflexivity.
  - exact Hws.
  - simpl. now apply bareword_start_not_space.
Qed.

Lemma undefined_re_no_colon (s : str) :
  starts_in (N.eqb COLON) s = false -> Re.re_match undefined_re s = None.
Proof.
  intros H. destruct s as [|c t]; [reflexivity|]. cbn [starts_in] in H.
  unfold Re.re_match, undefined_re. rewrite matches_cat, matches_chr_cons.
  rewrite N.eqb_sym in H. now rewrite H.
Qed.

Lemma undefined_re_miss (ws r : str) :
  forallb Re.space ws = true -> starts_in Re.space r = false ->
  starts_in bareword_start r = false ->
  Re.re_match undefined_re (COLON :: ws ++ r) = None.
Proof.
  intros Hws Hr Hb. unfold Re.re_match.
  rewrite undefined_re_after_colon by assumption.
  now rewrite matches_no_bareword.
Qed.

(** * Facts about [re.sub] *)

Lemma sub_from_skip (r : Re.regex) (repl m rest : str) :
  Re.sub_from r repl (length m) (m ++ rest) = Re.sub_from r repl 0 rest.
Proof. induction m as [|c m IH]; [reflexivity|exact IH]. Qed.

Lemma sub_miss (r : Re.regex) (repl : str) (c : char) (t : str) :
  Re.re_match r (c :: t) = None -> Re.sub r repl (c :: t) = c :: Re.sub r repl t.
Proof. unfold Re.sub. simpl. now intros ->. Qed.

Lemma sub_hit (r : Re.regex) (repl s m rest : str) :
  s = m ++ rest -> m <> [] -> Re.re_match r s = Some rest ->
  Re.sub r repl s = repl ++ Re.sub r repl rest.
Proof.
  intros -> Hm H. destruct m as [|c m]; [congruence|].
  unfold Re.sub. simpl app. cbn [Re.sub_from].
  change (c :: m ++ rest) with ((c :: m) ++ rest) in *. rewrite H.
  f_equal. rewrite length_app. simpl length.
  replace (S (length m) + length rest - length rest - 1) with (length m) by lia.
  apply sub_from_skip.
Qed.

(** A colon followed by whitespace and a bareword is rewritten wherever
    it stands: the text before it and the text after it are rewritten on
    their own. *)
Lemma replace_undefined_token (ph p ws w q : str) :
  forallb Re.space ws = true -> is_bareword w = true ->
  starts_in bareword_char q = false ->
  replace_undefined (p ++ COLON :: ws ++ w ++ q) ph
  = replace_undefined p ph ++ (py ": " ++ ph) ++ replace_undefined q ph.
Proof.
  intros Hws Hw Hq. unfold replace_undefined.
  set (repl := py ": " ++ ph). set (X := COLON :: ws ++ w ++ q).
  assert (HX : Re.sub undefined_re repl X = repl ++ Re.sub undefined_re repl q).
  { apply sub_hit with (m := COLON :: ws ++ w).
    - unfold X. list_assoc.
    - discriminate.
    - now apply undefined_re_hit. }
  remember (length p) as n eqn:Hn. revert p Hn.
  induction n as [n IH] using lt_wf_ind. intros p Hn.
  destruct p as [|c t]; [exact HX|].
  simpl app.
  assert (Miss : Re.re_match undefined_re (c :: t ++ X) = None ->
                 Re.re_match undefined_re (c :: t) = None ->
                 Re.sub undefined_re repl (c :: t ++ X)
                 = Re.sub undefined_re repl (c :: t) ++ repl ++ Re.sub undefined_re repl q).
  { intros M1 M2. rewrite (@sub_miss _ repl _ _ M1), (@sub_miss _ repl _ _ M2). simpl. f_equal.
    apply (IH (length t)); [subst n; simpl; lia|reflexivity]. }
  destruct (N.eqb_spec COLON c) as [<-|Hc].
  2:{ apply Miss; apply undefined_re_no_colon; cbn [starts_in];
      now apply N.eqb_neq. }
  destruct (span_class Re.space t) as (a & r & -> & Ha & Hr).
  destruct r as [|h r'].
  { rewrite app_nil_r in *. apply Miss.
    - now apply undefined_re_miss.
    - rewrite <- (app_nil_r a). now apply undefined_re_miss. }
  destruct (bareword_start h) eqn:Hh.
  2:{ apply Miss.
      - rewrite <- app_assoc. now apply undefined_re_miss.
      - now apply undefined_re_miss. }
  destruct (span_class bareword_char r') as (w1 & q1 & -> & Hw1 & Hq1).
  assert (Hb : is_bareword (h :: w1) = true) by (simpl; now rewrite Hh, Hw1).
  rewrite (@sub_hit undefined_re repl (COLON :: (a ++ h :: w1 ++ q1) ++ X)
             (COLON :: a ++ h :: w1) (q1 ++ X)).
  - rewrite (@sub_hit undefined_re repl (COLON :: a ++ h :: w1 ++ q1)
               (COLON :: a ++ h :: w1) q1).
    + rewrite <- app_assoc. f_equal.
      apply (IH (length q1)); [|reflexivity].
      subst n. simpl. rewrite !length_app. simpl. rewrite length_app. lia.
    + list_assoc.
    + discriminate.
    + apply (undefined_re_hit a (h :: w1) q1 Ha Hb Hq1).
  - list_assoc.
  - discriminate.
  - replace ((a ++ h :: w1 ++ q1) ++ X) with (a ++ (h :: w1) ++ (q1 ++ X))
      by list_assoc.
    apply (undefined_re_hit a (h :: w1) (q1 ++ X) Ha Hb).
    now apply starts_in_app.
Qed.

(** * Matches consume a prefix of the input *)

Lemma star_from_suffix (f : str -> list str) (n : nat) :
  (forall s s', In s' (f s) -> exists m, s = m ++ s') ->
  forall s s', In s' (Re.star_from f n s) -> exists m, s = m ++ s'.
Proof.
  intros Hf. induction n as [|n IH]; intros s s' H; simpl in H.
  - destruct H as [<-|[]]. now exists [].
  - apply in_app_or in H as [H|[<-|[]]]; [|now exists []].
    apply in_flat_map in H as (s1 & H1 & H2).
    destruct (length s1 <? length s); [|destruct H2].
    apply Hf in H1 as (m1 & ->). apply IH in H2 as (m2 & ->).
    exists (m1 ++ m2). now rewrite app_assoc.
Qed.

Lemma matches_suffix (r : Re.regex) :
  forall s s', In s' (Re.matches r s) -> exists m, s = m ++ s'.
Proof.
  induction r as [|c|p|a IHa b IHb|a IHa b IHb|a IHa|a IHa]; intros s s' H; simpl in H.
  - destruct H as [<-|[]]. now exists [].
  - destruct s as [|x t]; [destruct H|]. destruct (x =? c)%N; [|destruct H].
    destruct H as [<-|[]]. now exists [x].
  - destruct s as [|x t]; [destruct H|]. destruct (p x); [|destruct H].
    destruct H as [<-|[]]. now exists [x].
  - apply in_flat_map in H as (s1 & H1 & H2).
    apply IHa in H1 as (m1 & ->). apply IHb in H2 as (m2 & ->).
    exists (m1 ++ m2). now rewrite app_assoc.
  - apply in_app_or in H as [H|H]; eauto.
  - eapply star_from_suffix; eauto.
  - eauto.
Qed.

Lemma matches_length (r : Re.regex) (s s' : str) :
  In s' (Re.matches r s) -> length s' <= length s.
Proof. intros (m & ->)%matches_suffix. rewrite length_app. lia. Qed.

Lemma re_match_length (r : Re.regex) (s s' : str) :
  Re.re_match r s = Some s' -> length s' <= length s.
Proof.
  unfold Re.re_match. intros H. apply matches_length with r.
  destruct (Re.matches r s); [discriminate|]. injection H as ->. now left.
Qed.

Lemma re_match_in (r : Re.regex) (s s' : str) :
  Re.re_match r s = Some s' -> In s' (Re.matches r s).
Proof.
  unfold Re.re_match. destruct (Re.matches r s); [discriminate|].
  intros H. injection H as ->. now left.
Qed.

(** * The decoder returns a value or raises [ValueError] *)

Lemma w_length (s : str) : length (Json.w s) <= length s.
Proof.
  induction s as [|c t IH]; [reflexivity|]. cbn [Json.w].
  destruct (one_of [SPACE; TAB; LF; CR] c); simpl; lia.
Qed.

Lemma w_cons (s : str) (c : char) (t : str) :
  Json.w s = c :: t -> length t < length s.
Proof. intros H. pose proof (w_length s) as L. rewrite H in L. simpl in L. lia. Qed.

Lemma bind_ok (A B : Type) (m : result A) (k : A -> result B) (b : B) :
  bind m k = Ok b -> exists a, m = Ok a /\ k a = Ok b.
Proof. destruct m; simpl; [eauto|discriminate]. Qed.

Lemma bind_raise (A B : Type) (m : result A) (k : A -> result B) (e : exn) :
  bind m k = Raise e -> m = Raise e \/ exists a, m = Ok a /\ k a = Raise e.
Proof. destruct m; simpl; [eauto|]. intros H. injection H as ->. now left. Qed.

Lemma scanstring_sound (s : str) :
  match Json.scanstring s with
  | Ok (_, r) => length r < length s
  | Raise e => e = ValueError
  end.
Proof.
  remember (length s) as n eqn:Hn. revert s Hn.
  induction n as [n IH] using lt_wf_ind. intros s ->.
  assert (Step : forall t (c : char), length t < length s ->
            match ('(r, rest) <- Json.scanstring t ;; Ok (c :: r, rest)) with
            | Ok (_, r) => length r < length s
            | Raise e => e = ValueError
            end).
  { intros t c Ht. specialize (IH (length t) Ht t eq_refl).
    destruct (Json.scanstring t) as [[x r]|e]; simpl; [lia|exact IH]. }
  clear IH.
  destruct s as [|c t]; [reflexivity|]. cbn [Json.scanstring].
  destruct (c =? DQUOTE)%N; [len|].
  destruct (c =? BSLASH)%N.
  2:{ destruct (c <? 32)%N; [reflexivity|]. apply (Step t c). len. }
  destruct t as [|esc t2]; [reflexivity|].
  destruct (negb (esc =? ord "u")%N).
  { destruct (Json.BACKSLASH esc) as [ch|]; [|reflexivity].
    apply (Step t2 ch). len. }
  destruct t2 as [|h1 [|h2 [|h3 [|h4 t6]]]]; try reflexivity.
  destruct (Json.hex4 h1 h2 h3 h4) as [uni|]; [|reflexivity].
  cbv zeta.
  assert (Single : match ('(r, rest) <- Json.scanstring t6 ;; Ok (uni :: r, rest)) with
                   | Ok (_, r) => length r < length (c :: esc :: h1 :: h2 :: h3 :: h4 :: t6)
                   | Raise e => e = ValueError
                   end).
  { apply (Step t6 uni). len. }
  destruct (in_range 55296 56319 uni && startswith [BSLASH; ord "u"] t6); [|exact Single].
  destruct t6 as [|a1 [|a2 [|g1 [|g2 [|g3 [|g4 t12]]]]]]; try reflexivity.
  destruct (Json.hex4 g1 g2 g3 g4) as [uni2|]; [|reflexivity].
  destruct (in_range 56320 57343 uni2); [|exact Single].
  apply Step. len.
Qed.

Lemma matches_cls_strict (p : char -> bool) (s s' : str) :
  In s' (Re.matches (Re.Cls p) s) -> length s' < length s.
Proof.
  destruct s as [|c t]; simpl; [tauto|]. destruct (p c); simpl; [|tauto].
  intros [<-|[]]. lia.
Qed.

Lemma matches_chr_strict (x : char) (s s' : str) :
  In s' (Re.matches (Re.Chr x) s) -> length s' < length s.
Proof.
  destruct s as [|c t]; simpl; [tauto|]. destruct (c =? x)%N; simpl; [|tauto].
  intros [<-|[]]. lia.
Qed.

Lemma integer_re_strict (s s' : str) :
  In s' (Re.matches (Re.Grp Json.integer_re) s) -> length s' < length s.
Proof.
  unfold Json.integer_re. rewrite matches_grp, matches_cat.
  intros (s1 & H1 & H2)%in_flat_map.
  apply matches_length in H1.
  change (In s' (Re.matches (Re.Chr (ord "0")) s1
                 ++ Re.matches (Re.Cat (Re.Cls (in_range 49 57))
                                       (Re.Star (Re.Cls Re.digit))) s1)) in H2.
  apply in_app_or in H2 as [H2|H2].
  - apply matches_chr_strict in H2. lia.
  - rewrite matches_cat in H2. apply in_flat_map in H2 as (s2 & H2 & H3).
    apply matches_cls_strict in H2. apply matches_length in H3. lia.
Qed.

Lemma match_number_progress (s i f e rest : str) :
  Json.match_number s = Some (i, f, e, rest) -> length rest < length s.
Proof.
  unfold Json.match_number.
  destruct (Re.re_match (Re.Grp Json.integer_re) s) as [r1|] eqn:E1; [|discriminate].
  destruct (Re.re_match (Re.Opt (Re.Grp Json.frac_re)) r1) as [r2|] eqn:E2; [|discriminate].
  destruct (Re.re_match (Re.Opt (Re.Grp Json.exp_re)) r2) as [r3|] eqn:E3; [|discriminate].
  intros H. injection H as _ _ _ <-.
  apply re_match_in, integer_re_strict in E1.
  apply re_match_length in E2, E3. lia.
Qed.

Lemma startswith_skipn (p s : str) :
  startswith p s = true -> length (skipn (length p) s) + length p = length s.
Proof.
  intros (t & ->)%startswith_spec. rewrite skipn_app, skipn_all, Nat.sub_diag.
  simpl. rewrite length_app. lia.
Qed.

Lemma try_stop_scans (f : str -> result (pyval * str)) (s : str) :
  scans f s ->
  decodes false (try_except (f s) StopIteration (fun _ => Raise ValueError)) s.
Proof.
  unfold scans, decodes. destruct (f s) as [[v r]|e]; simpl.
  - intros H. split; [exact H|discriminate].
  - intros [->| ->]; reflexivity.
Qed.

Section Loops.

Variable scan_once : str -> result (pyval * str).
Variable L : nat.
Hypothesis scan_ok : forall s, length s <= L -> scans scan_once s.

Lemma JSONObject_loop_sound (n : nat) :
  forall s pairs, length s <= L -> length s < n ->
    decodes true (Json.JSONObject_loop scan_once n s pairs) s.
Proof.
  induction n as [|n IH]; intros s pairs HL Hn; [lia|].
  cbn [Json.JSONObject_loop].
  pose proof (scanstring_sound s) as Hk.
  destruct (Json.scanstring s) as [[key s1]|e]; [|exact Hk]. cbn [bind].
  destruct (Json.w s1) as [|c s2] eqn:W1; [reflexivity|].
  apply w_cons in W1.
  destruct (negb (c =? COLON)%N); [reflexivity|].
  pose proof (w_length s2) as W2.
  pose proof (@try_stop_scans scan_once (Json.w s2) (scan_ok (Json.w s2) ltac:(lia))) as Hv.
  destruct (try_except (scan_once (Json.w s2)) StopIteration _) as [[value s3]|e];
    [|exact Hv].
  destruct Hv as [Hv _]. cbn [bind]. cbv zeta.
  destruct (Json.w s3) as [|nextchar s4] eqn:W3; [reflexivity|].
  apply w_cons in W3.
  destruct (nextchar =? RBRACE)%N.
  { split; [lia|eauto]. }
  destruct (negb (nextchar =? COMMA)%N); [reflexivity|].
  destruct (Json.w s4) as [|q s5] eqn:W4; [reflexivity|].
  apply w_cons in W4.
  destruct (q =? DQUOTE)%N; [|reflexivity].
  specialize (IH s5 (pairs ++ [(key, value)]) ltac:(lia) ltac:(lia)).
  unfold decodes in *.
  destruct (Json.JSONObject_loop scan_once n s5 _) as [[v r]|e]; [|exact IH].
  destruct IH as [I1 I2]. split; [lia|exact I2].
Qed.

Lemma JSONObject_sound (s : str) :
  length s <= L -> decodes true (Json.JSONObject scan_once s) (LBRACE :: s).
Proof.
  intros HL. unfold Json.JSONObject.
  destruct (Json.w s) as [|nextchar t] eqn:W; [reflexivity|].
  apply w_cons in W.
  destruct (nextchar =? DQUOTE)%N.
  - pose proof (@JSONObject_loop_sound (S (length t)) t [] ltac:(lia) ltac:(lia)) as H.
    unfold decodes in *.
    destruct (Json.JSONObject_loop scan_once _ t []) as [[v r]|e]; [|exact H].
    destruct H as [H1 H2]. split; [len|exact H2].
  - destruct (nextchar =? RBRACE)%N; [|reflexivity].
    split; [len|eauto].
Qed.

Lemma JSONArray_loop_sound (n : nat) :
  forall s values, length s <= L -> length s < n ->
    decodes false (Json.JSONArray_loop scan_once n s values) (LBRACKET :: s).
Proof.
  induction n as [|n IH]; intros s values HL Hn; [lia|].
  cbn [Json.JSONArray_loop].
  pose proof (@try_stop_scans scan_once s (scan_ok _ HL)) as Hv.
  destruct (try_except (scan_once s) StopIteration _) as [[value s1]|e];
    [|exact Hv].
  destruct Hv as [Hv _]. cbn [bind]. cbv zeta.
  destruct (Json.w s1) as [|nextchar s2] eqn:W1; [reflexivity|].
  apply w_cons in W1.
  destruct (nextchar =? RBRACKET)%N.
  { split; [len|discriminate]. }
  destruct (negb (nextchar =? COMMA)%N); [reflexivity|].
  pose proof (w_length s2) as W2.
  specialize (IH (Json.w s2) (values ++ [value]) ltac:(lia) ltac:(lia)).
  unfold decodes in *.
  destruct (Json.JSONArray_loop scan_once n (Json.w s2) _) as [[v r]|e]; [|exact IH].
  destruct IH as [I1 I2]. split; [len|exact I2].
Qed.

Lemma JSONArray_sound (s : str) :
  length s <= L -> decodes false (Json.JSONArray scan_once s) (LBRACKET :: s).
Proof.
  intros HL. unfold Json.JSONArray.
  pose proof (w_length s) as W0.
  assert (Loop : decodes false (Json.JSONArray_loop scan_once (S (length s)) (Json.w s) [])
                         (LBRACKET :: s)).
  { pose proof (@JSONArray_loop_sound (S (length s)) (Json.w s) [] ltac:(lia) ltac:(lia)) as H.
    unfold decodes in *.
    destruct (Json.JSONArray_loop scan_once _ (Json.w s) []) as [[v r]|e]; [|exact H].
    destruct H as [H1 H2]. split; [len|exact H2]. }
  destruct (Json.w s) as [|nextchar t] eqn:W; [exact Loop|].
  apply w_cons in W.
  destruct (nextchar =? RBRACKET)%N; [|exact Loop].
  split; [len|discriminate].
Qed.

End Loops.

Lemma decodes_scans (b : bool) (f : str -> result (pyval * str)) (s t : str) :
  decodes b (f t) s -> match f t with
                       | Ok (_, r) => length r < length s
                       | Raise e => e = ValueError \/ e = StopIteration
                       end.
Proof.
  unfold decodes. destruct (f t) as [[v r]|e]; [now intros [H _]|now left].
Qed.

(** With as many nested calls allowed as the input has characters the
    limit is not reached. *)
Lemma scan_once_enough (limit : nat) :
  forall s, length s <= limit -> scans (Json.scan_once limit) s.
Proof.
  induction limit as [|d IH]; intros s Hd.
  { destruct s; [now right|simpl in Hd; lia]. }
  unfold scans. cbn [Json.scan_once].
  destruct s as [|nextchar t]; [now right|].
  assert (IH' : forall s', length s' <= length t -> scans (Json.scan_once d) s').
  { intros s' H'. apply IH. simpl in Hd. lia. }
  destruct (nextchar =? DQUOTE)%N.
  { pose proof (scanstring_sound t) as H.
    destruct (Json.scanstring t) as [[x r]|e]; simpl; [len|now left]. }
  destruct (nextchar =? LBRACE)%N.
  { apply (@decodes_scans true (Json.JSONObject (Json.scan_once d)) (nextchar :: t) t).
    pose proof (@JSONObject_sound (Json.scan_once d) (length t) IH' t (le_n _)) as H.
    unfold decodes in *. destruct (Json.JSONObject _ t) as [[v r]|e]; [|exact H].
    destruct H as [H1 H2]. split; [len|exact H2]. }
  destruct (nextchar =? LBRACKET)%N.
  { apply (@decodes_scans false (Json.JSONArray (Json.scan_once d)) (nextchar :: t) t).
    pose proof (@JSONArray_sound (Json.scan_once d) (length t) IH' t (le_n _)) as H.
    unfold decodes in *. destruct (Json.JSONArray _ t) as [[v r]|e]; [|exact H].
    destruct H as [H1 H2]. split; [len|exact H2]. }
  destruct (startswith (py "null") (nextchar :: t)) eqn:E1.
  { apply startswith_skipn in E1. change (length (py "null")) with 4 in E1. lia. }
  destruct (startswith (py "true") (nextchar :: t)) eqn:E2.
  { apply startswith_skipn in E2. change (length (py "true")) with 4 in E2. lia. }
  destruct (startswith (py "false") (nextchar :: t)) eqn:E3.
  { apply startswith_skipn in E3. change (length (py "false")) with 5 in E3. lia. }
  destruct (Json.match_number (nextchar :: t)) as [[[[i f] e] rest]|] eqn:E4.
  { apply match_number_progress in E4. destruct f, e; exact E4. }
  destruct (startswith (py "NaN") (nextchar :: t)) eqn:E5.
  { apply startswith_skipn in E5. change (length (py "NaN")) with 3 in E5. lia. }
  destruct (startswith (py "Infinity") (nextchar :: t)) eqn:E6.
  { apply startswith_skipn in E6. change (length (py "Infinity")) with 8 in E6. lia. }
  destruct (startswith (py "-Infinity") (nextchar :: t)) eqn:E7.
  { apply startswith_skipn in E7. change (length (py "-Infinity")) with 9 in E7. lia. }
  now right.
Qed.

Lemma scan_once_sound (depth : nat) :
  forall s, length s < depth -> scans (Json.scan_once depth) s.
Proof. intros s H. apply scan_once_enough. lia. Qed.

(** [json.loads] returns a value or raises [ValueError], nothing else. *)
Lemma loads_total (s : str) :
  (exists v, Json.loads s = Ok v) \/ Json.loads s = Raise ValueError.
Proof.
  unfold Json.loads, Json.loads_within. destruct (startswith [65279%N] s); [now right|].
  unfold Json.decode, Json.raw_decode.
  pose proof (w_length s) as W.
  pose proof (@try_stop_scans (Json.scan_once (S (length s))) (Json.w s)
                (@scan_once_sound (S (length s)) (Json.w s) ltac:(lia))) as H.
  unfold decodes in H.
  destruct (try_except _ StopIteration _) as [[obj rest]|e]; cbn [bind].
  - destruct (Json.w rest); [left; eauto|now right].
  - right. now rewrite H.
Qed.

Lemma is_valid_json_eq (s : str) : is_valid_json s = Ok (valid_json s).
Proof.
  unfold is_valid_json, is_valid_json_within, valid_json. fold (Json.loads s).
  destruct (loads_total s) as [[v ->]| ->]; reflexivity.
Qed.

(** * Parse elements consume a prefix of the input *)

Lemma preParse_suffix (s : str) :
  exists ws, s = ws ++ Pyparsing.preParse s
             /\ forallb (one_of Pyparsing.DEFAULT_WHITE_CHARS) ws = true.
Proof.
  induction s as [|c t (ws & E & F)]; [now exists []|].
  cbn [Pyparsing.preParse].
  destruct (one_of Pyparsing.DEFAULT_WHITE_CHARS c) eqn:Hc.
  - exists (c :: ws). split; [cbn [app]; now rewrite <- E|cbn [forallb]; now rewrite Hc].
  - now exists [].
Qed.

Lemma preParse_head (s : str) (c : char) (t : str) :
  Pyparsing.preParse s = c :: t -> one_of Pyparsing.DEFAULT_WHITE_CHARS c = false.
Proof.
  induction s as [|x s IH]; [discriminate|]. cbn [Pyparsing.preParse].
  destruct (one_of Pyparsing.DEFAULT_WHITE_CHARS x) eqn:Hx; [exact IH|].
  intros H. injection H as <- _. exact Hx.
Qed.

Lemma preParse_fixed (s : str) :
  starts_in (one_of Pyparsing.DEFAULT_WHITE_CHARS) s = false -> Pyparsing.preParse s = s.
Proof. destruct s as [|c t]; [reflexivity|]. cbn [starts_in Pyparsing.preParse]. now intros ->. Qed.

Lemma preParse_idem (s : str) :
  Pyparsing.preParse (Pyparsing.preParse s) = Pyparsing.preParse s.
Proof.
  apply preParse_fixed. destruct (Pyparsing.preParse s) as [|c t] eqn:E; [reflexivity|].
  simpl. now apply preParse_head in E.
Qed.

Lemma preParse_length (s : str) : length (Pyparsing.preParse s) <= length s.
Proof. destruct (preParse_suffix s) as (ws & E & _). rewrite E at 2. len. Qed.

Lemma advances_length (p : Pyparsing.parser) (s r : str) :
  advances p -> p s = Ok r -> length r <= length s.
Proof. intros A H. apply A in H as (m & ->). len. Qed.

Lemma advances_skipWhitespace (p : Pyparsing.parser) :
  advances p -> advances (Pyparsing.skipWhitespace p).
Proof.
  intros A s r H. unfold Pyparsing.skipWhitespace in H.
  apply A in H as (m & E). destruct (preParse_suffix s) as (ws & Es & _).
  exists (ws ++ m). rewrite <- app_assoc, <- E. exact Es.
Qed.

Lemma Literal_ok (c : char) (s r : str) :
  Pyparsing.Literal c s = Ok r -> s = c :: r.
Proof.
  unfold Pyparsing.Literal. destruct s as [|x t]; [discriminate|].
  destruct (N.eqb_spec x c) as [->|]; [|discriminate]. now intros [= ->].
Qed.

Lemma advances_Literal (c : char) : advances (Pyparsing.Literal c).
Proof. intros s r H. apply Literal_ok in H as ->. now exists [c]. Qed.

Lemma advances_Regex (r : Re.regex) : advances (Pyparsing.Regex r).
Proof.
  intros s t H. unfold Pyparsing.Regex in H.
  destruct (Re.re_match r s) as [t'|] eqn:E; [|discriminate].
  injection H as ->. now apply re_match_in, matches_suffix in E.
Qed.

Lemma CharsNotIn1_ok (cs s r : str) :
  Pyparsing.CharsNotIn1 cs s = Ok r -> exists c, s = c :: r /\ one_of cs c = false.
Proof.
  unfold Pyparsing.CharsNotIn1. destruct s as [|x t]; [discriminate|].
  destruct (one_of cs x) eqn:E; [discriminate|]. intros [= ->]. eauto.
Qed.

Lemma advances_CharsNotIn1 (cs : str) : advances (Pyparsing.CharsNotIn1 cs).
Proof. intros s r H. apply CharsNotIn1_ok in H as (c & -> & _). now exists [c]. Qed.

Lemma advances_And (ps : list Pyparsing.parser) :
  Forall advances ps -> advances (Pyparsing.And ps).
Proof.
  induction 1 as [|p ps Hp _ IH]; intros s r H; cbn [Pyparsing.And] in H.
  - injection H as ->. now exists [].
  - apply bind_ok in H as (t & H1 & H2).
    apply Hp in H1 as (m1 & ->). apply IH in H2 as (m2 & ->).
    exists (m1 ++ m2). now rewrite app_assoc.
Qed.

Lemma try_except_ok (A : Type) (m : result A) (e : exn) (h : unit -> result A) (a : A) :
  try_except m e h = Ok a -> m = Ok a \/ (m = Raise e /\ h tt = Ok a).
Proof.
  unfold try_except. destruct m as [x|e']; [now left|].
  destruct e', e; simpl; try discriminate; now right.
Qed.

Lemma advances_MatchFirst (ps : list Pyparsing.parser) :
  Forall advances ps -> advances (Pyparsing.MatchFirst ps).
Proof.
  induction 1 as [|p ps Hp _ IH]; intros s r H; cbn [Pyparsing.MatchFirst] in H.
  - discriminate.
  - apply try_except_ok in H as [H|[_ H]]; [now apply Hp|now apply IH].
Qed.

Lemma advances_NotAny (p : Pyparsing.parser) : advances (Pyparsing.NotAny p).
Proof.
  intros s r H. unfold Pyparsing.NotAny in H.
  destruct (p s) as [|[]]; try discriminate. injection H as ->. now exists [].
Qed.

Lemma advances_many (p : Pyparsing.parser) (n : nat) :
  advances p -> advances (Pyparsing.many p n).
Proof.
  intros A. induction n as [|n IH]; intros s r H; simpl in H; [discriminate|].
  destruct (p s) as [t|[]] eqn:E; try discriminate.
  - apply A in E as (m1 & ->). apply IH in H as (m2 & ->).
    exists (m1 ++ m2). now rewrite app_assoc.
  - injection H as ->. now exists [].
Qed.

Lemma advances_ZeroOrMore (p : Pyparsing.parser) :
  advances p -> advances (Pyparsing.ZeroOrMore p).
Proof. intros A s r H. unfold Pyparsing.ZeroOrMore in H. eapply advances_many; eauto. Qed.

Lemma advances_OneOrMore (p : Pyparsing.parser) :
  advances p -> advances (Pyparsing.OneOrMore p).
Proof.
  intros A s r H. unfold Pyparsing.OneOrMore in H.
  apply bind_ok in H as (t & H1 & H2).
  apply A in H1 as (m1 & ->). apply advances_ZeroOrMore in H2 as (m2 & ->); [|exact A].
  exists (m1 ++ m2). now rewrite app_assoc.
Qed.

Lemma advances_quoted_string : advances Pyparsing.quoted_string.
Proof.
  apply advances_MatchFirst. repeat constructor;
    apply advances_And; repeat constructor;
    first [apply advances_Regex | apply advances_Literal].
Qed.

Lemma advances_content (o c : char) : advances (Pyparsing.content o c).
Proof.
  apply advances_OneOrMore, advances_And. repeat constructor.
  - apply advances_NotAny.
  - apply advances_CharsNotIn1.
Qed.

Lemma advances_items (o c : char) (ret : Pyparsing.parser) :
  advances ret ->
  advances (Pyparsing.ZeroOrMore (Pyparsing.nested_item o c ret)).
Proof.
  intros A. apply advances_ZeroOrMore, advances_MatchFirst.
  repeat constructor; apply advances_skipWhitespace;
    [apply advances_quoted_string|exact A|apply advances_content].
Qed.

(** A match of [nested_expr] is, after the whitespace, the opener, some
    text, and the closer. *)
Lemma nested_expr_shape (o c : char) (depth : nat) :
  forall s r, Pyparsing.nested_expr o c depth s = Ok r ->
              exists m, Pyparsing.preParse s = o :: m ++ c :: r.
Proof.
  induction depth as [|d IH]; intros s r H; [discriminate|].
  assert (A : advances (Pyparsing.nested_expr o c d)).
  { intros s' r' H'. apply IH in H' as (m & E).
    destruct (preParse_suffix s') as (ws & Es & _).
    exists (ws ++ o :: m ++ [c]). rewrite Es at 1. rewrite E.
    rewrite <- !app_assoc. simpl. now rewrite <- app_assoc. }
  cbn [Pyparsing.nested_expr Pyparsing.And] in H.
  apply bind_ok in H as (t1 & H1 & H).
  apply bind_ok in H as (t2 & H2 & H).
  apply bind_ok in H as (t3 & H3 & H). injection H as ->.
  unfold Pyparsing.skipWhitespace in H1, H3.
  apply Literal_ok in H1, H3.
  apply (advances_items o c A) in H2 as (m & ->).
  destruct (preParse_suffix t2) as (ws & E2 & _).
  exists (m ++ ws). rewrite H1. f_equal. rewrite <- app_assoc. f_equal.
  now rewrite <- H3.
Qed.

(** * The spans of the scanner *)

Lemma firstn_prefix (a b : str) : firstn (length (a ++ b) - length b) (a ++ b) = a.
Proof.
  rewrite length_app, Nat.add_sub, firstn_app, Nat.sub_diag, firstn_all.
  simpl. apply app_nil_r.
Qed.

(** Every token of the scan is the text of a complete nested expression
    found in the input: it opens with the opener and ends with the closer
    that matches it. *)
Lemma scan_from_spans (d n : nat) :
  forall s l,
    Pyparsing.scan_from
      (Pyparsing.original_text_for (Pyparsing.nested_expr LBRACE RBRACE d)) n s = Ok l ->
    forall c, In c l ->
      exists p q m, s = p ++ c ++ q /\ c = LBRACE :: m ++ [RBRACE]
                    /\ Pyparsing.nested_expr LBRACE RBRACE d (c ++ q) = Ok q.
Proof.
  induction n as [|n IH]; intros s l H c Hc; [discriminate|].
  cbn [Pyparsing.scan_from] in H. cbv zeta in H.
  destruct (preParse_suffix s) as (ws & Es & _).
  set (pre := Pyparsing.preParse s) in *.
  assert (Next : match pre with
                 | [] => Ok []
                 | _ :: t =>
                     Pyparsing.scan_from
                       (Pyparsing.original_text_for
                          (Pyparsing.nested_expr LBRACE RBRACE d)) n t
                 end = Ok l ->
                 exists p q m, s = p ++ c ++ q /\ c = LBRACE :: m ++ [RBRACE]
                               /\ Pyparsing.nested_expr LBRACE RBRACE d (c ++ q) = Ok q).
  { intros HN. destruct pre as [|x t].
    - injection HN as <-. destruct Hc.
    - destruct (IH t l HN c Hc) as (p & q & m & -> & E & P).
      exists (ws ++ x :: p), q, m. split; [|now split].
      rewrite Es. now rewrite <- app_assoc. }
  unfold Pyparsing.original_text_for in H at 1.
  destruct (Pyparsing.nested_expr LBRACE RBRACE d pre) as [rest|e] eqn:E; cbn [bind] in H.
  2:{ destruct e; try discriminate. now apply Next. }
  destruct (length rest <? length s); [|now apply Next].
  apply bind_ok in H as (r & H1 & H2). injection H2 as <-.
  pose proof E as Sh. apply nested_expr_shape in Sh as (m & Sh).
  unfold pre in Sh. rewrite preParse_idem in Sh. fold pre in Sh.
  assert (T : firstn (length pre - length rest) pre = LBRACE :: m ++ [RBRACE]).
  { rewrite Sh. replace (LBRACE :: m ++ RBRACE :: rest)
      with ((LBRACE :: m ++ [RBRACE]) ++ rest) by (simpl; now rewrite <- app_assoc).
    apply firstn_prefix. }
  rewrite T in Hc. destruct Hc as [<-|Hc].
  - exists ws, rest, m. split; [|split; [reflexivity|]].
    + rewrite Es. f_equal. rewrite Sh. simpl. now rewrite <- app_assoc.
    + replace ((LBRACE :: m ++ [RBRACE]) ++ rest) with pre; [exact E|].
      rewrite Sh. simpl. now rewrite <- app_assoc.
  - destruct (IH rest r H1 c Hc) as (p & q & m' & Er & Ec & P).
    exists (ws ++ (LBRACE :: m ++ [RBRACE]) ++ p), q, m'. split; [|now split].
    rewrite Es, Sh, Er. list_assoc.
Qed.

Lemma get_json_candidates_spans (s c : str) :
  In c (get_json_candidates s) ->
  exists p q m,
    Str.expandtabs s = p ++ c ++ q /\ c = LBRACE :: m ++ [RBRACE]
    /\ Pyparsing.nested_expr LBRACE RBRACE (S (length (Str.expandtabs s))) (c ++ q) = Ok q.
Proof.
  unfold get_json_candidates, Pyparsing.search_string. cbv zeta.
  destruct (Pyparsing.scan_from _ _ _) as [l|e] eqn:E; [|intros []].
  intros Hc. exact (scan_from_spans _ _ _ E c Hc).
Qed.

(** * Valid candidates are objects *)

Lemma normalize_head (t : str) : exists t', normalize (LBRACE :: t) = LBRACE :: t'.
Proof.
  unfold normalize.
  change (py "\{") with [BSLASH; LBRACE]. change (py "{") with [LBRACE].
  change (py "\}") with [BSLASH; RBRACE]. change (py "}") with [RBRACE].
  change (py "\_") with [BSLASH; UNDERSCORE]. change (py "_") with [UNDERSCORE].
  rewrite (@unesc_miss BSLASH LBRACE LBRACE t eq_refl).
  rewrite (@unesc_miss BSLASH RBRACE LBRACE _ eq_refl).
  rewrite (@unesc_miss BSLASH UNDERSCORE LBRACE _ eq_refl). eauto.
Qed.

Lemma replace_undefined_head (ph t : str) :
  exists t', replace_undefined (LBRACE :: t) ph = LBRACE :: t'.
Proof.
  unfold replace_undefined. rewrite sub_miss; [eauto|].
  now apply undefined_re_no_colon.
Qed.

Lemma loads_object (t : str) (v : pyval) :
  Json.loads (LBRACE :: t) = Ok v -> exists d, v = PDict d.
Proof.
  unfold Json.loads, Json.loads_within. change (startswith [65279%N] (LBRACE :: t)) with false. cbv iota.
  unfold Json.decode, Json.raw_decode.
  change (Json.w (LBRACE :: t)) with (LBRACE :: t).
  cbn [Json.scan_once]. change (LBRACE =? DQUOTE)%N with false.
  change (LBRACE =? LBRACE)%N with true. cbv iota.
  pose proof (@JSONObject_sound (Json.scan_once (length (LBRACE :: t))) (length t)
                (fun s' H' => @scan_once_sound (length (LBRACE :: t)) s' ltac:(len)) t (le_n _)) as H.
  unfold decodes in H.
  destruct (Json.JSONObject _ t) as [[obj rest]|e].
  - destruct H as [_ [d ->]]; [reflexivity|]. cbn [try_except bind].
    destruct (Json.w rest); [|discriminate]. intros [= <-]. eauto.
  - subst e. discriminate.
Qed.

Lemma filter_valid_eq (l : list str) : filter_valid l = Ok (filter valid_json l).
Proof.
  induction l as [|c l IH]; [reflexivity|].
  cbn [filter_valid filter]. rewrite is_valid_json_eq, IH. reflexivity.
Qed.

(** The pipeline never raises: it is the filter of the repaired
    candidates. *)
Lemma extract_top_level_json_eq (s : str) :
  extract_top_level_json s
  = Ok (filter valid_json
          (map (fun c => replace_undefined (normalize c) default_placeholder)
               (get_json_candidates s))).
Proof.
  unfold extract_top_level_json. cbv zeta. rewrite filter_valid_eq, map_map.
  reflexivity.
Qed.

Lemma extract_top_level_json_objects (s : str) (jsons : list str) :
  extract_top_level_json s = Ok jsons ->
  Forall (fun j => exists d, Json.loads j = Ok (PDict d)) jsons.
Proof.
  rewrite extract_top_level_json_eq. intros [= <-].
  apply Forall_forall. intros j Hj.
  apply filter_In in Hj as [Hj V]. apply in_map_iff in Hj as (c & Ej & Hc). cbv beta in Ej. subst j.
  apply get_json_candidates_spans in Hc as (p & q & m & _ & -> & _).
  destruct (normalize_head (m ++ [RBRACE])) as [t1 E1]. rewrite E1 in *.
  destruct (replace_undefined_head default_placeholder t1) as [t2 E]. rewrite E in *.
  unfold valid_json in V.
  destruct (Json.loads (LBRACE :: t2)) as [v|] eqn:L; [|discriminate V].
  apply loads_object in L as L'. destruct L' as [d ->]. eauto.
Qed.

(** * Field projection *)

Lemma first_field_skip (f j : str) (rest : list str) (d : list (str * pyval)) :
  Json.loads j = Ok (PDict d) -> dict_get d f = None ->
  first_field f (j :: rest) = first_field f rest.
Proof. intros L G. cbn [first_field]. rewrite L. simpl. now rewrite G. Qed.

Lemma first_field_hit (f j : str) (rest : list str) (d : list (str * pyval)) (v : pyval) :
  Json.loads j = Ok (PDict d) -> dict_get d f = Some v ->
  first_field f (j :: rest) = Ok v.
Proof. intros L G. cbn [first_field]. rewrite L. simpl. now rewrite G. Qed.

Lemma first_field_spec (f : str) (jsons : list str) :
  Forall (fun j => exists d, Json.loads j = Ok (PDict d)) jsons ->
  (exists before j after d v,
      jsons = before ++ j :: after
      /\ Forall (fun j' => exists d', Json.loads j' = Ok (PDict d')
                                      /\ dict_get d' f = None) before
      /\ Json.loads j = Ok (PDict d) /\ dict_get d f = Some v
      /\ first_field f jsons = Ok v)
  \/ (Forall (fun j' => exists d', Json.loads j' = Ok (PDict d')
                                   /\ dict_get d' f = None) jsons
      /\ first_field f jsons = Ok (PStr [])).
Proof.
  induction 1 as [|j jsons [d L] _ IH]; [right; split; [constructor|reflexivity]|].
  destruct (dict_get d f) as [v|] eqn:G.
  - left. exists [], j, jsons, d, v. repeat split; auto.
    now apply first_field_hit with d.
  - rewrite (@first_field_skip f j jsons d L G).
    destruct IH as [(before & j' & after & d' & v & -> & F & L' & G' & R)|[F R]].
    + left. exists (j :: before), j', after, d', v. repeat split; auto.
      constructor; [eauto|exact F].
    + right. split; [|exact R]. constructor; [eauto|exact F].
Qed.

Lemma top_level_json_field_eq (s f : str) (jsons : list str) :
  extract_top_level_json s = Ok jsons ->
  top_level_json_field s f = first_field f jsons.
Proof.
  intros E. unfold top_level_json_field. rewrite E. cbn [bind].
  destruct jsons; reflexivity.
Qed.

(** * Tab expansion adds spaces only *)

Lemma expandtabs_from_in (x : char) (s : str) :
  x <> SPACE -> forall col, In x (Str.expandtabs_from col s) -> In x s.
Proof.
  intros Hx. induction s as [|c t IH]; intros col H; [exact H|].
  cbn [Str.expandtabs_from] in H. destruct (c =? TAB)%N.
  - apply in_app_or in H as [H|H]; [|right; eauto].
    apply repeat_spec in H. congruence.
  - destruct H as [->|H]; [now left|right; eauto].
Qed.

(** * Parse elements match or raise [ParseException] *)

Lemma behaves_weaken (p : Pyparsing.parser) (s : str) :
  behaves true p s -> behaves false p s.
Proof. unfold behaves. destruct (p s); [lia|auto]. Qed.

Lemma behaves_Literal (c : char) (s : str) : behaves true (Pyparsing.Literal c) s.
Proof.
  unfold behaves, Pyparsing.Literal. destruct s as [|x t]; [reflexivity|].
  destruct (x =? c)%N; [len|reflexivity].
Qed.

Lemma behaves_Regex (r : Re.regex) (s : str) : behaves false (Pyparsing.Regex r) s.
Proof.
  unfold behaves, Pyparsing.Regex.
  destruct (Re.re_match r s) as [t|] eqn:E; [|reflexivity].
  now apply re_match_length in E.
Qed.

Lemma behaves_CharsNotIn1 (cs s : str) : behaves true (Pyparsing.CharsNotIn1 cs) s.
Proof.
  unfold behaves, Pyparsing.CharsNotIn1. destruct s as [|x t]; [reflexivity|].
  destruct (one_of cs x); [reflexivity|len].
Qed.

Lemma behaves_NotAny (b : bool) (p : Pyparsing.parser) (s : str) :
  behaves b p s -> behaves false (Pyparsing.NotAny p) s.
Proof.
  unfold behaves, Pyparsing.NotAny. destruct (p s) as [r|e]; [reflexivity|].
  intros ->. lia.
Qed.

Lemma behaves_skipWhitespace (b : bool) (p : Pyparsing.parser) (s : str) :
  behaves b p (Pyparsing.preParse s) -> behaves b (Pyparsing.skipWhitespace p) s.
Proof.
  unfold behaves, Pyparsing.skipWhitespace. pose proof (preParse_length s).
  destruct (p (Pyparsing.preParse s)); [destruct b; lia|auto].
Qed.

Lemma behaves_And_nil (s : str) : behaves false (Pyparsing.And []) s.
Proof. unfold behaves. simpl. lia. Qed.

Lemma behaves_And_cons (b1 b2 : bool) (p : Pyparsing.parser)
      (ps : list Pyparsing.parser) (s : str) :
  behaves b1 p s ->
  (forall r, length r <= length s -> behaves b2 (Pyparsing.And ps) r) ->
  behaves (b1 || b2) (Pyparsing.And (p :: ps)) s.
Proof.
  unfold behaves. intros Hp Hps. cbn [Pyparsing.And].
  destruct (p s) as [t|e]; cbn [bind]; [|exact Hp].
  assert (Ht : length t <= length s) by (destruct b1; lia).
  specialize (Hps t Ht). destruct (Pyparsing.And ps t); [|exact Hps].
  destruct b1, b2; simpl; lia.
Qed.

Lemma behaves_MatchFirst (b : bool) (ps : list Pyparsing.parser) (s : str) :
  Forall (fun p => behaves b p s) ps -> behaves b (Pyparsing.MatchFirst ps) s.
Proof.
  unfold behaves. induction 1 as [|p ps Hp _ IH]; cbn [Pyparsing.MatchFirst];
    [reflexivity|].
  destruct (p s) as [t|e]; [exact Hp|]. subst e. exact IH.
Qed.

Lemma behaves_many (p : Pyparsing.parser) (n : nat) :
  forall s, (forall s', length s' <= length s -> behaves true p s') ->
            length s < n -> behaves false (Pyparsing.many p n) s.
Proof.
  induction n as [|n IH]; intros s Hp Hn; [lia|].
  unfold behaves. cbn [Pyparsing.many].
  pose proof (Hp s (le_n _)) as H. unfold behaves in H.
  destruct (p s) as [t|e]; [|subst e; lia].
  assert (B : behaves false (Pyparsing.many p n) t).
  { apply IH; [|lia]. intros s' Hs'. apply Hp. lia. }
  unfold behaves in B. destruct (Pyparsing.many p n t); [lia|exact B].
Qed.

(** Above the length of the input the bound of the loop does not
    matter. *)
Lemma many_fuel (p : Pyparsing.parser) (n : nat) :
  forall n' s, (forall s', length s' <= length s -> behaves true p s') ->
               length s < n -> length s < n' ->
               Pyparsing.many p n s = Pyparsing.many p n' s.
Proof.
  induction n as [|n IH]; intros n' s Hp Hn Hn'; [lia|].
  destruct n' as [|n']; [lia|]. cbn [Pyparsing.many].
  pose proof (Hp s (le_n _)) as H. unfold behaves in H.
  destruct (p s) as [t|e]; [|reflexivity].
  apply IH; [|lia|lia]. intros s' Hs'. apply Hp. lia.
Qed.

Lemma behaves_ZeroOrMore (p : Pyparsing.parser) (s : str) :
  (forall s', length s' <= length s -> behaves true p s') ->
  behaves false (Pyparsing.ZeroOrMore p) s.
Proof. intros Hp. unfold Pyparsing.ZeroOrMore. apply behaves_many; [exact Hp|lia]. Qed.

Lemma behaves_OneOrMore (p : Pyparsing.parser) (s : str) :
  (forall s', length s' <= length s -> behaves true p s') ->
  behaves true (Pyparsing.OneOrMore p) s.
Proof.
  intros Hp. unfold behaves, Pyparsing.OneOrMore.
  pose proof (Hp s (le_n _)) as H. unfold behaves in H.
  destruct (p s) as [t|e]; cbn [bind]; [|exact H].
  assert (B : behaves false (Pyparsing.ZeroOrMore p) t).
  { apply behaves_ZeroOrMore. intros s' Hs'. apply Hp. lia. }
  unfold behaves in B. destruct (Pyparsing.ZeroOrMore p t); [lia|exact B].
Qed.

Lemma behaves_quoted_string (s : str) : behaves true Pyparsing.quoted_string s.
Proof.
  apply behaves_MatchFirst. repeat constructor.
  - apply (@behaves_And_cons false true); [apply behaves_Regex|]. intros r _.
    apply (@behaves_And_cons true false); [apply behaves_Literal|].
    intros r' _. apply behaves_And_nil.
  - apply (@behaves_And_cons false true); [apply behaves_Regex|]. intros r _.
    apply (@behaves_And_cons true false); [apply behaves_Literal|].
    intros r' _. apply behaves_And_nil.
Qed.

Lemma behaves_content_char (o c : char) (s : str) :
  behaves true (Pyparsing.And
                  [ Pyparsing.NotAny Pyparsing.quoted_string;
                    Pyparsing.CharsNotIn1 (o :: c :: Pyparsing.DEFAULT_WHITE_CHARS) ]) s.
Proof.
  apply (@behaves_And_cons false true).
  - apply behaves_NotAny with true, behaves_quoted_string.
  - intros r _. apply (@behaves_And_cons true false); [apply behaves_CharsNotIn1|].
    intros r' _. apply behaves_And_nil.
Qed.

Lemma behaves_content (o c : char) (s : str) : behaves true (Pyparsing.content o c) s.
Proof.
  apply behaves_OneOrMore. intros s' _. apply behaves_content_char.
Qed.

Lemma behaves_nested_item (o c : char) (ret : Pyparsing.parser) (s : str) :
  behaves true ret (Pyparsing.preParse s) ->
  behaves true (Pyparsing.nested_item o c ret) s.
Proof.
  intros Hr. apply behaves_MatchFirst. repeat constructor;
    apply behaves_skipWhitespace;
    [apply behaves_quoted_string|exact Hr|apply behaves_content].
Qed.

(** With a depth above the length of the input [nested_expr] matches or
    raises [ParseException]: the bounds are not reached. *)
Lemma behaves_nested_expr (o c : char) (d : nat) :
  forall s, length s < d -> behaves true (Pyparsing.nested_expr o c d) s.
Proof.
  induction d as [|d IH]; intros s Hd; [lia|].
  change (Pyparsing.nested_expr o c (S d))
    with (Pyparsing.And
            [ Pyparsing.skipWhitespace (Pyparsing.Literal o);
              Pyparsing.ZeroOrMore
                (Pyparsing.nested_item o c (Pyparsing.nested_expr o c d));
              Pyparsing.skipWhitespace (Pyparsing.Literal c) ]).
  unfold behaves. cbn [Pyparsing.And].
  pose proof (@behaves_skipWhitespace true (Pyparsing.Literal o) s
                (behaves_Literal o _)) as H1. unfold behaves in H1.
  destruct (Pyparsing.skipWhitespace (Pyparsing.Literal o) s) as [t1|e];
    [|exact H1]. cbn [bind].
  assert (H2 : behaves false
                 (Pyparsing.ZeroOrMore
                    (Pyparsing.nested_item o c (Pyparsing.nested_expr o c d))) t1).
  { apply behaves_ZeroOrMore. intros s' Hs'. apply behaves_nested_item.
    apply IH. pose proof (preParse_length s'). lia. }
  unfold behaves in H2. destruct (Pyparsing.ZeroOrMore _ t1) as [t2|e]; [|exact H2].
  cbn [bind].
  pose proof (@behaves_skipWhitespace true (Pyparsing.Literal c) t2
                (behaves_Literal c _)) as H3. unfold behaves in H3.
  destruct (Pyparsing.skipWhitespace (Pyparsing.Literal c) t2) as [t3|e];
    [|exact H3]. cbn [bind]. lia.
Qed.

(** The scan returns its list of tokens: the bounds are not reached and
    nothing is raised. *)
Lemma scan_from_total (d n : nat) :
  forall s, length s < n -> length s < d ->
    exists l, Pyparsing.scan_from
                (Pyparsing.original_text_for (Pyparsing.nested_expr LBRACE RBRACE d))
                n s = Ok l.
Proof.
  induction n as [|n IH]; intros s Hn Hd; [lia|].
  cbn [Pyparsing.scan_from]. cbv zeta.
  pose proof (preParse_length s) as Hp.
  set (pre := Pyparsing.preParse s) in *.
  assert (Next : exists l, match pre with
                           | [] => Ok []
                           | _ :: t =>
                               Pyparsing.scan_from
                                 (Pyparsing.original_text_for
                                    (Pyparsing.nested_expr LBRACE RBRACE d)) n t
                           end = Ok l).
  { destruct pre as [|x t]; [eauto|]. apply IH; len. }
  unfold Pyparsing.original_text_for at 1.
  pose proof (@behaves_nested_expr LBRACE RBRACE d pre ltac:(lia)) as B.
  unfold behaves in B.
  destruct (Pyparsing.nested_expr LBRACE RBRACE d pre) as [rest|e]; cbn [bind].
  2:{ subst e. exact Next. }
  destruct (length rest <? length s); [|exact Next].
  destruct (IH rest ltac:(lia) ltac:(lia)) as [l ->]. cbn [bind]. eauto.
Qed.

Lemma search_string_total (s : str) :
  exists l,
    Pyparsing.search_string
      (fun depth =>
         Pyparsing.original_text_for (Pyparsing.nested_expr LBRACE RBRACE depth)) s
    = Ok l /\ get_json_candidates s = l.
Proof.
  unfold get_json_candidates, Pyparsing.search_string. cbv zeta.
  destruct (@scan_from_total (S (length (Str.expandtabs s)))
              (S (length (Str.expandtabs s))) (Str.expandtabs s)) as [l E];
    [lia|lia|].
  exists l. now rewrite E.
Qed.

(** * The items between the braces *)

Lemma bind_assoc (A B C : Type) (m : result A) (f : A -> result B) (g : B -> result C) :
  bind (bind m f) g = bind m (fun x => bind (f x) g).
Proof. destruct m; reflexivity. Qed.

Lemma bind_ret (A : Type) (m : result A) : bind m (fun x => Ok x) = m.
Proof. destruct m; reflexivity. Qed.

Lemma nested_expr_loop_end (o c : char) (d : nat) (s : str) :
  Pyparsing.nested_expr o c (S d) s
  = (t <- Pyparsing.Literal o (Pyparsing.preParse s) ;;
     r <- loop_end o c d t ;;
     Pyparsing.Literal c r).
Proof.
  cbn [Pyparsing.nested_expr Pyparsing.And]. unfold loop_end, Pyparsing.skipWhitespace.
  destruct (Pyparsing.Literal o (Pyparsing.preParse s)) as [t|e]; [|reflexivity].
  cbn [bind].
  destruct (Pyparsing.ZeroOrMore _ t) as [t2|e]; [|reflexivity].
  cbn [bind]. apply bind_ret.
Qed.

Lemma w_preParse (s : str) : Json.w s = Pyparsing.preParse s.
Proof.
  induction s as [|c t IH]; [reflexivity|].
  cbn [Json.w Pyparsing.preParse]. rewrite IH.
  replace (one_of Pyparsing.DEFAULT_WHITE_CHARS c) with (one_of [SPACE; TAB; LF; CR] c);
    [reflexivity|].
  unfold one_of, Pyparsing.DEFAULT_WHITE_CHARS. cbn [existsb].
  destruct (c =? SPACE)%N, (c =? TAB)%N, (c =? LF)%N, (c =? CR)%N; reflexivity.
Qed.

Lemma nested_item_preParse (o c : char) (ret : Pyparsing.parser) (s : str) :
  Pyparsing.nested_item o c ret (Pyparsing.preParse s) = Pyparsing.nested_item o c ret s.
Proof.
  unfold Pyparsing.nested_item. cbn [Pyparsing.MatchFirst].
  unfold Pyparsing.skipWhitespace. now rewrite preParse_idem.
Qed.

Section Items.

Variable d : nat.

Local Notation item :=
  (Pyparsing.nested_item LBRACE RBRACE (Pyparsing.nested_expr LBRACE RBRACE d)).
Local Notation loop := (loop_end LBRACE RBRACE d).
Local Notation content_char :=
  (Pyparsing.And
     [ Pyparsing.NotAny Pyparsing.quoted_string;
       Pyparsing.CharsNotIn1 (LBRACE :: RBRACE :: Pyparsing.DEFAULT_WHITE_CHARS) ]).

Lemma behaves_item (s : str) : length s < d -> behaves true item s.
Proof.
  intros H. apply behaves_nested_item, behaves_nested_expr.
  pose proof (preParse_length s). lia.
Qed.

(** One round of the loop. *)
Lemma loop_end_unfold (s : str) :
  length s < d ->
  loop s = match item s with
           | Ok t => loop t
           | Raise ParseException => Ok (Pyparsing.preParse s)
           | Raise e => Raise e
           end.
Proof.
  intros Hd. unfold loop_end, Pyparsing.ZeroOrMore at 1. cbn [Pyparsing.many].
  pose proof (behaves_item s Hd) as B. unfold behaves in B.
  destruct (item s) as [t|e].
  - unfold Pyparsing.ZeroOrMore.
    rewrite (@many_fuel item (length s) (S (length t)) t); [reflexivity| |lia|lia].
    intros s' Hs'. apply behaves_item. lia.
  - subst e. reflexivity.
Qed.

Lemma loop_end_preParse (s : str) :
  length s < d -> loop (Pyparsing.preParse s) = loop s.
Proof.
  intros Hd. pose proof (preParse_length s) as Hp.
  rewrite (@loop_end_unfold s Hd), (@loop_end_unfold (Pyparsing.preParse s)) by lia.
  rewrite nested_item_preParse, preParse_idem. reflexivity.
Qed.

Lemma loop_end_w (s : str) : length s < d -> loop (Json.w s) = loop s.
Proof. rewrite w_preParse. apply loop_end_preParse. Qed.

Lemma quoted_string_no_quote (s : str) :
  starts_in (one_of [DQUOTE; SQUOTE]) s = false ->
  Pyparsing.quoted_string s = Raise ParseException.
Proof.
  intros H. unfold Pyparsing.quoted_string.
  cbn [Pyparsing.MatchFirst Pyparsing.And]. unfold Pyparsing.Regex, Re.re_match.
  unfold Pyparsing.quoted_re. rewrite !matches_cat.
  destruct s as [|x t]; [reflexivity|]. cbn [starts_in] in H.
  rewrite !matches_chr_cons.
  unfold one_of in H. cbn [existsb] in H.
  destruct (x =? DQUOTE)%N; [discriminate|].
  destruct (x =? SQUOTE)%N; [discriminate|]. reflexivity.
Qed.

Lemma nested_expr_no_opener (s : str) :
  0 < d -> starts_in (N.eqb LBRACE) (Pyparsing.preParse s) = false ->
  Pyparsing.nested_expr LBRACE RBRACE d s = Raise ParseException.
Proof.
  intros Hd H. destruct d as [|d']; [lia|].
  rewrite nested_expr_loop_end. unfold Pyparsing.Literal.
  destruct (Pyparsing.preParse s) as [|x t]; [reflexivity|]. cbn [starts_in] in H.
  rewrite N.eqb_sym in H. now rewrite H.
Qed.

Lemma plain_not_white (c : char) :
  plain c = true -> one_of Pyparsing.DEFAULT_WHITE_CHARS c = false.
Proof.
  unfold plain, one_of, Pyparsing.DEFAULT_WHITE_CHARS. cbn [existsb].
  destruct (c =? LBRACE)%N, (c =? RBRACE)%N, (c =? SPACE)%N, (c =? LF)%N,
    (c =? TAB)%N, (c =? CR)%N; simpl; intros H; try discriminate; reflexivity.
Qed.

Lemma plain_not_quote (c : char) :
  plain c = true -> one_of [DQUOTE; SQUOTE] c = false.
Proof.
  unfold plain, one_of. cbn [existsb].
  destruct (c =? DQUOTE)%N, (c =? SQUOTE)%N; simpl; rewrite ?orb_true_r; simpl;
    intros H; try discriminate; reflexivity.
Qed.

Lemma plain_not_stop (c : char) :
  plain c = true ->
  one_of (LBRACE :: RBRACE :: Pyparsing.DEFAULT_WHITE_CHARS) c = false.
Proof.
  unfold plain, one_of, Pyparsing.DEFAULT_WHITE_CHARS. cbn [existsb].
  destruct (c =? LBRACE)%N, (c =? RBRACE)%N, (c =? SPACE)%N, (c =? LF)%N,
    (c =? TAB)%N, (c =? CR)%N; simpl; intros H; try discriminate; reflexivity.
Qed.

Lemma plain_not_opener (c : char) : plain c = true -> (LBRACE =? c)%N = false.
Proof.
  unfold plain, one_of. cbn [existsb]. rewrite (N.eqb_sym LBRACE c).
  destruct (c =? LBRACE)%N; simpl; intros H; [discriminate|reflexivity].
Qed.

(** Where a character of the content stands, the item is the content from
    there on. *)
Lemma item_content_char (x : char) (t t' : str) :
  0 < d -> content_char (x :: t) = Ok t' ->
  t' = t /\ item (x :: t) = Pyparsing.ZeroOrMore content_char t.
Proof.
  intros Hd H0. pose proof H0 as H. cbn [Pyparsing.And] in H.
  unfold Pyparsing.NotAny in H.
  destruct (Pyparsing.quoted_string (x :: t)) as [|e] eqn:Q; [discriminate|].
  destruct e; try discriminate. cbn [bind] in H.
  apply bind_ok in H as (t1 & H1 & H2). injection H2 as <-.
  apply CharsNotIn1_ok in H1 as (x' & E & Hx). injection E as <- <-.
  split; [reflexivity|].
  assert (W : one_of Pyparsing.DEFAULT_WHITE_CHARS x = false).
  { unfold one_of in *. cbn [existsb] in *.
    destruct (x =? LBRACE)%N, (x =? RBRACE)%N; simpl in Hx; try discriminate.
    exact Hx. }
  assert (O : (LBRACE =? x)%N = false).
  { unfold one_of in Hx. cbn [existsb] in Hx. rewrite N.eqb_sym.
    destruct (x =? LBRACE)%N; [discriminate|reflexivity]. }
  assert (C : Pyparsing.content LBRACE RBRACE (x :: t)
              = Pyparsing.ZeroOrMore content_char t).
  { unfold Pyparsing.content, Pyparsing.OneOrMore. now rewrite H0. }
  unfold Pyparsing.nested_item. cbn [Pyparsing.MatchFirst].
  unfold Pyparsing.skipWhitespace. cbn [Pyparsing.preParse]. rewrite W.
  rewrite Q. cbn [try_except exn_eqb].
  rewrite nested_expr_no_opener; [|exact Hd|].
  2:{ cbn [Pyparsing.preParse]. rewrite W. exact O. }
  cbn [try_except exn_eqb]. rewrite C.
  destruct (Pyparsing.ZeroOrMore content_char t) as [|[]]; reflexivity.
Qed.

(** The content runs to the same place from each of its characters. *)
Lemma loop_end_content (n : nat) (t e : str) :
  length t < d -> length t < n ->
  Pyparsing.many content_char n t = Ok e -> loop t = loop e.
Proof.
  intros Hd Hn H. destruct n as [|n]; [lia|]. cbn [Pyparsing.many] in H.
  destruct (content_char t) as [t'|ex] eqn:E.
  2:{ destruct ex; try discriminate. now injection H as <-. }
  destruct t as [|x t0].
  { cbn [Pyparsing.And] in E. unfold Pyparsing.NotAny in E.
    rewrite quoted_string_no_quote in E by reflexivity. discriminate. }
  destruct (@item_content_char x t0 t' ltac:(lia) E) as [-> I].
  rewrite (@loop_end_unfold _ Hd), I. unfold Pyparsing.ZeroOrMore.
  rewrite (@many_fuel content_char (S (length t0)) n t0); [now rewrite H| |lia|len].
  intros s' _. apply behaves_content_char.
Qed.

(** A plain character is passed over. *)
Lemma loop_end_plain (c : char) (t : str) :
  length (c :: t) < d -> plain c = true -> loop (c :: t) = loop t.
Proof.
  intros Hd Hc.
  assert (E : content_char (c :: t) = Ok t).
  { cbn [Pyparsing.And]. unfold Pyparsing.NotAny.
    rewrite quoted_string_no_quote by (cbn [starts_in]; now apply plain_not_quote).
    cbn [bind]. unfold Pyparsing.CharsNotIn1. now rewrite (plain_not_stop _ Hc). }
  destruct (@item_content_char c t t ltac:(lia) E) as [_ I].
  rewrite (@loop_end_unfold _ Hd), I.
  pose proof (@behaves_ZeroOrMore content_char t
                (fun s' _ => behaves_content_char LBRACE RBRACE s')) as B.
  unfold behaves in B.
  destruct (Pyparsing.ZeroOrMore content_char t) as [e|ex] eqn:Z.
  - symmetry. apply (@loop_end_content (S (length t)) t e); [len|lia|exact Z].
  - subst ex. exfalso. unfold Pyparsing.ZeroOrMore in Z.
    clear -Z. revert Z. generalize (S (length t)). intros n. revert t.
    induction n as [|n IH]; intros t Z; [|].
    + discriminate.
    + cbn [Pyparsing.many] in Z.
      destruct (content_char t) as [t'|[]]; try discriminate. eauto.
Qed.

Lemma loop_end_plains (m t : str) :
  length (m ++ t) < d -> forallb plain m = true -> loop (m ++ t) = loop t.
Proof.
  induction m as [|c m IH]; intros Hd Hm; [reflexivity|].
  cbn [forallb] in Hm. apply andb_true_iff in Hm as [Hc Hm].
  cbn [app]. rewrite loop_end_plain by assumption. apply IH; [len|exact Hm].
Qed.

(** A quoted string is passed over. *)
Lemma loop_end_quoted (s t : str) :
  length s < d -> starts_in (N.eqb DQUOTE) s = true ->
  Pyparsing.quoted_string s = Ok t -> loop s = loop t.
Proof.
  intros Hd Hq Q. rewrite (@loop_end_unfold _ Hd).
  unfold Pyparsing.nested_item. cbn [Pyparsing.MatchFirst].
  unfold Pyparsing.skipWhitespace at 1.
  destruct s as [|x s']; [discriminate|]. cbn [starts_in] in Hq.
  apply N.eqb_eq in Hq. subst x.
  change (Pyparsing.preParse (DQUOTE :: s')) with (DQUOTE :: s').
  now rewrite Q.
Qed.

(** A nested expression is passed over. *)
Lemma loop_end_nested (t r : str) :
  length (LBRACE :: t) < d ->
  Pyparsing.nested_expr LBRACE RBRACE d (LBRACE :: t) = Ok r ->
  loop (LBRACE :: t) = loop r.
Proof.
  intros Hd H. rewrite (@loop_end_unfold _ Hd).
  unfold Pyparsing.nested_item. cbn [Pyparsing.MatchFirst].
  unfold Pyparsing.skipWhitespace at 1 2.
  change (Pyparsing.preParse (LBRACE :: t)) with (LBRACE :: t).
  rewrite quoted_string_no_quote by reflexivity. cbn [try_except exn_eqb].
  now rewrite H.
Qed.

(** The loop ends at the closing brace. *)
Lemma loop_end_closer (r : str) :
  length (RBRACE :: r) < d -> loop (RBRACE :: r) = Ok (RBRACE :: r).
Proof.
  intros Hd. rewrite (@loop_end_unfold _ Hd).
  unfold Pyparsing.nested_item. cbn [Pyparsing.MatchFirst].
  unfold Pyparsing.skipWhitespace.
  change (Pyparsing.preParse (RBRACE :: r)) with (RBRACE :: r).
  rewrite quoted_string_no_quote by reflexivity. cbn [try_except exn_eqb].
  rewrite nested_expr_no_opener by (simpl in Hd; try lia; reflexivity).
  cbn [try_except exn_eqb].
  unfold Pyparsing.content, Pyparsing.OneOrMore. cbn [Pyparsing.And].
  unfold Pyparsing.NotAny. rewrite quoted_string_no_quote by reflexivity.
  reflexivity.
Qed.

End Items.

(** * A JSON string is a quoted string *)

Lemma matches_alt (a b : Re.regex) (s : str) :
  Re.matches (Re.Alt a b) s = Re.matches a s ++ Re.matches b s.
Proof. reflexivity. Qed.

Section QuotedBody.

Local Notation body := (Re.matches (Pyparsing.quoted_char DQUOTE)).

(** A character that stands for itself inside double quotes. *)
Local Notation regular c := (negb (one_of [DQUOTE; LF; CR; BSLASH] c)).

Lemma quoted_char_regular (c : char) (t : str) :
  regular c = true -> body (c :: t) = [t].
Proof.
  intros H. unfold Pyparsing.quoted_char.
  rewrite !matches_alt, !matches_cat, matches_cls_cons, !matches_chr_cons, H.
  unfold one_of in H. cbn [existsb] in H.
  destruct (c =? DQUOTE)%N; [discriminate|].
  destruct (c =? LF)%N; [discriminate|]. destruct (c =? CR)%N; [discriminate|].
  destruct (c =? BSLASH)%N; [discriminate|]. reflexivity.
Qed.

Lemma quoted_char_escape (e : char) (t : str) :
  (e =? ord "x")%N = false -> body (BSLASH :: e :: t) = [t].
Proof.
  intros H. unfold Pyparsing.quoted_char.
  rewrite !matches_alt, !matches_cat, matches_cls_cons, !matches_chr_cons.
  change (one_of [DQUOTE; LF; CR; BSLASH] BSLASH) with true.
  change (BSLASH =? DQUOTE)%N with false. change (BSLASH =? BSLASH)%N with true.
  cbn [negb flat_map app].
  rewrite !matches_alt, matches_cat, matches_cls_cons, matches_chr_cons, H.
  reflexivity.
Qed.

Lemma quoted_char_closing (r : str) :
  starts_in (N.eqb DQUOTE) r = false -> body (DQUOTE :: r) = [].
Proof.
  intros H. unfold Pyparsing.quoted_char.
  rewrite !matches_alt, !matches_cat, matches_cls_cons, !matches_chr_cons.
  change (one_of [DQUOTE; LF; CR; BSLASH] DQUOTE) with true.
  change (DQUOTE =? DQUOTE)%N with true. change (DQUOTE =? BSLASH)%N with false.
  cbn [negb flat_map app]. rewrite app_nil_r.
  destruct r as [|x r']; [reflexivity|]. cbn [starts_in] in H.
  rewrite matches_chr_cons, N.eqb_sym, H. reflexivity.
Qed.

Lemma star_from_one (f : str -> list str) (n : nat) (s t : str) :
  f s = [t] -> length t < length s ->
  Re.star_from f (S n) s = Re.star_from f n t ++ [s].
Proof.
  intros E L. cbn [Re.star_from]. rewrite E. cbn [flat_map].
  apply Nat.ltb_lt in L. rewrite L. now rewrite app_nil_r.
Qed.

Lemma star_from_none (f : str -> list str) (n : nat) (s : str) :
  f s = [] -> Re.star_from f n s = [s].
Proof. intros E. destruct n; [reflexivity|]. cbn [Re.star_from]. now rewrite E. Qed.

Lemma hexval_regular (h : char) (v : N) : Json.hexval h = Some v -> regular h = true.
Proof.
  unfold Json.hexval, Re.digit, in_range, one_of. cbn [existsb].
  intros H.
  destruct (N.eqb_spec h DQUOTE) as [->|]; [discriminate|].
  destruct (N.eqb_spec h LF) as [->|]; [discriminate|].
  destruct (N.eqb_spec h CR) as [->|]; [discriminate|].
  destruct (N.eqb_spec h BSLASH) as [->|]; [discriminate|]. reflexivity.
Qed.

Lemma hex4_regular (a b c e : char) (v : N) :
  Json.hex4 a b c e = Some v ->
  regular a = true /\ regular b = true /\ regular c = true /\ regular e = true.
Proof.
  unfold Json.hex4.
  destruct (Json.hexval a) eqn:A; [|discriminate].
  destruct (Json.hexval b) eqn:B; [|discriminate].
  destruct (Json.hexval c) eqn:C; [|discriminate].
  destruct (Json.hexval e) eqn:E; [|discriminate].
  intros _. split; [|split; [|split]]; eapply hexval_regular; eassumption.
Qed.

Lemma BACKSLASH_not_x (esc ch : char) :
  Json.BACKSLASH esc = Some ch -> (esc =? ord "x")%N = false.
Proof.
  unfold Json.BACKSLASH. destruct (N.eqb_spec esc (ord "x")) as [->|]; [|reflexivity].
  discriminate.
Qed.

(** The repetition of [quoted_char] reads a JSON string to its closing
    quote, whatever follows the string, a double quote apart. *)
Lemma star_quoted_char (q : str) :
  forall t x r n,
    Json.scanstring t = Ok (x, r) ->
    starts_in (N.eqb DQUOTE) (r ++ q) = false ->
    length t <= n ->
    exists l, Re.star_from body n (t ++ q) = (DQUOTE :: r ++ q) :: l.
Proof.
  intros t. remember (length t) as k eqn:Hk. revert t Hk.
  induction k as [k IH] using lt_wf_ind. intros t -> x r n H Hr Hn.
  assert (Step : forall (c : char) t' n',
             length t' < length t -> length t' <= n' ->
             ('(r0, rest) <- Json.scanstring t' ;; Ok (c :: r0, rest)) = Ok (x, r) ->
             exists l, Re.star_from body n' (t' ++ q) = (DQUOTE :: r ++ q) :: l).
  { intros c t' n' L1 L2 E. apply bind_ok in E as ([x' r'] & E1 & E2).
    injection E2 as _ <-. exact (IH (length t') L1 t' eq_refl x' r' n' E1 Hr L2). }
  assert (Reg : forall (c : char) s' n' l,
             regular c = true ->
             Re.star_from body n' (s' ++ q) = (DQUOTE :: r ++ q) :: l ->
             exists l', Re.star_from body (S n') ((c :: s') ++ q) = (DQUOTE :: r ++ q) :: l').
  { intros c s' n' l Hc E. cbn [app].
    rewrite (@star_from_one body n' (c :: s' ++ q) (s' ++ q));
      [|now apply quoted_char_regular|len]. rewrite E. cbn [app]. eauto. }
  assert (Esc : forall (e : char) s' n' l,
             (e =? ord "x")%N = false ->
             Re.star_from body n' (s' ++ q) = (DQUOTE :: r ++ q) :: l ->
             exists l', Re.star_from body (S n') ((BSLASH :: e :: s') ++ q)
                        = (DQUOTE :: r ++ q) :: l').
  { intros e s' n' l He E. cbn [app].
    rewrite (@star_from_one body n' (BSLASH :: e :: s' ++ q) (s' ++ q));
      [|now apply quoted_char_escape|len]. rewrite E. cbn [app]. eauto. }
  clear IH.
  destruct t as [|c t]; [discriminate|]. cbn [Json.scanstring] in H.
  destruct (N.eqb_spec c DQUOTE) as [->|Hq].
  { injection H as _ <-. exists []. cbn [app].
    apply star_from_none. now apply quoted_char_closing. }
  destruct (N.eqb_spec c BSLASH) as [->|Hb].
  2:{ destruct (c <? 32)%N eqn:H32; [discriminate|].
      destruct n as [|n]; [len|].
      destruct (Step c t n ltac:(len) ltac:(len) H) as [l E].
      apply (Reg c t n l); [|exact E].
      unfold one_of. cbn [existsb].
      apply N.ltb_ge in H32.
      destruct (N.eqb_spec c DQUOTE); [congruence|].
      destruct (N.eqb_spec c LF) as [->|]; [unfold LF in H32; lia|].
      destruct (N.eqb_spec c CR) as [->|]; [unfold CR in H32; lia|].
      destruct (N.eqb_spec c BSLASH); [congruence|]. reflexivity. }
  destruct t as [|esc t2]; [discriminate|].
  destruct (N.eqb_spec esc (ord "u")) as [->|Hu]; cbn [negb] in H.
  { destruct t2 as [|h1 [|h2 [|h3 [|h4 t6]]]]; try discriminate.
    destruct (Json.hex4 h1 h2 h3 h4) as [uni|] eqn:Hx; [|discriminate].
    apply hex4_regular in Hx as (R1 & R2 & R3 & R4).
    cbv zeta in H.
    assert (Six : forall n6 l,
               Re.star_from body n6 (t6 ++ q) = (DQUOTE :: r ++ q) :: l ->
               exists l', Re.star_from body (S (S (S (S (S n6)))))
                            ((BSLASH :: ord "u" :: h1 :: h2 :: h3 :: h4 :: t6) ++ q)
                          = (DQUOTE :: r ++ q) :: l').
    { intros n6 l E.
      destruct (Reg h4 t6 n6 l R4 E) as [l4 E4].
      destruct (Reg h3 (h4 :: t6) _ l4 R3 E4) as [l3 E3].
      destruct (Reg h2 (h3 :: h4 :: t6) _ l3 R2 E3) as [l2 E2].
      destruct (Reg h1 (h2 :: h3 :: h4 :: t6) _ l2 R1 E2) as [l1 E1].
      exact (Esc (ord "u") (h1 :: h2 :: h3 :: h4 :: t6) _ l1 eq_refl E1). }
    do 5 (destruct n as [|n]; [len|]).
    assert (Single : ('(r0, rest) <- Json.scanstring t6 ;; Ok (uni :: r0, rest)) = Ok (x, r) ->
                     exists l, Re.star_from body (S (S (S (S (S n)))))
                                 ((BSLASH :: ord "u" :: h1 :: h2 :: h3 :: h4 :: t6) ++ q)
                               = (DQUOTE :: r ++ q) :: l).
    { intros E. destruct (Step uni t6 n ltac:(len) ltac:(len) E) as [l E'].
      exact (Six n l E'). }
    destruct (in_range 55296 56319 uni && startswith [BSLASH; ord "u"] t6) eqn:Sg;
      [|exact (Single H)].
    apply andb_true_iff in Sg as [_ Sg]. apply startswith_spec in Sg as [t8 ->].
    destruct t8 as [|g1 [|g2 [|g3 [|g4 t12]]]]; try discriminate.
    cbn [app] in H.
    destruct (Json.hex4 g1 g2 g3 g4) as [uni2|] eqn:Hx2; [|discriminate].
    destruct (in_range 56320 57343 uni2); [|exact (Single H)].
    apply hex4_regular in Hx2 as (G1 & G2 & G3 & G4).
    do 5 (destruct n as [|n]; [len|]).
    destruct (Step _ t12 n ltac:(len) ltac:(len) H) as [l E].
    destruct (Reg g4 t12 n l G4 E) as [l4 E4].
    destruct (Reg g3 (g4 :: t12) _ l4 G3 E4) as [l3 E3].
    destruct (Reg g2 (g3 :: g4 :: t12) _ l3 G2 E3) as [l2 E2].
    destruct (Reg g1 (g2 :: g3 :: g4 :: t12) _ l2 G1 E2) as [l1 E1].
    destruct (Esc (ord "u") (g1 :: g2 :: g3 :: g4 :: t12) _ l1 eq_refl E1) as [l0 E0].
    exact (Six _ l0 E0). }
  destruct (Json.BACKSLASH esc) as [ch|] eqn:Bs; [|discriminate].
  destruct n as [|n]; [len|].
  destruct (Step ch t2 n ltac:(len) ltac:(len) H) as [l E].
  exact (Esc esc t2 n l (BACKSLASH_not_x _ Bs) E).
Qed.

End QuotedBody.

Lemma quoted_string_json (t x r q : str) :
  Json.scanstring t = Ok (x, r) ->
  starts_in (N.eqb DQUOTE) (r ++ q) = false ->
  Pyparsing.quoted_string (DQUOTE :: t ++ q) = Ok (r ++ q).
Proof.
  intros H Hr.
  destruct (@star_quoted_char q t x r (length (t ++ q)) H Hr ltac:(len)) as [l E].
  unfold Pyparsing.quoted_string. cbn [Pyparsing.MatchFirst Pyparsing.And].
  unfold Pyparsing.Regex at 1, Re.re_match, Pyparsing.quoted_re.
  rewrite matches_cat, matches_chr_cons, N.eqb_refl, flat_map_one.
  change (Re.matches (Re.Star (Pyparsing.quoted_char DQUOTE)) (t ++ q))
    with (Re.star_from (Re.matches (Pyparsing.quoted_char DQUOTE)) (length (t ++ q)) (t ++ q)).
  rewrite E. cbn [hd_error bind Pyparsing.Literal]. rewrite N.eqb_refl. reflexivity.
Qed.

(** * Numbers and literals are plain characters *)

Lemma star_from_over (P : char -> bool) (f : str -> list str) (n : nat) :
  (forall s s', In s' (f s) -> exists m, s = m ++ s' /\ forallb P m = true) ->
  forall s s', In s' (Re.star_from f n s) ->
               exists m, s = m ++ s' /\ forallb P m = true.
Proof.
  intros Hf. induction n as [|n IH]; intros s s' H; cbn [Re.star_from] in H.
  - destruct H as [<-|[]]. now exists [].
  - apply in_app_or in H as [H|[<-|[]]]; [|now exists []].
    apply in_flat_map in H as (s1 & H1 & H2).
    destruct (length s1 <? length s); [|destruct H2].
    apply Hf in H1 as (m1 & -> & F1). apply IH in H2 as (m2 & -> & F2).
    exists (m1 ++ m2). rewrite app_assoc, forallb_app, F1, F2. now split.
Qed.

Lemma matches_over (P : char -> bool) (r : Re.regex) :
  over P r ->
  forall s s', In s' (Re.matches r s) -> exists m, s = m ++ s' /\ forallb P m = true.
Proof.
  induction r as [|c|p|a IHa b IHb|a IHa b IHb|a IHa|a IHa]; intros O s s' H;
    cbn [Re.matches over] in *.
  - destruct H as [<-|[]]. now exists [].
  - destruct s as [|x t]; [destruct H|].
    destruct (N.eqb_spec x c) as [->|]; [|destruct H].
    destruct H as [<-|[]]. exists [c]. cbn [forallb]. now rewrite O.
  - destruct s as [|x t]; [destruct H|]. destruct (p x) eqn:E; [|destruct H].
    destruct H as [<-|[]]. exists [x]. cbn [forallb]. now rewrite (O x E).
  - destruct O as [Oa Ob]. apply in_flat_map in H as (s1 & H1 & H2).
    apply (IHa Oa) in H1 as (m1 & -> & F1). apply (IHb Ob) in H2 as (m2 & -> & F2).
    exists (m1 ++ m2). rewrite app_assoc, forallb_app, F1, F2. now split.
  - destruct O as [Oa Ob]. apply in_app_or in H as [H|H]; eauto.
  - eapply star_from_over; eauto.
  - eauto.
Qed.

Lemma re_match_over (P : char -> bool) (r : Re.regex) (s s' : str) :
  over P r -> Re.re_match r s = Some s' ->
  exists m, s = m ++ s' /\ forallb P m = true.
Proof. intros O H. apply re_match_in in H. eapply matches_over; eauto. Qed.

Lemma digit_plain (c : char) : Re.digit c = true -> plain c = true.
Proof.
  unfold Re.digit, in_range, plain, one_of. cbn [existsb]. intros H.
  apply andb_true_iff in H as [H1 H2]. apply N.leb_le in H1, H2.
  unfold LBRACE, RBRACE, SPACE, LF, TAB, CR, DQUOTE, SQUOTE.
  repeat match goal with
         | |- context [(c =? ?k)%N] => destruct (N.eqb_spec c k); [lia|]
         end.
  reflexivity.
Qed.

Lemma over_number :
  over plain (Re.Grp Json.integer_re)
  /\ over plain (Re.Opt (Re.Grp Json.frac_re))
  /\ over plain (Re.Opt (Re.Grp Json.exp_re)).
Proof.
  assert (D19 : forall c, in_range 49 57 c = true -> plain c = true).
  { intros c H. apply digit_plain. unfold Re.digit, in_range in *.
    apply andb_true_iff in H as [H1 H2]. apply N.leb_le in H1, H2.
    apply andb_true_iff. split; apply N.leb_le; lia. }
  assert (E : forall c, one_of [ord "e"; ord "E"] c = true -> plain c = true).
  { intros c H. unfold one_of in H. cbn [existsb] in H.
    apply orb_true_iff in H as [H|H]; [apply N.eqb_eq in H; now subst c|].
    apply orb_true_iff in H as [H|H]; [apply N.eqb_eq in H; now subst c|].
    discriminate. }
  assert (Sg : forall c, one_of [MINUS; PLUS] c = true -> plain c = true).
  { intros c H. unfold one_of in H. cbn [existsb] in H.
    apply orb_true_iff in H as [H|H]; [apply N.eqb_eq in H; now subst c|].
    apply orb_true_iff in H as [H|H]; [apply N.eqb_eq in H; now subst c|].
    discriminate. }
  unfold Json.integer_re, Json.frac_re, Json.exp_re, Re.Opt, Re.Plus.
  cbn [over].
  repeat match goal with
         | |- _ /\ _ => split
         | |- True => exact I
         | |- plain _ = true => reflexivity
         | |- forall c, Re.digit c = true -> _ => exact digit_plain
         | |- forall c, in_range 49 57 c = true -> _ => exact D19
         | |- forall c, one_of [ord "e"; ord "E"] c = true -> _ => exact E
         | |- forall c, one_of [MINUS; PLUS] c = true -> _ => exact Sg
         end.
Qed.

Lemma match_number_plain (s i f e rest : str) :
  Json.match_number s = Some (i, f, e, rest) ->
  exists m, s = m ++ rest /\ forallb plain m = true.
Proof.
  unfold Json.match_number.
  destruct (Re.re_match (Re.Grp Json.integer_re) s) as [r1|] eqn:E1; [|discriminate].
  destruct (Re.re_match (Re.Opt (Re.Grp Json.frac_re)) r1) as [r2|] eqn:E2; [|discriminate].
  destruct (Re.re_match (Re.Opt (Re.Grp Json.exp_re)) r2) as [r3|] eqn:E3; [|discriminate].
  intros H. injection H as _ _ _ <-.
  destruct over_number as (O1 & O2 & O3).
  destruct (@re_match_over plain _ _ _ O1 E1) as (m1 & -> & F1).
  destruct (@re_match_over plain _ _ _ O2 E2) as (m2 & -> & F2).
  destruct (@re_match_over plain _ _ _ O3 E3) as (m3 & -> & F3).
  exists (m1 ++ m2 ++ m3). rewrite !forallb_app, F1, F2, F3. split; [list_assoc|reflexivity].
Qed.

Lemma startswith_plain (p s : str) :
  startswith p s = true -> forallb plain p = true ->
  exists m, s = m ++ skipn (length p) s /\ forallb plain m = true.
Proof.
  intros (t & ->)%startswith_spec F. exists p. split; [|exact F].
  rewrite skipn_app, skipn_all, Nat.sub_diag. reflexivity.
Qed.

(** * What the decoder reads, the items between the braces pass over *)

Lemma w_app (s q : str) (c : char) (t : str) :
  Json.w s = c :: t -> Json.w (s ++ q) = c :: t ++ q.
Proof.
  induction s as [|x s IH]; [discriminate|]. cbn [Json.w app].
  destruct (one_of [SPACE; TAB; LF; CR] x); [exact IH|]. now intros [= -> ->].
Qed.

Lemma w_head (s q : str) (c : char) (t : str) :
  Json.w s = c :: t -> (DQUOTE =? c)%N = false ->
  starts_in (N.eqb DQUOTE) (s ++ q) = false.
Proof.
  destruct s as [|x s]; [discriminate|]. cbn [Json.w app starts_in].
  destruct (one_of [SPACE; TAB; LF; CR] x) eqn:W.
  - intros _ _. unfold one_of in W. cbn [existsb] in W.
    destruct (N.eqb_spec DQUOTE x) as [<-|]; [discriminate|reflexivity].
  - now intros [= -> _].
Qed.

Lemma w_nil (s : str) : Json.w s = [] -> forallb (one_of [SPACE; TAB; LF; CR]) s = true.
Proof.
  induction s as [|x s IH]; [reflexivity|]. cbn [Json.w forallb].
  destruct (one_of [SPACE; TAB; LF; CR] x); [exact IH|discriminate].
Qed.

Lemma try_stop_ok (f : str -> result (pyval * str)) (s : str) (a : pyval * str) :
  try_except (f s) StopIteration (fun _ => Raise ValueError) = Ok a -> f s = Ok a.
Proof. intros [H|[_ H]]%try_except_ok; [exact H|discriminate]. Qed.

Lemma scans_ok (f : str -> result (pyval * str)) (s : str) (v : pyval) (r : str) :
  scans f s -> f s = Ok (v, r) -> length r < length s.
Proof. unfold scans. intros H E. now rewrite E in H. Qed.

Lemma scanstring_ok (s x r : str) : Json.scanstring s = Ok (x, r) -> length r < length s.
Proof. intros H. pose proof (scanstring_sound s) as S. now rewrite H in S. Qed.

Section Walk.

Variable q : str.
Variable scan_once : str -> result (pyval * str).
Variable d L : nat.

Local Notation loop := (loop_end LBRACE RBRACE d).

Hypothesis scan_ok : forall s, length s <= L -> scans scan_once s.
Hypothesis scan_walk :
  forall s v r,
    scan_once s = Ok (v, r) -> length s <= L -> length (s ++ q) < d ->
    starts_in (N.eqb DQUOTE) (r ++ q) = false ->
    loop (s ++ q) = loop (r ++ q).

Lemma loop_end_w_app (s : str) (c : char) (t : str) :
  Json.w s = c :: t -> length (s ++ q) < d -> loop (s ++ q) = loop (c :: t ++ q).
Proof.
  intros W Hd. rewrite <- (@loop_end_w d (s ++ q) Hd). now rewrite (@w_app s q c t W).
Qed.

Lemma JSONObject_loop_walk (n : nat) :
  forall s pairs v r,
    Json.JSONObject_loop scan_once n s pairs = Ok (v, r) ->
    length s <= L -> length (DQUOTE :: s ++ q) < d ->
    loop (DQUOTE :: s ++ q) = Ok (RBRACE :: r ++ q).
Proof.
  induction n as [|n IH]; intros s pairs v r H HL Hd; [discriminate|].
  cbn [Json.JSONObject_loop] in H.
  apply bind_ok in H as ([key s1] & K & H).
  pose proof (@scanstring_ok s key s1 K) as L1.
  destruct (Json.w s1) as [|c s2] eqn:W1; [discriminate|].
  pose proof (@w_cons s1 c s2 W1) as L2.
  destruct (N.eqb_spec c COLON) as [->|]; [|discriminate]. cbn [negb] in H.
  apply bind_ok in H as ([value s3] & V & H). apply try_stop_ok in V.
  pose proof (w_length s2) as L3.
  pose proof (@scans_ok scan_once (Json.w s2) value s3
                (scan_ok (Json.w s2) ltac:(lia)) V) as L4.
  cbv zeta in H.
  destruct (Json.w s3) as [|nextchar s4] eqn:W3; [discriminate|].
  pose proof (@w_cons s3 nextchar s4 W3) as L5.
  assert (Q1 : starts_in (N.eqb DQUOTE) (s1 ++ q) = false)
    by (apply (@w_head s1 q COLON s2 W1); reflexivity).
  assert (Q3 : starts_in (N.eqb DQUOTE) (s3 ++ q) = false).
  { destruct (N.eqb_spec nextchar RBRACE) as [->|];
      [apply (@w_head s3 q RBRACE s4 W3); reflexivity|].
    destruct (N.eqb_spec nextchar COMMA) as [->|]; [|discriminate].
    apply (@w_head s3 q COMMA s4 W3); reflexivity. }
  assert (E1 : loop (DQUOTE :: s ++ q) = loop (s3 ++ q)).
  { rewrite (@loop_end_quoted d (DQUOTE :: s ++ q) (s1 ++ q) Hd eq_refl
               (@quoted_string_json s key s1 q K Q1)).
    rewrite (@loop_end_w_app s1 COLON s2 W1) by len.
    rewrite (@loop_end_plain d COLON (s2 ++ q)) by (try reflexivity; len).
    destruct (Json.w s2) as [|c2 s2'] eqn:W2.
    { pose proof (scan_ok [] ltac:(len)) as S0. unfold scans in S0.
      rewrite V in S0. len. }
    rewrite (@loop_end_w_app s2 c2 s2' W2) by len.
    change (c2 :: s2' ++ q) with ((c2 :: s2') ++ q).
    apply (@scan_walk (c2 :: s2') value s3 V); [len|len|exact Q3]. }
  rewrite E1, (@loop_end_w_app s3 nextchar s4 W3) by len.
  destruct (N.eqb_spec nextchar RBRACE) as [->|].
  { injection H as _ <-. apply loop_end_closer. len. }
  destruct (N.eqb_spec nextchar COMMA) as [->|]; [|discriminate]. cbn [negb] in H.
  destruct (Json.w s4) as [|c5 s5] eqn:W4; [discriminate|].
  pose proof (@w_cons s4 c5 s5 W4) as L6.
  destruct (N.eqb_spec c5 DQUOTE) as [->|]; [|discriminate].
  rewrite (@loop_end_plain d COMMA (s4 ++ q)) by (try reflexivity; len).
  rewrite (@loop_end_w_app s4 DQUOTE s5 W4) by len.
  apply (IH s5 _ v r H); len.
Qed.

Lemma JSONObject_walk (s : str) (v : pyval) (r : str) :
  Json.JSONObject scan_once s = Ok (v, r) ->
  length s <= L -> length (s ++ q) < d ->
  loop (s ++ q) = Ok (RBRACE :: r ++ q).
Proof.
  intros H HL Hd. unfold Json.JSONObject in H.
  destruct (Json.w s) as [|nextchar t] eqn:W; [discriminate|].
  pose proof (@w_cons s nextchar t W) as L1.
  rewrite (@loop_end_w_app s nextchar t W) by len.
  destruct (N.eqb_spec nextchar DQUOTE) as [->|].
  - apply (@JSONObject_loop_walk (S (length t)) t [] v r H); len.
  - destruct (N.eqb_spec nextchar RBRACE) as [->|]; [|discriminate].
    injection H as _ <-. apply loop_end_closer. len.
Qed.

Lemma JSONArray_loop_walk (n : nat) :
  forall s values v r,
    Json.JSONArray_loop scan_once n s values = Ok (v, r) ->
    length s <= L -> length (s ++ q) < d ->
    loop (s ++ q) = loop (r ++ q).
Proof.
  induction n as [|n IH]; intros s values v r H HL Hd; [discriminate|].
  cbn [Json.JSONArray_loop] in H.
  apply bind_ok in H as ([value s1] & V & H). apply try_stop_ok in V.
  pose proof (@scans_ok scan_once s value s1 (scan_ok s HL) V) as L1.
  cbv zeta in H.
  destruct (Json.w s1) as [|nextchar s2] eqn:W1; [discriminate|].
  pose proof (@w_cons s1 nextchar s2 W1) as L2.
  assert (Q1 : starts_in (N.eqb DQUOTE) (s1 ++ q) = false).
  { destruct (N.eqb_spec nextchar RBRACKET) as [->|];
      [apply (@w_head s1 q RBRACKET s2 W1); reflexivity|].
    destruct (N.eqb_spec nextchar COMMA) as [->|]; [|discriminate].
    apply (@w_head s1 q COMMA s2 W1); reflexivity. }
  rewrite (@scan_walk s value s1 V HL Hd Q1).
  rewrite (@loop_end_w_app s1 nextchar s2 W1) by len.
  destruct (N.eqb_spec nextchar RBRACKET) as [->|].
  { injection H as _ <-. apply loop_end_plain; [len|reflexivity]. }
  destruct (N.eqb_spec nextchar COMMA) as [->|]; [|discriminate]. cbn [negb] in H.
  rewrite (@loop_end_plain d COMMA (s2 ++ q)) by (try reflexivity; len).
  pose proof (w_length s2) as L3.
  destruct (Json.w s2) as [|c3 s3] eqn:W2.
  { destruct n as [|n]; [discriminate|]. cbn [Json.JSONArray_loop] in H.
    pose proof (scan_ok [] ltac:(len)) as S0. unfold scans in S0.
    destruct (scan_once []) as [[v0 r0]|e]; [len|].
    destruct S0 as [-> | ->]; discriminate. }
  rewrite (@loop_end_w_app s2 c3 s3 W2) by len.
  change (c3 :: s3 ++ q) with ((c3 :: s3) ++ q).
  apply (IH (c3 :: s3) _ v r H); len.
Qed.

Lemma JSONArray_walk (s : str) (v : pyval) (r : str) :
  Json.JSONArray scan_once s = Ok (v, r) ->
  length s <= L -> length (LBRACKET :: s ++ q) < d ->
  loop (LBRACKET :: s ++ q) = loop (r ++ q).
Proof.
  intros H HL Hd.
  rewrite (@loop_end_plain d LBRACKET (s ++ q)) by (try reflexivity; len).
  unfold Json.JSONArray in H. pose proof (w_length s) as L0.
  assert (Loop : Json.JSONArray_loop scan_once (S (length s)) (Json.w s) [] = Ok (v, r) ->
                 loop (s ++ q) = loop (r ++ q)).
  { intros H'. destruct (Json.w s) as [|c t] eqn:W.
    - cbn [Json.JSONArray_loop] in H'.
      pose proof (scan_ok [] ltac:(len)) as S0. unfold scans in S0.
      destruct (scan_once []) as [[v0 r0]|e]; [len|].
      destruct S0 as [-> | ->]; discriminate.
    - rewrite (@loop_end_w_app s c t W) by len.
      change (c :: t ++ q) with ((c :: t) ++ q).
      apply (@JSONArray_loop_walk (S (length s)) (c :: t) [] v r H'); len. }
  destruct (Json.w s) as [|nextchar t] eqn:W; [exact (Loop H)|].
  pose proof (@w_cons s nextchar t W) as L1.
  destruct (N.eqb_spec nextchar RBRACKET) as [->|]; [|exact (Loop H)].
  injection H as _ <-.
  rewrite (@loop_end_w_app s RBRACKET t W) by len.
  apply loop_end_plain; [len|reflexivity].
Qed.

End Walk.

Lemma nested_expr_braces (d : nat) (t r : str) :
  loop_end LBRACE RBRACE d t = Ok (RBRACE :: r) ->
  Pyparsing.nested_expr LBRACE RBRACE (S d) (LBRACE :: t) = Ok r.
Proof.
  intros H. rewrite nested_expr_loop_end.
  change (Pyparsing.preParse (LBRACE :: t)) with (LBRACE :: t).
  unfold Pyparsing.Literal at 1. rewrite N.eqb_refl. cbn [bind]. rewrite H.
  cbn [bind]. unfold Pyparsing.Literal. now rewrite N.eqb_refl.
Qed.

(** The items between the braces pass over every value the decoder
    reads, whatever text follows it. *)
Lemma scan_once_walk (q : str) (n : nat) :
  forall d s v r,
    Json.scan_once n s = Ok (v, r) ->
    length s < n -> length (s ++ q) < d ->
    starts_in (N.eqb DQUOTE) (r ++ q) = false ->
    loop_end LBRACE RBRACE d (s ++ q) = loop_end LBRACE RBRACE d (r ++ q).
Proof.
  induction n as [|n IH]; intros d s v r H Hn Hd Hq; [lia|].
  cbn [Json.scan_once] in H.
  destruct s as [|nextchar t]; [discriminate|].
  assert (OK : forall s', length s' <= length t -> scans (Json.scan_once n) s').
  { intros s' Hs'. apply scan_once_sound. len. }
  assert (Plain : forall m rest,
             nextchar :: t = m ++ rest -> forallb plain m = true ->
             loop_end LBRACE RBRACE d ((nextchar :: t) ++ q)
             = loop_end LBRACE RBRACE d (rest ++ q)).
  { intros m rest E F. rewrite E, <- app_assoc.
    apply loop_end_plains; [|exact F]. rewrite app_assoc, <- E. exact Hd. }
  assert (Lit : forall p, startswith p (nextchar :: t) = true -> forallb plain p = true ->
                          loop_end LBRACE RBRACE d ((nextchar :: t) ++ q)
                          = loop_end LBRACE RBRACE d (skipn (length p) (nextchar :: t) ++ q)).
  { intros p Hp F. destruct (@startswith_plain p (nextchar :: t) Hp F) as (m & E & Fm).
    exact (Plain m _ E Fm). }
  destruct (N.eqb_spec nextchar DQUOTE) as [->|].
  { apply bind_ok in H as ([x rest] & K & H). injection H as _ <-.
    apply loop_end_quoted; [exact Hd|reflexivity|].
    exact (@quoted_string_json t x rest q K Hq). }
  destruct (N.eqb_spec nextchar LBRACE) as [->|].
  { destruct d as [|d]; [len|].
    apply loop_end_nested; [exact Hd|].
    apply nested_expr_braces.
    exact (@JSONObject_walk q (Json.scan_once n) d (length t) OK
             (fun s0 v0 r0 E0 L0 => @IH d s0 v0 r0 E0 ltac:(len)) t v r H (le_n _)
             ltac:(len)). }
  destruct (N.eqb_spec nextchar LBRACKET) as [->|].
  { exact (@JSONArray_walk q (Json.scan_once n) d (length t) OK
             (fun s0 v0 r0 E0 L0 => @IH d s0 v0 r0 E0 ltac:(len)) t v r H (le_n _) Hd). }
  destruct (startswith (py "null") (nextchar :: t)) eqn:E1.
  { injection H as _ <-. apply (Lit (py "null") E1 eq_refl). }
  destruct (startswith (py "true") (nextchar :: t)) eqn:E2.
  { injection H as _ <-. apply (Lit (py "true") E2 eq_refl). }
  destruct (startswith (py "false") (nextchar :: t)) eqn:E3.
  { injection H as _ <-. apply (Lit (py "false") E3 eq_refl). }
  destruct (Json.match_number (nextchar :: t)) as [[[[i f] e] rest]|] eqn:E4.
  { apply match_number_plain in E4 as (m & E & F).
    assert (r = rest) by (destruct f, e; now injection H as _ <-). subst rest.
    exact (Plain m r E F). }
  destruct (startswith (py "NaN") (nextchar :: t)) eqn:E5.
  { injection H as _ <-. apply (Lit (py "NaN") E5 eq_refl). }
  destruct (startswith (py "Infinity") (nextchar :: t)) eqn:E6.
  { injection H as _ <-. apply (Lit (py "Infinity") E6 eq_refl). }
  destruct (startswith (py "-Infinity") (nextchar :: t)) eqn:E7.
  { injection H as _ <-. apply (Lit (py "-Infinity") E7 eq_refl). }
  discriminate.
Qed.

(** * A JSON object in the text is a span of the scanner *)

Lemma closing_last (m m' rest : str) :
  m ++ [RBRACE] = m' ++ RBRACE :: rest ->
  forallb (one_of [SPACE; TAB; LF; CR]) rest = true -> rest = [].
Proof.
  intros E F. destruct rest as [|x rest'] eqn:R; [reflexivity|]. exfalso.
  destruct (@exists_last _ (x :: rest') ltac:(discriminate)) as (l & a & El).
  rewrite El in E, F.
  replace (m' ++ RBRACE :: l ++ [a]) with ((m' ++ RBRACE :: l) ++ [a]) in E
    by list_assoc.
  apply app_inj_tail in E as [_ <-].
  rewrite forallb_app in F. apply andb_true_iff in F as [_ F]. discriminate.
Qed.

(** A text from an opening brace to a closing brace that [json.loads]
    accepts is one nested expression, whatever follows it. *)
Lemma loads_nested_expr (m q : str) (v : pyval) (d : nat) :
  Json.loads (LBRACE :: m ++ [RBRACE]) = Ok v ->
  length ((LBRACE :: m ++ [RBRACE]) ++ q) < d ->
  Pyparsing.nested_expr LBRACE RBRACE d ((LBRACE :: m ++ [RBRACE]) ++ q) = Ok q.
Proof.
  intros H Hd. set (t := m ++ [RBRACE]) in *.
  unfold Json.loads, Json.loads_within in H. change (startswith [65279%N] (LBRACE :: t)) with false in H.
  cbv iota in H. unfold Json.decode, Json.raw_decode in H.
  change (Json.w (LBRACE :: t)) with (LBRACE :: t) in H.
  apply bind_ok in H as ([obj rest] & Sc & H). apply try_stop_ok in Sc.
  destruct (Json.w rest) eqn:W; [|discriminate]. apply w_nil in W.
  cbn [Json.scan_once] in Sc.
  change (LBRACE =? DQUOTE)%N with false in Sc.
  change (LBRACE =? LBRACE)%N with true in Sc. cbv iota in Sc.
  destruct d as [|d]; [len|].
  assert (OK : forall s', length s' <= length t ->
                          scans (Json.scan_once (length (LBRACE :: t))) s').
  { intros s' Hs'. apply scan_once_sound. len. }
  pose proof (@JSONObject_walk q (Json.scan_once (length (LBRACE :: t))) d (length t) OK
                (fun s0 v0 r0 E0 L0 =>
                   @scan_once_walk q (length (LBRACE :: t)) d s0 v0 r0 E0 ltac:(len))
                t obj rest Sc (le_n _) ltac:(len)) as Wk.
  apply nested_expr_braces in Wk.
  pose proof Wk as Sh. apply nested_expr_shape in Sh as (m' & Sh).
  change (Pyparsing.preParse (LBRACE :: t ++ q)) with (LBRACE :: t ++ q) in Sh.
  injection Sh as Sh.
  replace (m' ++ RBRACE :: rest ++ q) with ((m' ++ RBRACE :: rest) ++ q) in Sh
    by list_assoc.
  apply app_inv_tail in Sh. unfold t in Sh.
  rewrite (@closing_last m m' rest Sh W) in Wk. exact Wk.
Qed.

Lemma expandtabs_from_prefix (a b : str) :
  ~ In TAB a ->
  forall col, exists col', Str.expandtabs_from col (a ++ b) = a ++ Str.expandtabs_from col' b.
Proof.
  induction a as [|c a IH]; intros Ha col; [now exists col|].
  cbn [app Str.expandtabs_from].
  destruct (N.eqb_spec c TAB) as [->|]; [exfalso; apply Ha; now left|].
  destruct (IH (fun H => Ha (or_intror H))
               (if (c =? LF)%N || (c =? CR)%N then 0 else S col)) as [col' ->].
  now exists col'.
Qed.

Section Prose.

Variable d : nat.

Local Notation expr :=
  (Pyparsing.original_text_for (Pyparsing.nested_expr LBRACE RBRACE d)).

(** Whitespace before the location changes nothing. *)
Lemma scan_from_white (n : nat) (c : char) (s : str) :
  one_of Pyparsing.DEFAULT_WHITE_CHARS c = true -> length s < d ->
  Pyparsing.scan_from expr (S n) (c :: s) = Pyparsing.scan_from expr (S n) s.
Proof.
  intros Hc Hd. cbn [Pyparsing.scan_from Pyparsing.preParse]. rewrite Hc. cbv zeta.
  pose proof (preParse_length s) as Hp.
  destruct (expr (Pyparsing.preParse s)) as [[tok rest]|e] eqn:E; [|reflexivity].
  unfold Pyparsing.original_text_for in E. apply bind_ok in E as (r0 & N & E).
  injection E as _ <-.
  pose proof (@behaves_nested_expr LBRACE RBRACE d (Pyparsing.preParse s) ltac:(lia)) as B.
  unfold behaves in B. rewrite N in B.
  destruct (Nat.ltb_spec (length r0) (length (c :: s))); [|len].
  destruct (Nat.ltb_spec (length r0) (length s)); [reflexivity|lia].
Qed.

(** Before the first opening brace nothing is found; the span that starts
    there is a token of the scan. *)
Lemma scan_from_prose (p1 : str) :
  forall n x rest l,
    ~ In LBRACE p1 -> length (p1 ++ LBRACE :: x) < d ->
    Pyparsing.nested_expr LBRACE RBRACE d (LBRACE :: x) = Ok rest ->
    Pyparsing.scan_from expr n (p1 ++ LBRACE :: x) = Ok l ->
    In (firstn (length (LBRACE :: x) - length rest) (LBRACE :: x)) l.
Proof.
  induction p1 as [|c p1 IH]; intros n x rest l Hp Hd N H.
  - destruct n as [|n]; [discriminate|]. cbn [app] in H.
    cbn [Pyparsing.scan_from] in H. cbv zeta in H.
    change (Pyparsing.preParse (LBRACE :: x)) with (LBRACE :: x) in H.
    unfold Pyparsing.original_text_for at 1 in H. rewrite N in H. cbn [bind] in H.
    pose proof (@behaves_nested_expr LBRACE RBRACE d (LBRACE :: x) Hd) as B.
    unfold behaves in B. rewrite N in B.
    apply Nat.ltb_lt in B. rewrite B in H.
    apply bind_ok in H as (r & _ & H). injection H as <-. now left.
  - destruct n as [|n]; [discriminate|]. cbn [app] in H, Hd.
    assert (Hp' : ~ In LBRACE p1) by (intros I; apply Hp; now right).
    destruct (one_of Pyparsing.DEFAULT_WHITE_CHARS c) eqn:W.
    + rewrite scan_from_white in H by (try exact W; len).
      exact (IH (S n) x rest l Hp' ltac:(len) N H).
    + cbn [Pyparsing.scan_from] in H. cbv zeta in H.
      cbn [Pyparsing.preParse] in H. rewrite W in H.
      unfold Pyparsing.original_text_for at 1 in H.
      rewrite nested_expr_no_opener in H.
      * cbn [bind] in H. exact (IH n x rest l Hp' ltac:(len) N H).
      * lia.
      * cbn [Pyparsing.preParse]. rewrite W. cbn [starts_in].
        destruct (N.eqb_spec LBRACE c) as [<-|]; [|reflexivity].
        exfalso. apply Hp. now left.
Qed.

End Prose.

(** The scanner finds a JSON object that stands after a prose without
    opening brace. *)
Lemma get_json_candidates_object (m p1 p2 : str) (v : pyval) :
  Json.loads (LBRACE :: m ++ [RBRACE]) = Ok v ->
  ~ In TAB (p1 ++ LBRACE :: m ++ [RBRACE]) -> ~ In LBRACE p1 ->
  In (LBRACE :: m ++ [RBRACE])
     (get_json_candidates (p1 ++ (LBRACE :: m ++ [RBRACE]) ++ p2)).
Proof.
  intros V Ht Hb.
  destruct (search_string_total (p1 ++ (LBRACE :: m ++ [RBRACE]) ++ p2)) as (l & E & ->).
  unfold Pyparsing.search_string in E. cbv zeta in E.
  unfold Str.expandtabs in E.
  destruct (@expandtabs_from_prefix (p1 ++ LBRACE :: m ++ [RBRACE]) p2 Ht 0) as [col Ex].
  rewrite <- app_assoc in Ex. rewrite Ex in E. clear Ex.
  remember (Str.expandtabs_from col p2) as q eqn:Hq. clear Hq.
  rewrite <- app_assoc in E.
  remember (S (length (p1 ++ (LBRACE :: m ++ [RBRACE]) ++ q))) as d eqn:Hd.
  assert (N : Pyparsing.nested_expr LBRACE RBRACE d ((LBRACE :: m ++ [RBRACE]) ++ q)
              = Ok q).
  { apply loads_nested_expr with v; [exact V|]. subst d. len. }
  pose proof (@scan_from_prose d p1 d ((m ++ [RBRACE]) ++ q) q l Hb) as P.
  change (LBRACE :: (m ++ [RBRACE]) ++ q) with ((LBRACE :: m ++ [RBRACE]) ++ q) in P.
  specialize (P ltac:(subst d; lia) N E).
  now rewrite firstn_prefix in P.
Qed.

(** * The spans come in the order of the text *)

Lemma laid_out_app (p s : str) (l : list str) : laid_out s l -> laid_out (p ++ s) l.
Proof.
  intros H. destruct H as [s|p' c rest l H]; [constructor|].
  rewrite app_assoc. now constructor.
Qed.

Lemma scan_from_laid_out (d n : nat) :
  forall s l,
    Pyparsing.scan_from
      (Pyparsing.original_text_for (Pyparsing.nested_expr LBRACE RBRACE d)) n s = Ok l ->
    laid_out s l.
Proof.
  induction n as [|n IH]; intros s l H; [discriminate|].
  cbn [Pyparsing.scan_from] in H. cbv zeta in H.
  destruct (preParse_suffix s) as (ws & Es & _).
  set (pre := Pyparsing.preParse s) in *.
  assert (Next : match pre with
                 | [] => Ok []
                 | _ :: t =>
                     Pyparsing.scan_from
                       (Pyparsing.original_text_for
                          (Pyparsing.nested_expr LBRACE RBRACE d)) n t
                 end = Ok l -> laid_out s l).
  { intros HN. destruct pre as [|x t].
    - injection HN as <-. constructor.
    - rewrite Es. change (x :: t) with ([x] ++ t). rewrite app_assoc.
      apply laid_out_app. now apply IH. }
  unfold Pyparsing.original_text_for in H at 1.
  destruct (Pyparsing.nested_expr LBRACE RBRACE d pre) as [rest|e] eqn:E; cbn [bind] in H.
  2:{ destruct e; try discriminate. now apply Next. }
  destruct (length rest <? length s); [|now apply Next].
  apply bind_ok in H as (r & H1 & H2). injection H2 as <-.
  pose proof E as Sh. apply nested_expr_shape in Sh as (m & Sh).
  unfold pre in Sh. rewrite preParse_idem in Sh. fold pre in Sh.
  assert (T : pre = firstn (length pre - length rest) pre ++ rest).
  { rewrite Sh at 1 2 3. replace (LBRACE :: m ++ RBRACE :: rest)
      with ((LBRACE :: m ++ [RBRACE]) ++ rest) by list_assoc.
    now rewrite firstn_prefix. }
  remember (firstn (length pre - length rest) pre) as tok eqn:Ht. clear Ht.
  rewrite Es, T. constructor. now apply IH.
Qed.

Lemma get_json_candidates_laid_out (s : str) :
  laid_out (Str.expandtabs s) (get_json_candidates s).
Proof.
  destruct (search_string_total s) as (l & E & ->).
  unfold Pyparsing.search_string in E. cbv zeta in E.
  exact (@scan_from_laid_out _ _ _ l E).
Qed.

(** * Facts about [flatten] *)

Lemma flatten_cons_item (A : Type) (a : A) (l : list (nested A)) :
  flatten (Item a :: l) = a :: flatten l.
Proof. reflexivity. Qed.

Lemma flatten_cons_nest (A : Type) (l' l : list (nested A)) :
  flatten (Nest l' :: l) = flatten l' ++ flatten l.
Proof. reflexivity. Qed.

Lemma flatten_app (A : Type) (a b : list (nested A)) :
  flatten (a ++ b) = flatten a ++ flatten b.
Proof. apply flat_map_app. Qed.

(** * Where the repairer rewrites *)

Lemma lstrip_span (p : char -> bool) (s : str) :
  exists a, s = a ++ lstrip p s /\ forallb p a = true
            /\ starts_in p (lstrip p s) = false.
Proof.
  induction s as [|c t (a & E & Ha & Hr)].
  - now exists [].
  - simpl. destruct (p c) eqn:Ec.
    + exists (c :: a). simpl. rewrite Ec. repeat split; [congruence|exact Ha|exact Hr].
    + exists []. simpl. now rewrite Ec.
Qed.

Lemma lstrip_app (p : char -> bool) (a r : str) :
  forallb p a = true -> starts_in p r = false -> lstrip p (a ++ r) = r.
Proof.
  intros Ha Hr. induction a as [|c a IH]; simpl in *.
  - destruct r as [|x r]; [reflexivity|]. simpl in *. now rewrite Hr.
  - apply andb_true_iff in Ha as [-> Ha]. auto.
Qed.

Lemma bareword_span (r : str) :
  starts_in bareword_start r = true ->
  exists w q, r = w ++ q /\ is_bareword w = true /\ starts_in bareword_char q = false.
Proof.
  destruct r as [|h t]; [discriminate|]. simpl. intros Hh.
  destruct (lstrip_span bareword_char t) as (a & E & Ha & Hq).
  exists (h :: a), (lstrip bareword_char t). simpl. rewrite Hh, Ha.
  repeat split; [congruence|exact Hq].
Qed.

(** The pattern matches exactly at a colon that optional whitespace and a
    bareword follow; the match is the colon, the whitespace and the whole
    bareword. *)
Lemma undefined_re_cases (s : str) :
  (bareword_value s = false /\ Re.re_match undefined_re s = None)
  \/ (bareword_value s = true
      /\ exists ws w q, s = COLON :: ws ++ w ++ q
                        /\ forallb Re.space ws = true /\ is_bareword w = true
                        /\ starts_in bareword_char q = false
                        /\ Re.re_match undefined_re s = Some q).
Proof.
  destruct s as [|c t]; [now left|].
  cbn [bareword_value].
  destruct (N.eqb_spec c COLON) as [->|Hc].
  - destruct (lstrip_span Re.space t) as (ws & E & Hws & Hr).
    cbn [andb].
    destruct (starts_in bareword_start (lstrip Re.space t)) eqn:Hb.
    + right. split; [reflexivity|].
      destruct (bareword_span _ Hb) as (w & q & Er & Hw & Hq).
      exists ws, w, q. rewrite <- Er, <- E.
      repeat split; try assumption.
      rewrite E, Er. now apply undefined_re_hit.
    + left. split; [reflexivity|]. rewrite E. now apply undefined_re_miss.
  - left. split; [reflexivity|]. apply undefined_re_no_colon.
    cbn [starts_in]. apply N.eqb_neq. congruence.
Qed.

Section Repair.

Variable ph : str.

Lemma replace_undefined_nil : replace_undefined [] ph = [].
Proof. reflexivity. Qed.

Lemma replace_undefined_miss (c : char) (t : str) :
  bareword_value (c :: t) = false ->
  replace_undefined (c :: t) ph = c :: replace_undefined t ph.
Proof.
  intros H. destruct (undefined_re_cases (c :: t)) as [[_ E]|[E _]]; [|congruence].
  unfold replace_undefined. now apply sub_miss.
Qed.

Lemma replace_undefined_hit (ws w q : str) :
  forallb Re.space ws = true -> is_bareword w = true ->
  starts_in bareword_char q = false ->
  replace_undefined (COLON :: ws ++ w ++ q) ph
  = py ": " ++ ph ++ replace_undefined q ph.
Proof.
  intros Hws Hw Hq.
  exact (@replace_undefined_token ph [] ws w q Hws Hw Hq).
Qed.

(** The first character stays. *)
Lemma replace_undefined_first (c : char) (t : str) :
  exists t', replace_undefined (c :: t) ph = c :: t'.
Proof.
  destruct (undefined_re_cases (c :: t)) as [[H _]|[_ (ws & w & q & E & Hws & Hw & Hq & _)]].
  - rewrite replace_undefined_miss by exact H. eauto.
  - rewrite E. rewrite replace_undefined_hit by assumption.
    injection E as -> _. simpl. eauto.
Qed.

Lemma starts_in_replace_undefined (p : char -> bool) (s : str) :
  starts_in p (replace_undefined s ph) = starts_in p s.
Proof.
  destruct s as [|c t]; [reflexivity|].
  destruct (replace_undefined_first c t) as [t' ->]. reflexivity.
Qed.

(** Text before the first colon is copied. *)
Lemma replace_undefined_no_colon (p s : str) :
  ~ In COLON p -> replace_undefined (p ++ s) ph = p ++ replace_undefined s ph.
Proof.
  induction p as [|c p IH]; intros H; [reflexivity|].
  simpl app. rewrite replace_undefined_miss.
  - rewrite IH; [reflexivity|]. intros I. apply H. now right.
  - cbn [bareword_value]. destruct (N.eqb_spec c COLON) as [->|]; [|reflexivity].
    exfalso. apply H. now left.
Qed.

End Repair.

Lemma space_not_colon (a : str) : forallb Re.space a = true -> ~ In COLON a.
Proof.
  induction a as [|c a IH]; simpl; [tauto|].
  intros [Hc Ha]%andb_true_iff [E|I]; [subst c; discriminate|exact (IH Ha I)].
Qed.

(** What follows the whitespace after a colon starts as it did before the
    repair. *)
Lemma lstrip_replace_undefined (ph : str) (p : char -> bool) (t : str) :
  starts_in p (lstrip Re.space (replace_undefined t ph))
  = starts_in p (lstrip Re.space t).
Proof.
  destruct (lstrip_span Re.space t) as (a & E & Ha & Hr).
  rewrite E at 1.
  rewrite replace_undefined_no_colon by now apply space_not_colon.
  rewrite lstrip_app.
  - apply starts_in_replace_undefined.
  - exact Ha.
  - now rewrite starts_in_replace_undefined.
Qed.

Lemma replace_undefined_unchanged (ph s : str) :
  has_bareword_value s = false -> replace_undefined s ph = s.
Proof.
  induction s as [|c t IH]; [reflexivity|].
  cbn [has_bareword_value]. intros [H1 H2]%orb_false_iff.
  rewrite replace_undefined_miss by exact H1. now rewrite IH.
Qed.

Lemma replace_undefined_changed (s : str) :
  has_bareword_value s = true -> replace_undefined s default_placeholder <> s.
Proof.
  induction s as [|c t IH]; [discriminate|].
  cbn [has_bareword_value]. intros H.
  destruct (undefined_re_cases (c :: t))
    as [[B _]|[_ (ws & w & q & E & Hws & Hw & Hq & _)]].
  - rewrite B in H. cbn [orb] in H.
    rewrite replace_undefined_miss by exact B.
    intros X. injection X as X. now apply IH.
  - rewrite E. rewrite replace_undefined_hit by assumption.
    intros X. injection X as X.
    destruct ws as [|a ws].
    + destruct w as [|h w]; [discriminate|]. injection X as <- _. discriminate.
    + injection X as <- X. destruct ws as [|b ws].
      * destruct w as [|h w]; [discriminate|]. injection X as <- _. discriminate.
      * injection X as <- _. discriminate.
Qed.

(** * The normalizer shortens *)

Section Shrink.

Variables b x : char.

Local Notation unesc := (Str.replace [b; x] [x]).

Lemma unesc_length (s : str) : length (unesc s) <= length s.
Proof.
  remember (length s) as n eqn:Hn. revert s Hn.
  induction n as [n IH] using lt_wf_ind. intros s ->.
  destruct (@unesc_cases b x s) as [->|[(t & -> & E)|(c & t & -> & _ & E)]]; rewrite ?E.
  - reflexivity.
  - pose proof (IH (length t) ltac:(simpl; lia) t eq_refl). simpl. lia.
  - pose proof (IH (length t) ltac:(simpl; lia) t eq_refl). simpl. lia.
Qed.

Lemma unesc_shorter (s : str) :
  contains [b; x] s = true -> length (unesc s) < length s.
Proof.
  induction s as [|c t IH]; [discriminate|].
  rewrite contains_cons. intros H.
  destruct (@unesc_cases b x (c :: t)) as [?|[(t' & E & U)|(c' & t' & E & M & U)]];
    [discriminate| |]; rewrite U.
  - injection E as -> ->. pose proof (unesc_length t'). simpl. lia.
  - injection E as <- <-. rewrite M in H. cbn [orb] in H.
    specialize (IH H). simpl. lia.
Qed.

End Shrink.

Lemma normalize_steps (s : str) :
  normalize s
  = Str.replace [BSLASH; UNDERSCORE] [UNDERSCORE]
      (Str.replace [BSLASH; RBRACE] [RBRACE]
         (Str.replace [BSLASH; LBRACE] [LBRACE] s)).
Proof. reflexivity. Qed.

Lemma normalize_length (s : str) : length (normalize s) <= length s.
Proof.
  rewrite normalize_steps.
  pose proof (@unesc_length BSLASH LBRACE s).
  pose proof (@unesc_length BSLASH RBRACE (Str.replace [BSLASH; LBRACE] [LBRACE] s)).
  pose proof (@unesc_length BSLASH UNDERSCORE
                (Str.replace [BSLASH; RBRACE] [RBRACE]
                   (Str.replace [BSLASH; LBRACE] [LBRACE] s))).
  lia.
Qed.

Lemma normalize_shorter (s : str) :
  contains [BSLASH; LBRACE] s || contains [BSLASH; RBRACE] s
  || contains [BSLASH; UNDERSCORE] s = true ->
  length (normalize s) < length s.
Proof.
  intros H. rewrite normalize_steps.
  destruct (contains [BSLASH; LBRACE] s) eqn:H1.
  - pose proof (@unesc_shorter BSLASH LBRACE s H1).
    pose proof (@unesc_length BSLASH RBRACE (Str.replace [BSLASH; LBRACE] [LBRACE] s)).
    pose proof (@unesc_length BSLASH UNDERSCORE
                  (Str.replace [BSLASH; RBRACE] [RBRACE]
                     (Str.replace [BSLASH; LBRACE] [LBRACE] s))).
    lia.
  - rewrite (@unesc_absent BSLASH LBRACE s H1).
    destruct (contains [BSLASH; RBRACE] s) eqn:H2.
    + pose proof (@unesc_shorter BSLASH RBRACE s H2).
      pose proof (@unesc_length BSLASH UNDERSCORE (Str.replace [BSLASH; RBRACE] [RBRACE] s)).
      lia.
    + rewrite (@unesc_absent BSLASH RBRACE s H2).
      cbn [orb] in H.
      exact (@unesc_shorter BSLASH UNDERSCORE s H).
Qed.

(** * A second pass of the repairer *)

Lemma inert_spec (ph : str) :
  inert ph = true ->
  ~ In COLON ph
  /\ exists x t, ph = x :: t /\ Re.space x = false /\ bareword_start x = false.
Proof.
  unfold inert. intros [H1 H2]%andb_true_iff. split.
  - intros I. apply negb_true_iff in H2.
    assert (existsb (N.eqb COLON) ph = true); [|congruence].
    apply existsb_exists. exists COLON. split; [exact I|reflexivity].
  - destruct ph as [|x t]; [discriminate|]. cbn [starts_in] in H1.
    apply andb_true_iff in H1 as [A B]. exists x, t.
    now rewrite <- (negb_involutive (Re.space x)), <- (negb_involutive (bareword_start x)), A, B.
Qed.

(** The replacement text itself is copied by a second pass. *)
Lemma replace_undefined_placeholder (ph z : str) :
  inert ph = true ->
  replace_undefined (py ": " ++ ph ++ z) ph = py ": " ++ ph ++ replace_undefined z ph.
Proof.
  intros [Hc (x & t & E & Hs & Hb)]%inert_spec.
  change (py ": " ++ ph ++ z) with (COLON :: SPACE :: ph ++ z).
  change (py ": " ++ ph ++ replace_undefined z ph)
    with (COLON :: (SPACE :: ph) ++ replace_undefined z ph).
  rewrite replace_undefined_miss.
  - f_equal. apply (@replace_undefined_no_colon ph (SPACE :: ph) z).
    intros [D|I]; [discriminate|auto].
  - rewrite E. cbn [bareword_value app lstrip starts_in].
    change (Re.space SPACE) with true. cbv iota. rewrite Hs.
    cbn [starts_in]. now rewrite Hb.
Qed.

Lemma replace_undefined_twice (ph : str) :
  inert ph = true ->
  forall s, replace_undefined (replace_undefined s ph) ph = replace_undefined s ph.
Proof.
  intros Hph s.
  remember (length s) as n eqn:Hn. revert s Hn.
  induction n as [n IH] using lt_wf_ind. intros s ->.
  destruct s as [|c t]; [reflexivity|].
  destruct (undefined_re_cases (c :: t))
    as [[B _]|[_ (ws & w & q & E & Hws & Hw & Hq & _)]].
  - rewrite replace_undefined_miss by exact B.
    rewrite replace_undefined_miss.
    + f_equal. apply (IH (length t)); [simpl; lia|reflexivity].
    + cbn [bareword_value] in *. now rewrite lstrip_replace_undefined.
  - rewrite E. rewrite replace_undefined_hit by assumption.
    rewrite replace_undefined_placeholder by exact Hph.
    do 2 f_equal.
    apply (IH (length q)); [|reflexivity].
    rewrite E. destruct w; [discriminate|]. len.
Qed.

(** * Tabs *)

Lemma expandtabs_from_no_tab (s : str) :
  forall col, ~ In TAB (Str.expandtabs_from col s).
Proof.
  induction s as [|c t IH]; intros col; [simpl; tauto|].
  cbn [Str.expandtabs_from]. destruct (N.eqb_spec c TAB) as [->|Hc].
  - intros [I|I]%in_app_or; [|exact (IH _ I)].
    apply repeat_spec in I. discriminate.
  - intros [E|I]; [congruence|exact (IH _ I)].
Qed.

Lemma expandtabs_from_id (s : str) :
  ~ In TAB s -> forall col, Str.expandtabs_from col s = s.
Proof.
  induction s as [|c t IH]; intros H col; [reflexivity|].
  cbn [Str.expandtabs_from]. destruct (N.eqb_spec c TAB) as [->|Hc].
  - exfalso. apply H. now left.
  - f_equal. apply IH. intros I. apply H. now right.
Qed.

Lemma candidate_no_tab (s c : str) :
  In c (get_json_candidates s) -> ~ In TAB c.
Proof.
  intros (p & q & m & E & _ & _)%get_json_candidates_spans I.
  apply (@expandtabs_from_no_tab s 0). fold (Str.expandtabs s). rewrite E.
  apply in_or_app. right. apply in_or_app. now left.
Qed.

(** * A text that is one span *)

Lemma laid_out_length (s : str) (l : list str) :
  laid_out s l -> forall c, In c l -> length c <= length s.
Proof.
  induction 1 as [s|p c rest l _ IH]; intros x I; [destruct I|].
  destruct I as [<-|I]; [len|]. specialize (IH x I). len.
Qed.

Lemma laid_out_whole (s : str) (l : list str) :
  laid_out s l -> (forall c, In c l -> c <> []) -> In s l -> l = [s].
Proof.
  intros H N I.
  inversion H as [s'|p c rest l' H' Es El]; subst; [destruct I|].
  assert (Hc : length c <> 0).
  { intros Z. apply length_zero_iff_nil in Z. revert Z. apply N. now left. }
  destruct I as [E|I].
  - assert (L : length c = length (p ++ c ++ rest)) by now rewrite <- E.
    rewrite !length_app in L.
    assert (p = []) as -> by (apply length_zero_iff_nil; lia).
    assert (rest = []) as -> by (apply length_zero_iff_nil; lia).
    rewrite app_nil_r. cbn [app]. f_equal.
    destruct l' as [|c' l]; [reflexivity|]. exfalso.
    pose proof (laid_out_length H' c' (or_introl eq_refl)) as L'.
    apply (N c'); [right; now left|].
    apply length_zero_iff_nil. simpl in L'. lia.
  - exfalso. pose proof (laid_out_length H' _ I) as L.
    rewrite !length_app in L. lia.
Qed.

Lemma candidate_nonempty (s c : str) : In c (get_json_candidates s) -> c <> [].
Proof.
  intros (p & q & m & _ & -> & _)%get_json_candidates_spans. discriminate.
Qed.

(** A JSON object without tab, scanned alone, is its one span. *)
Lemma get_json_candidates_whole (m : str) (v : pyval) :
  Json.loads (LBRACE :: m ++ [RBRACE]) = Ok v ->
  ~ In TAB (LBRACE :: m ++ [RBRACE]) ->
  get_json_candidates (LBRACE :: m ++ [RBRACE]) = [LBRACE :: m ++ [RBRACE]].
Proof.
  intros L T.
  pose proof (@get_json_candidates_object m [] [] v L T (fun F => F)) as I.
  change ([] ++ (LBRACE :: m ++ [RBRACE]) ++ []) with ((LBRACE :: m ++ [RBRACE]) ++ []) in I.
  rewrite app_nil_r in I.
  apply laid_out_whole; [| |exact I].
  - pose proof (get_json_candidates_laid_out (LBRACE :: m ++ [RBRACE])) as H.
    unfold Str.expandtabs in H. now rewrite expandtabs_from_id in H.
  - intros c. apply candidate_nonempty.
Qed.

(** * What the two rewrites keep *)

Lemma app_last_cases (a q t : str) (z : char) :
  a ++ q = t ++ [z] ->
  (q = [] /\ a = t ++ [z]) \/ (exists q', q = q' ++ [z] /\ t = a ++ q').
Proof.
  intros E. destruct q as [|y q] using rev_ind.
  - left. now rewrite app_nil_r in E.
  - right. clear IHq. rewrite app_assoc in E. apply app_inj_tail in E as [<- <-]. eauto.
Qed.

Section Kept.

Variables b x : char.

Local Notation unesc := (Str.replace [b; x] [x]).

Lemma unesc_in (y : char) (s : str) : In y (unesc s) -> In y s.
Proof.
  remember (length s) as n eqn:Hn. revert s Hn.
  induction n as [n IH] using lt_wf_ind. intros s ->.
  destruct (@unesc_cases b x s) as [->|[(t & -> & E)|(c & t & -> & _ & E)]]; rewrite ?E.
  - auto.
  - intros [<-|I]; [right; now left|]. right. right.
    apply (IH (length t)); [simpl; lia|reflexivity|exact I].
  - intros [<-|I]; [now left|]. right.
    apply (IH (length t)); [simpl; lia|reflexivity|exact I].
Qed.

Lemma unesc_last (z : char) (m : str) : exists m', unesc (m ++ [z]) = m' ++ [z].
Proof.
  remember (length m) as n eqn:Hn. revert m Hn.
  induction n as [n IH] using lt_wf_ind. intros m ->.
  destruct (@unesc_cases b x (m ++ [z]))
    as [E|[(t & E & U)|(c & t & E & _ & U)]]; rewrite U || idtac.
  - now destruct m.
  - destruct m as [|c1 [|c2 m]].
    + discriminate.
    + injection E as -> -> <-. exists []. reflexivity.
    + injection E as -> -> <-.
      destruct (IH (length m) ltac:(simpl; lia) m eq_refl) as [m' ->].
      now exists (x :: m').
  - destruct m as [|c1 m].
    + injection E as <- <-. now exists [].
    + injection E as <- <-.
      destruct (IH (length m) ltac:(simpl; lia) m eq_refl) as [m' ->].
      now exists (c1 :: m').
Qed.

End Kept.

Lemma normalize_in (y : char) (s : str) : In y (normalize s) -> In y s.
Proof.
  rewrite normalize_steps. intros I.
  now apply unesc_in, unesc_in, unesc_in in I.
Qed.

Lemma normalize_last (z : char) (m : str) : exists m', normalize (m ++ [z]) = m' ++ [z].
Proof.
  rewrite normalize_steps.
  destruct (unesc_last BSLASH LBRACE z m) as [m1 ->].
  destruct (unesc_last BSLASH RBRACE z m1) as [m2 ->].
  apply unesc_last.
Qed.

Lemma is_bareword_chars (w : str) :
  is_bareword w = true -> forallb bareword_char w = true.
Proof.
  destruct w as [|h w]; [discriminate|]. simpl.
  intros [H1 H2]%andb_true_iff. now rewrite (bareword_start_char _ H1).
Qed.

Lemma replace_undefined_in (ph : str) (y : char) (s : str) :
  In y (replace_undefined s ph) -> In y s \/ In y (py ": " ++ ph).
Proof.
  remember (length s) as n eqn:Hn. revert s Hn.
  induction n as [n IH] using lt_wf_ind. intros s ->.
  destruct s as [|c t]; [now left|].
  destruct (undefined_re_cases (c :: t))
    as [[B _]|[_ (ws & w & q & E & Hws & Hw & Hq & _)]].
  - rewrite replace_undefined_miss by exact B.
    intros [<-|I]; [left; now left|].
    destruct (IH (length t) ltac:(simpl; lia) t eq_refl I) as [J|J]; [left; now right|now right].
  - rewrite E. rewrite replace_undefined_hit by assumption.
    rewrite app_assoc. intros [I|I]%in_app_or; [now right|].
    destruct (IH (length q)) with (s := q) as [J|J]; [|reflexivity|exact I| |now right].
    + rewrite E. destruct w; [discriminate|]. len.
    + left. right. apply in_or_app. right. apply in_or_app. now right.
Qed.

(** A last character that no match can end with stays the last. *)
Lemma replace_undefined_last (ph : str) (z : char) (m : str) :
  bareword_char z = false -> Re.space z = false -> z <> COLON ->
  exists m', replace_undefined (m ++ [z]) ph = m' ++ [z].
Proof.
  intros Zb Zs Zc.
  remember (length m) as n eqn:Hn. revert m Hn.
  induction n as [n IH] using lt_wf_ind. intros m ->.
  destruct (m ++ [z]) as [|c t] eqn:Em; [now destruct m|].
  destruct (undefined_re_cases (c :: t))
    as [[B _]|[_ (ws & w & q & E & Hws & Hw & Hq & _)]].
  - rewrite replace_undefined_miss by exact B.
    destruct m as [|c1 m].
    + injection Em as <- <-. now exists [].
    + injection Em as <- <-.
      destruct (IH (length m) ltac:(simpl; lia) m eq_refl) as [m' ->].
      now exists (c1 :: m').
  - rewrite E. rewrite replace_undefined_hit by assumption.
    destruct m as [|c1 m].
    { injection Em as -> _. congruence. }
    rewrite E in Em. injection Em as -> Em.
    rewrite app_assoc in Em. symmetry in Em.
    apply app_last_cases in Em as [[-> Em]|(q' & -> & ->)].
    + exfalso. pose proof (is_bareword_chars _ Hw) as Hc.
      destruct w as [|h w] using rev_ind; [discriminate|].
      rewrite app_assoc in Em. apply app_inj_tail in Em as [_ ->].
      rewrite forallb_app in Hc. apply andb_true_iff in Hc as [_ Hc].
      simpl in Hc. rewrite Zb in Hc. discriminate.
    + destruct (IH (length q')) with (m := q') as [m' ->]; [|reflexivity|].
      * destruct w; [discriminate|]. len.
      * exists (py ": " ++ ph ++ m'). now rewrite <- !app_assoc.
Qed.

(** * The decoder does not depend on its bounds *)

Section Agree.

Variables f g : str -> result (pyval * str).
Variable L : nat.
Hypothesis f_ok : forall s, length s <= L -> scans f s.
Hypothesis fg : forall s, length s <= L -> f s = g s.

Lemma JSONObject_loop_agree (n : nat) :
  forall n' s pairs, length s <= L -> length s < n -> length s < n' ->
    Json.JSONObject_loop f n s pairs = Json.JSONObject_loop g n' s pairs.
Proof.
  induction n as [|n IH]; intros n' s pairs HL Hn Hn'; [lia|].
  destruct n' as [|n']; [lia|].
  cbn [Json.JSONObject_loop].
  pose proof (scanstring_sound s) as Hk.
  destruct (Json.scanstring s) as [[key s1]|e]; [|reflexivity]. cbn [bind].
  destruct (Json.w s1) as [|c s2] eqn:W1; [reflexivity|].
  apply w_cons in W1.
  destruct (negb (c =? COLON)%N); [reflexivity|].
  pose proof (w_length s2) as W2.
  rewrite <- (fg (Json.w s2)) by lia.
  pose proof (f_ok (Json.w s2) ltac:(lia)) as Hs. unfold scans in Hs.
  destruct (f (Json.w s2)) as [[value s3]|e];
    [|cbn [try_except]; destruct (exn_eqb e StopIteration); reflexivity].
  cbn [try_except bind].
  destruct (Json.w s3) as [|nextchar s4] eqn:W3; [reflexivity|].
  apply w_cons in W3.
  destruct (nextchar =? RBRACE)%N; [reflexivity|].
  destruct (negb (nextchar =? COMMA)%N); [reflexivity|].
  destruct (Json.w s4) as [|q s5] eqn:W4; [reflexivity|].
  apply w_cons in W4.
  destruct (q =? DQUOTE)%N; [|reflexivity].
  apply IH; lia.
Qed.

Lemma JSONObject_agree (s : str) :
  length s <= L -> Json.JSONObject f s = Json.JSONObject g s.
Proof.
  intros HL. unfold Json.JSONObject.
  destruct (Json.w s) as [|nextchar t] eqn:W; [reflexivity|].
  apply w_cons in W.
  destruct (nextchar =? DQUOTE)%N; [|reflexivity].
  apply JSONObject_loop_agree; lia.
Qed.

Lemma JSONArray_loop_agree (n : nat) :
  forall n' s values, length s <= L -> length s < n -> length s < n' ->
    Json.JSONArray_loop f n s values = Json.JSONArray_loop g n' s values.
Proof.
  induction n as [|n IH]; intros n' s values HL Hn Hn'; [lia|].
  destruct n' as [|n']; [lia|].
  cbn [Json.JSONArray_loop].
  rewrite <- (fg s) by lia.
  pose proof (f_ok s HL) as Hs. unfold scans in Hs.
  destruct (f s) as [[value s1]|e];
    [|cbn [try_except]; destruct (exn_eqb e StopIteration); reflexivity].
  cbn [try_except bind].
  destruct (Json.w s1) as [|nextchar s2] eqn:W1; [reflexivity|].
  apply w_cons in W1.
  destruct (nextchar =? RBRACKET)%N; [reflexivity|].
  destruct (negb (nextchar =? COMMA)%N); [reflexivity|].
  pose proof (w_length s2).
  apply IH; lia.
Qed.

Lemma JSONArray_agree (s : str) :
  length s <= L -> Json.JSONArray f s = Json.JSONArray g s.
Proof.
  intros HL. unfold Json.JSONArray.
  pose proof (w_length s).
  destruct (Json.w s) as [|nextchar t] eqn:W.
  - apply JSONArray_loop_agree; simpl; lia.
  - destruct (nextchar =? RBRACKET)%N; [reflexivity|].
    rewrite <- W. pose proof (w_length s). apply JSONArray_loop_agree; lia.
Qed.

End Agree.

Lemma scan_once_depth (d : nat) :
  forall d' s, length s < d -> length s < d' ->
    Json.scan_once d s = Json.scan_once d' s.
Proof.
  induction d as [|d IH]; intros d' s Hd Hd'; [lia|].
  destruct d' as [|d']; [lia|].
  cbn [Json.scan_once].
  destruct s as [|nextchar t]; [reflexivity|]. simpl in Hd, Hd'.
  destruct (nextchar =? DQUOTE)%N; [reflexivity|].
  destruct (nextchar =? LBRACE)%N.
  { apply JSONObject_agree with (L := length t); [| |lia].
    - intros x Hx. apply scan_once_sound. lia.
    - intros x Hx. apply IH; lia. }
  destruct (nextchar =? LBRACKET)%N.
  { apply JSONArray_agree with (L := length t); [| |lia].
    - intros x Hx. apply scan_once_sound. lia.
    - intros x Hx. apply IH; lia. }
  reflexivity.
Qed.

Lemma decode_depth (d d' : nat) (s : str) :
  length s < d -> length s < d' -> Json.decode d s = Json.decode d' s.
Proof.
  intros Hd Hd'. unfold Json.decode, Json.raw_decode.
  pose proof (w_length s).
  now rewrite (@scan_once_depth d d' (Json.w s)) by lia.
Qed.

(** * Whitespace around the text *)

Lemma json_space_cases (c : char) :
  json_space c = true -> c = SPACE \/ c = TAB \/ c = LF \/ c = CR.
Proof.
  unfold json_space, one_of. cbn [existsb].
  intros H. repeat apply orb_true_iff in H as [H|H]; try discriminate;
    apply N.eqb_eq in H; auto.
Qed.

Section Trailing.

Variable q : str.
Hypothesis q_ws : forallb json_space q = true.

Lemma q_head (P : char -> bool) :
  (forall c, json_space c = true -> P c = false) -> starts_in P q = false.
Proof.
  intros H. destruct q as [|c t]; [reflexivity|]. simpl in *.
  apply andb_true_iff in q_ws as [Hc _]. auto.
Qed.

Lemma w_ws : Json.w q = [].
Proof.
  clear -q_ws. induction q as [|c t IH]; [reflexivity|]. simpl in q_ws.
  apply andb_true_iff in q_ws as [Hc Ht]. cbn [Json.w].
  unfold json_space in Hc. rewrite Hc. auto.
Qed.

Lemma w_trailing (s : str) :
  Json.w (s ++ q) = match Json.w s with [] => [] | c :: t => c :: t ++ q end.
Proof.
  induction s as [|c t IH]; [exact w_ws|].
  cbn [app Json.w]. destruct (one_of _ c); [exact IH|reflexivity].
Qed.

Lemma startswith_trailing (p s : str) :
  forallb (fun c => negb (json_space c)) p = true -> p <> [] ->
  startswith p (s ++ q) = startswith p s.
Proof.
  revert s. induction p as [|x p IH]; intros s Hp Np; [congruence|].
  simpl in Hp. apply andb_true_iff in Hp as [Hx Hp].
  destruct s as [|y s].
  - cbn [app]. destruct q as [|c t] eqn:Eq; [reflexivity|]. cbn [startswith].
    simpl in q_ws. apply andb_true_iff in q_ws as [Hc _].
    destruct (N.eqb_spec x c) as [->|]; [|reflexivity].
    rewrite Hc in Hx. discriminate.
  - cbn [app startswith]. destruct p as [|x' p]; [reflexivity|].
    rewrite IH; [reflexivity|exact Hp|discriminate].
Qed.

Lemma skipn_trailing (n : nat) (s : str) :
  n <= length s -> skipn n (s ++ q) = skipn n s ++ q.
Proof.
  intros H. rewrite skipn_app.
  replace (n - length s) with 0 by lia. reflexivity.
Qed.

Lemma startswith_length (p s : str) : startswith p s = true -> length p <= length s.
Proof. intros [t ->]%startswith_spec. len. Qed.

(** ** Strings *)

Lemma hexval_ws (c : char) : json_space c = true -> Json.hexval c = None.
Proof. intros H. four_cases (json_space_cases c H); reflexivity. Qed.

Lemma escape_ws (c : char) :
  json_space c = true -> negb (c =? ord "u")%N = true /\ Json.BACKSLASH c = None.
Proof. intros H. four_cases (json_space_cases c H); split; reflexivity. Qed.

Lemma scanstring_ws : Json.scanstring q = Raise ValueError.
Proof.
  clear -q_ws. induction q as [|c t IH]; [reflexivity|]. simpl in q_ws.
  apply andb_true_iff in q_ws as [Hc Ht]. specialize (IH Ht).
  four_cases (json_space_cases c Hc); cbn [Json.scanstring]; try reflexivity.
  change (SPACE =? DQUOTE)%N with false. change (SPACE =? BSLASH)%N with false.
  change (SPACE <? 32)%N with false. cbv iota. now rewrite IH.
Qed.

Lemma hex4_ws (a b c d : char) :
  json_space a || json_space b || json_space c || json_space d = true ->
  Json.hex4 a b c d = None.
Proof.
  intros H. unfold Json.hex4.
  apply orb_true_iff in H as [[[H|H]%orb_true_iff|H]%orb_true_iff|H];
    apply hexval_ws in H; rewrite H;
    repeat match goal with |- context [Json.hexval ?x] => destruct (Json.hexval x) end;
    reflexivity.
Qed.

Lemma hex4_short (t : str) :
  length t < 4 ->
  match t ++ q with
  | h1 :: h2 :: h3 :: h4 :: _ => Json.hex4 h1 h2 h3 h4 = None
  | _ => True
  end.
Proof.
  intros H. generalize q_ws. generalize q. intros u W.
  destruct t as [|a [|b [|c [|d t]]]]; [| | | |simpl in H; lia]; cbn [app];
    repeat match goal with
           | W : forallb json_space ?u = true |- _ =>
               destruct u as [|? ?]; [exact I|]; simpl in W;
               apply andb_true_iff in W as [? W]
           end;
    apply hex4_ws;
    repeat match goal with H : json_space _ = true |- _ => rewrite H; clear H end;
    rewrite ?orb_true_r; reflexivity.
Qed.

Lemma followed_bind (A B : Type) (m : result (A * str)) (k : A -> B) :
  ('(x, r) <- followed q m ;; Ok (k x, r))
  = followed q ('(x, r) <- m ;; Ok (k x, r)).
Proof. destruct m as [[x r]|e]; reflexivity. Qed.

Lemma scanstring_trailing (t : str) :
  Json.scanstring (t ++ q) = followed q (Json.scanstring t).
Proof.
  remember (length t) as n eqn:Hn. revert t Hn.
  induction n as [n IH] using lt_wf_ind. intros t ->.
  destruct t as [|c t1]; [exact scanstring_ws|].
  cbn [app Json.scanstring].
  destruct (c =? DQUOTE)%N; [reflexivity|].
  destruct (c =? BSLASH)%N.
  - destruct t1 as [|esc t2].
    + cbn [app]. generalize q_ws. generalize q. intros u W.
      destruct u as [|esc u]; [reflexivity|]. simpl in W.
      apply andb_true_iff in W as [[-> ->]%escape_ws _]. reflexivity.
    + cbn [app]. destruct (negb (esc =? ord "u")%N).
      * destruct (Json.BACKSLASH esc) as [ch|]; [|reflexivity].
        rewrite (IH (length t2) ltac:(simpl; lia) t2 eq_refl).
        apply (followed_bind (Json.scanstring t2) (cons ch)).
      * destruct t2 as [|h1 [|h2 [|h3 [|h4 t6]]]];
          [short_escape q (hex4_short (@nil char) ltac:(simpl; lia))|short_escape q (hex4_short [h1] ltac:(simpl; lia))|short_escape q (hex4_short [h1; h2] ltac:(simpl; lia))
          |short_escape q (hex4_short [h1; h2; h3] ltac:(simpl; lia))|].
        cbn [app]. destruct (Json.hex4 h1 h2 h3 h4) as [uni|]; [|reflexivity].
        rewrite startswith_trailing by (reflexivity || discriminate).
        assert (Single :
          ('(r, rest) <- Json.scanstring (t6 ++ q) ;; Ok (uni :: r, rest))
          = followed q ('(r, rest) <- Json.scanstring t6 ;; Ok (uni :: r, rest))).
        { rewrite (IH (length t6) ltac:(simpl; lia) t6 eq_refl).
          apply (followed_bind (Json.scanstring t6) (cons uni)). }
        destruct (in_range 55296 56319 uni && startswith [BSLASH; ord "u"] t6) eqn:C;
          [|exact Single].
        apply andb_true_iff in C as [_ C].
        apply startswith_spec in C as [t8 ->]. cbn [app].
        destruct t8 as [|g1 [|g2 [|g3 [|g4 t12]]]];
          [short_escape q (hex4_short (@nil char) ltac:(simpl; lia))|short_escape q (hex4_short [g1] ltac:(simpl; lia))|short_escape q (hex4_short [g1; g2] ltac:(simpl; lia))
          |short_escape q (hex4_short [g1; g2; g3] ltac:(simpl; lia))|].
        cbn [app]. destruct (Json.hex4 g1 g2 g3 g4) as [uni2|]; [|reflexivity].
        destruct (in_range 56320 57343 uni2); [|exact Single].
        rewrite (IH (length t12) ltac:(simpl; lia) t12 eq_refl).
        apply (followed_bind (Json.scanstring t12)
                 (cons (65536 + N.lor (N.shiftl (uni - 55296) 10) (uni2 - 56320))%N)).
  - destruct (c <? 32)%N; [reflexivity|].
    rewrite (IH (length t1) ltac:(simpl; lia) t1 eq_refl).
    apply (followed_bind (Json.scanstring t1) (cons c)).
Qed.

(** ** Numbers and literals *)

Lemma star_from_fuel (f : str -> list str) (n : nat) :
  forall n' s, length s <= n -> length s <= n' ->
    Re.star_from f n s = Re.star_from f n' s.
Proof.
  induction n as [|n IH]; intros n' s Hn Hn'.
  - destruct s; [|simpl in Hn; lia]. destruct n' as [|n']; [reflexivity|].
    cbn [Re.star_from]. rewrite flat_map_empty; [reflexivity|].
    apply Forall_forall. intros x _. reflexivity.
  - destruct n' as [|n'].
    + destruct s; [|simpl in Hn'; lia].
      cbn [Re.star_from]. rewrite flat_map_empty; [reflexivity|].
      apply Forall_forall. intros x _. reflexivity.
    + cbn [Re.star_from]. f_equal. apply flat_map_ext. intros x.
      destruct (Nat.ltb_spec (length x) (length s)); [|reflexivity].
      apply IH; lia.
Qed.

Lemma flat_map_map (A B C : Type) (f : A -> B) (g : B -> list C) (l : list A) :
  flat_map g (map f l) = flat_map (fun x => g (f x)) l.
Proof. induction l as [|a l IH]; simpl; [reflexivity|]. now rewrite IH. Qed.

Lemma map_flat_map (A B C : Type) (f : A -> list B) (g : B -> C) (l : list A) :
  map g (flat_map f l) = flat_map (fun x => map g (f x)) l.
Proof. induction l as [|a l IH]; simpl; [reflexivity|]. now rewrite map_app, IH. Qed.

Section Class.

Variable P : char -> bool.
Hypothesis space_out : forall c, json_space c = true -> P c = false.

Lemma star_from_trailing (f : str -> list str) :
  (forall x, f (x ++ q) = map (fun y => y ++ q) (f x)) ->
  forall n s, Re.star_from f n (s ++ q) = map (fun y => y ++ q) (Re.star_from f n s).
Proof.
  intros Hf. induction n as [|n IH]; intros s; [reflexivity|].
  cbn [Re.star_from]. rewrite map_app, Hf, flat_map_map, map_flat_map.
  f_equal. apply flat_map_ext. intros x. rewrite !length_app.
  destruct (Nat.ltb_spec (length x) (length s)).
  - destruct (Nat.ltb_spec (length x + length q) (length s + length q)); [|lia].
    apply IH.
  - destruct (Nat.ltb_spec (length x + length q) (length s + length q)); [lia|].
    reflexivity.
Qed.

(** A pattern that matches no whitespace matches the same with whitespace
    after the text. *)
Lemma matches_trailing (r : Re.regex) :
  over P r ->
  forall s, Re.matches r (s ++ q) = map (fun y => y ++ q) (Re.matches r s).
Proof.
  induction r as [|c|p|a IHa b IHb|a IHa b IHb|a IHa|a IHa]; intros O s.
  - reflexivity.
  - destruct s as [|x t].
    + cbn [app Re.matches]. pose proof (q_head (N.eqb c)) as H.
      destruct q as [|y u]; [reflexivity|]. cbn [starts_in] in H.
      rewrite N.eqb_sym, H; [reflexivity|].
      intros z Hz. destruct (N.eqb_spec c z) as [<-|]; [|reflexivity].
      simpl in O. rewrite (space_out _ Hz) in O. discriminate.
    + cbn [app Re.matches]. destruct (x =? c)%N; reflexivity.
  - destruct s as [|x t].
    + cbn [app Re.matches]. pose proof (q_head p) as H.
      destruct q as [|y u]; [reflexivity|]. cbn [starts_in] in H.
      rewrite H; [reflexivity|].
      intros z Hz. destruct (p z) eqn:E; [|reflexivity].
      pose proof (O _ E) as X. rewrite (space_out _ Hz) in X. discriminate.
    + cbn [app Re.matches]. destruct (p x); reflexivity.
  - destruct O as [Oa Ob]. rewrite !matches_cat, IHa, flat_map_map, map_flat_map by exact Oa.
    apply flat_map_ext. intros x. now apply IHb.
  - destruct O as [Oa Ob]. rewrite !matches_alt, map_app.
    now rewrite IHa, IHb.
  - cbn [Re.matches].
    rewrite star_from_trailing by (intros x; now apply IHa).
    f_equal. apply star_from_fuel; len.
  - rewrite !matches_grp. now apply IHa.
Qed.

Lemma re_match_trailing (r : Re.regex) (s : str) :
  over P r ->
  Re.re_match r (s ++ q) = option_map (fun y => y ++ q) (Re.re_match r s).
Proof.
  intros O. unfold Re.re_match. rewrite matches_trailing by exact O.
  now destruct (Re.matches r s).
Qed.

End Class.

Lemma plain_space_out (c : char) : json_space c = true -> plain c = false.
Proof. intros H. four_cases (json_space_cases c H); reflexivity. Qed.

Lemma matched_trailing (s r : str) :
  length r <= length s -> Json.matched (s ++ q) (r ++ q) = Json.matched s r.
Proof.
  intros H. unfold Json.matched. rewrite !length_app, firstn_app.
  replace (length s + length q - (length r + length q)) with (length s - length r) by lia.
  replace (length s - length r - length s) with 0 by lia.
  simpl. apply app_nil_r.
Qed.

Lemma match_number_trailing (s : str) :
  Json.match_number (s ++ q)
  = option_map (fun '(i, f, e, rest) => (i, f, e, rest ++ q)) (Json.match_number s).
Proof.
  destruct over_number as (O1 & O2 & O3).
  unfold Json.match_number.
  rewrite (@re_match_trailing plain plain_space_out _ s O1).
  destruct (Re.re_match (Re.Grp Json.integer_re) s) as [r1|] eqn:E1; [|reflexivity].
  cbn [option_map].
  rewrite (@re_match_trailing plain plain_space_out _ r1 O2).
  destruct (Re.re_match (Re.Opt (Re.Grp Json.frac_re)) r1) as [r2|] eqn:E2; [|reflexivity].
  cbn [option_map].
  rewrite (@re_match_trailing plain plain_space_out _ r2 O3).
  destruct (Re.re_match (Re.Opt (Re.Grp Json.exp_re)) r2) as [r3|] eqn:E3; [|reflexivity].
  cbn [option_map].
  apply re_match_length in E1, E2, E3.
  now rewrite !matched_trailing by lia.
Qed.

(** ** Objects and arrays *)

Section TrailingLoops.

Variable f : str -> result (pyval * str).
Variable L : nat.
Hypothesis f_ok : forall s, length s <= L -> scans f s.
Hypothesis f_trailing : forall s, length s <= L -> f (s ++ q) = followed q (f s).

Lemma scan_w_trailing (s : str) :
  length s <= L -> f (Json.w (s ++ q)) = followed q (f (Json.w s)).
Proof.
  intros H. rewrite w_trailing. pose proof (w_length s) as W.
  destruct (Json.w s) as [|c t] eqn:E.
  - pose proof (f_ok [] ltac:(simpl; lia)) as S0. unfold scans in S0.
    destruct (f []) as [[v r]|e]; [simpl in S0; lia|reflexivity].
  - apply (f_trailing (c :: t)). lia.
Qed.

Lemma JSONObject_loop_trailing (n : nat) :
  forall n' s pairs, length s <= L -> length s < n' -> length (s ++ q) < n ->
    Json.JSONObject_loop f n (s ++ q) pairs
    = followed q (Json.JSONObject_loop f n' s pairs).
Proof.
  induction n as [|n IH]; intros n' s pairs HL Hn' Hn; [lia|].
  destruct n' as [|n']; [lia|].
  cbn [Json.JSONObject_loop].
  rewrite scanstring_trailing.
  pose proof (scanstring_sound s) as Hk.
  destruct (Json.scanstring s) as [[key s1]|e]; [|reflexivity].
  cbn [followed bind]. rewrite w_trailing.
  destruct (Json.w s1) as [|c s2] eqn:W1; [reflexivity|].
  apply w_cons in W1.
  destruct (negb (c =? COLON)%N); [reflexivity|].
  rewrite scan_w_trailing by lia.
  pose proof (w_length s2) as W2.
  pose proof (f_ok (Json.w s2) ltac:(lia)) as Hs. unfold scans in Hs.
  destruct (f (Json.w s2)) as [[value s3]|e];
    [|cbn [followed bind try_except]; destruct (exn_eqb e StopIteration); reflexivity].
  cbn [followed try_except bind]. rewrite w_trailing.
  destruct (Json.w s3) as [|nextchar s4] eqn:W3; [reflexivity|].
  apply w_cons in W3.
  destruct (nextchar =? RBRACE)%N; [reflexivity|].
  destruct (negb (nextchar =? COMMA)%N); [reflexivity|].
  rewrite w_trailing.
  destruct (Json.w s4) as [|c5 s5] eqn:W4; [reflexivity|].
  apply w_cons in W4.
  destruct (c5 =? DQUOTE)%N; [|reflexivity].
  apply IH; [lia|lia|]. rewrite length_app in *. lia.
Qed.

Lemma JSONObject_trailing (s : str) :
  length s <= L ->
  Json.JSONObject f (s ++ q) = followed q (Json.JSONObject f s).
Proof.
  intros HL. unfold Json.JSONObject. rewrite w_trailing.
  destruct (Json.w s) as [|nextchar t] eqn:W; [reflexivity|].
  apply w_cons in W.
  destruct (nextchar =? DQUOTE)%N.
  - apply JSONObject_loop_trailing; lia.
  - destruct (nextchar =? RBRACE)%N; reflexivity.
Qed.

Lemma JSONArray_loop_trailing (n : nat) :
  forall n' s values, length s <= L -> length s < n' -> length (s ++ q) < n ->
    Json.JSONArray_loop f n (Json.w (s ++ q)) values
    = followed q (Json.JSONArray_loop f n' (Json.w s) values).
Proof.
  induction n as [|n IH]; intros n' s values HL Hn' Hn; [lia|].
  destruct n' as [|n']; [lia|].
  cbn [Json.JSONArray_loop].
  rewrite scan_w_trailing by lia.
  pose proof (w_length s) as W0.
  pose proof (f_ok (Json.w s) ltac:(lia)) as Hs. unfold scans in Hs.
  destruct (f (Json.w s)) as [[value s1]|e];
    [|cbn [followed bind try_except]; destruct (exn_eqb e StopIteration); reflexivity].
  cbn [followed try_except bind]. rewrite w_trailing.
  destruct (Json.w s1) as [|nextchar s2] eqn:W1; [reflexivity|].
  apply w_cons in W1.
  destruct (nextchar =? RBRACKET)%N; [reflexivity|].
  destruct (negb (nextchar =? COMMA)%N); [reflexivity|].
  apply IH; [lia|lia|]. rewrite length_app in *. lia.
Qed.

Lemma JSONArray_trailing (s : str) :
  length s <= L ->
  Json.JSONArray f (s ++ q) = followed q (Json.JSONArray f s).
Proof.
  intros HL. unfold Json.JSONArray.
  rewrite (@JSONArray_loop_trailing (S (length (s ++ q))) (S (length s)) s [])
    by lia.
  rewrite w_trailing.
  destruct (Json.w s) as [|nextchar t]; [reflexivity|].
  destruct (nextchar =? RBRACKET)%N; reflexivity.
Qed.

End TrailingLoops.

Lemma scan_once_ws (d : nat) : Json.scan_once (S d) q = Raise StopIteration.
Proof.
  generalize q_ws. generalize q. intros u W.
  destruct u as [|c u]; [reflexivity|]. simpl in W.
  apply andb_true_iff in W as [Hc _].
  assert (M : Json.match_number (c :: u) = None).
  { destruct (Json.match_number (c :: u)) as [[[[i f] e] rest]|] eqn:M; [exfalso|reflexivity].
    pose proof (match_number_progress _ M) as Hp.
    apply match_number_plain in M as (m & E & Hm).
    destruct m as [|x m]; [simpl in E; subst rest; lia|].
    injection E as <- _. simpl in Hm. rewrite (plain_space_out _ Hc) in Hm. discriminate. }
  cbn [Json.scan_once]. rewrite M.
  four_cases (json_space_cases c Hc); reflexivity.
Qed.

Lemma literal_trailing (p s : str) (v : pyval) :
  forallb (fun c => negb (json_space c)) p = true -> p <> [] ->
  startswith p s = true ->
  (@Ok (pyval * str) (v, skipn (length p) (s ++ q)))
  = followed q (Ok (v, skipn (length p) s)).
Proof.
  intros _ _ H. cbn [followed bind]. rewrite skipn_trailing; [reflexivity|].
  now apply startswith_length.
Qed.

Lemma scan_once_trailing (d : nat) :
  forall s, length s < d ->
    Json.scan_once d (s ++ q) = followed q (Json.scan_once d s).
Proof.
  induction d as [|d IH]; intros s Hd; [lia|].
  destruct s as [|nextchar t]; [exact (scan_once_ws d)|].
  simpl in Hd.
  assert (Lit : forall p, forallb (fun c => negb (json_space c)) p = true -> p <> [] ->
                startswith p ((nextchar :: t) ++ q) = startswith p (nextchar :: t))
    by (intros p; apply startswith_trailing).
  cbn [Json.scan_once]. 
  rewrite !Lit by (reflexivity || discriminate).
  rewrite match_number_trailing.
  cbn [app].
  destruct (nextchar =? DQUOTE)%N.
  { rewrite scanstring_trailing. apply (followed_bind (Json.scanstring t) PStr). }
  destruct (nextchar =? LBRACE)%N.
  { apply JSONObject_trailing with (L := length t); [| |lia].
    - intros x Hx. apply scan_once_sound. lia.
    - intros x Hx. apply IH. lia. }
  destruct (nextchar =? LBRACKET)%N.
  { apply JSONArray_trailing with (L := length t); [| |lia].
    - intros x Hx. apply scan_once_sound. lia.
    - intros x Hx. apply IH. lia. }
  change (nextchar :: t ++ q) with ((nextchar :: t) ++ q).
  destruct (startswith (py "null") (nextchar :: t)) eqn:E1;
    [now apply (@literal_trailing (py "null"))|].
  destruct (startswith (py "true") (nextchar :: t)) eqn:E2;
    [now apply (@literal_trailing (py "true"))|].
  destruct (startswith (py "false") (nextchar :: t)) eqn:E3;
    [now apply (@literal_trailing (py "false"))|].
  destruct (Json.match_number (nextchar :: t)) as [[[[i fr] ex] rest]|].
  { cbn [option_map]. destruct fr, ex; reflexivity. }
  cbn [option_map].
  destruct (startswith (py "NaN") (nextchar :: t)) eqn:E4;
    [now apply (@literal_trailing (py "NaN"))|].
  destruct (startswith (py "Infinity") (nextchar :: t)) eqn:E5;
    [now apply (@literal_trailing (py "Infinity"))|].
  destruct (startswith (py "-Infinity") (nextchar :: t)) eqn:E6;
    [now apply (@literal_trailing (py "-Infinity"))|].
  reflexivity.
Qed.

Lemma decode_trailing (d : nat) (s : str) :
  length s < d -> Json.decode d (s ++ q) = Json.decode d s.
Proof.
  intros Hd. unfold Json.decode, Json.raw_decode.
  pose proof (w_length s) as W.
  rewrite w_trailing.
  destruct (Json.w s) as [|c t] eqn:E; [reflexivity|].
  change (c :: t ++ q) with ((c :: t) ++ q).
  rewrite scan_once_trailing by lia.
  destruct (Json.scan_once d (c :: t)) as [[obj rest]|e];
    [|cbn [followed bind try_except]; destruct (exn_eqb e StopIteration); reflexivity].
  cbn [followed try_except bind]. rewrite w_trailing.
  now destruct (Json.w rest).
Qed.

Lemma loads_trailing (s : str) : Json.loads (s ++ q) = Json.loads s.
Proof.
  unfold Json.loads, Json.loads_within.
  rewrite startswith_trailing by (reflexivity || discriminate).
  destruct (startswith [65279%N] s); [reflexivity|].
  rewrite decode_trailing by len.
  apply decode_depth; len.
Qed.

End Trailing.

(** ** Whitespace before the text *)

Lemma w_leading (a s : str) :
  forallb json_space a = true -> Json.w (a ++ s) = Json.w s.
Proof.
  induction a as [|c a IH]; intros H; [reflexivity|]. simpl in H.
  apply andb_true_iff in H as [Hc Ha]. cbn [app Json.w].
  unfold json_space in Hc. rewrite Hc. auto.
Qed.

Lemma integer_re_mark (t : str) : Re.matches (Re.Grp Json.integer_re) (65279%N :: t) = [].
Proof. reflexivity. Qed.

(** A byte order mark is no JSON value, at the start or after whitespace. *)
Lemma decode_mark (d : nat) (t : str) : Json.decode (S d) (65279%N :: t) = Raise ValueError.
Proof.
  unfold Json.decode, Json.raw_decode.
  change (Json.w (65279%N :: t)) with (65279%N :: t).
  cbn [Json.scan_once]. unfold Json.match_number, Re.re_match.
  rewrite integer_re_mark. reflexivity.
Qed.

Lemma loads_leading (a s : str) :
  forallb json_space a = true -> Json.loads (a ++ s) = Json.loads s.
Proof.
  intros Ha. destruct a as [|c a]; [reflexivity|].
  unfold Json.loads, Json.loads_within.
  assert (B : startswith [65279%N] ((c :: a) ++ s) = false).
  { simpl in Ha. apply andb_true_iff in Ha as [Hc _]. four_cases (json_space_cases c Hc); reflexivity. }
  rewrite B.
  assert (D : forall d, Json.decode d ((c :: a) ++ s) = Json.decode d s).
  { intros d. unfold Json.decode. now rewrite w_leading. }
  rewrite D.
  destruct (startswith [65279%N] s) eqn:M.
  - apply startswith_spec in M as [t ->]. apply decode_mark.
  - apply decode_depth; len.
Qed.

Lemma loads_blank (a : str) :
  forallb json_space a = true -> Json.loads a = Raise ValueError.
Proof.
  intros Ha. rewrite <- (app_nil_r a), loads_leading by exact Ha. reflexivity.
Qed.

(** * The shape of what is extracted *)

Lemma repaired_shape (c : str) :
  (exists m, c = LBRACE :: m ++ [RBRACE]) -> ~ In TAB c ->
  (exists m, replace_undefined (normalize c) default_placeholder = LBRACE :: m ++ [RBRACE])
  /\ ~ In TAB (replace_undefined (normalize c) default_placeholder).
Proof.
  intros [m ->] T. split.
  - destruct (normalize_last RBRACE (LBRACE :: m)) as [m1 E1].
    destruct (normalize_head (m ++ [RBRACE])) as [t1 H1].
    cbn [app] in E1. rewrite E1.
    destruct (@replace_undefined_last default_placeholder RBRACE m1) as [m2 E2];
      [reflexivity|reflexivity|discriminate|].
    rewrite E2. rewrite H1 in E1.
    destruct m1 as [|x m1].
    + injection E1 as E1 _. discriminate.
    + injection E1 as <- _.
      destruct (replace_undefined_head default_placeholder (m1 ++ [RBRACE])) as [t2 H2].
      cbn [app] in E2. rewrite H2 in E2.
      destruct m2 as [|y m2].
      * injection E2 as E2 _. discriminate.
      * injection E2 as <- _. now exists m2.
  - intros I. apply replace_undefined_in in I as [I|I].
    + apply normalize_in in I. auto.
    + revert I. vm_compute. intuition discriminate.
Qed.

Lemma extracted_shape (s j : str) (jsons : list str) :
  extract_top_level_json s = Ok jsons -> In j jsons ->
  (exists m, j = LBRACE :: m ++ [RBRACE]) /\ ~ In TAB j
  /\ (exists d, Json.loads j = Ok (PDict d))
  /\ replace_undefined j default_placeholder = j.
Proof.
  intros E I.
  pose proof (extract_top_level_json_objects _ E) as O.
  rewrite Forall_forall in O. specialize (O j I).
  rewrite extract_top_level_json_eq in E. injection E as <-.
  apply filter_In in I as [I V]. apply in_map_iff in I as (c & Ej & I).
  cbv beta in Ej. subst j.
  pose proof (candidate_no_tab _ _ I) as T.
  apply get_json_candidates_spans in I as (p & q & m & _ & Ec & _).
  destruct (@repaired_shape c (ex_intro _ m Ec) T) as [Sh T'].
  repeat split; [exact Sh|exact T'|exact O|].
  apply replace_undefined_twice. reflexivity.
Qed.

(** * Several objects in a text *)

Lemma laid_app (segs : list (str * str)) (tail : str) :
  laid segs tail = laid segs [] ++ tail.
Proof.
  unfold laid. induction segs as [|[p J] segs IH]; [reflexivity|].
  cbn [fold_right fst snd]. rewrite IH. now rewrite <- !app_assoc.
Qed.

Lemma str_eqb_eq (a b : str) : str_eqb a b = true -> a = b.
Proof.
  revert b. induction a as [|x a IH]; intros [|y b]; simpl; try discriminate; [reflexivity|].
  intros [->%N.eqb_eq H]%andb_true_iff. now rewrite (IH b H).
Qed.

Lemma braced_spec (J : str) : braced J = true -> exists m, J = LBRACE :: m ++ [RBRACE].
Proof.
  destruct J as [|c t]; [discriminate|]. cbn [braced].
  intros [->%N.eqb_eq H]%andb_true_iff.
  destruct (rev t) as [|z r] eqn:E; [discriminate|]. apply N.eqb_eq in H as ->.
  exists (rev r). rewrite <- (rev_involutive t), E. reflexivity.
Qed.

Lemma plain_object_spec (J : str) :
  plain_object J = true ->
  (exists m, J = LBRACE :: m ++ [RBRACE])
  /\ ~ In TAB J
  /\ valid_json J = true
  /\ normalize J = J
  /\ replace_undefined J default_placeholder = J.
Proof.
  unfold plain_object.
  intros [[[[B T]%andb_true_iff V]%andb_true_iff N]%andb_true_iff R]%andb_true_iff.
  repeat split.
  - now apply braced_spec.
  - intros I. rewrite forallb_forall in T. specialize (T _ I). discriminate.
  - exact V.
  - now apply str_eqb_eq.
  - now apply str_eqb_eq.
Qed.

Lemma forallb_not (x : char) (s : str) :
  forallb (fun c => negb (c =? x)%N) s = true -> ~ In x s.
Proof.
  intros H I. rewrite forallb_forall in H. specialize (H _ I).
  now rewrite N.eqb_refl in H.
Qed.

Lemma prose_spec (p : str) : prose p = true -> ~ In LBRACE p /\ ~ In TAB p.
Proof.
  unfold prose. intros H. rewrite forallb_forall in H.
  split; intros I; specialize (H _ I); now rewrite ?N.eqb_refl in H.
Qed.

Section Several.

Variable d : nat.

Local Notation expr :=
  (Pyparsing.original_text_for (Pyparsing.nested_expr LBRACE RBRACE d)).

(** After the span that starts at the first opening brace the scan goes on
    with the text after the span. *)
Lemma scan_from_next (p1 : str) :
  forall n x rest l,
    ~ In LBRACE p1 -> length (p1 ++ LBRACE :: x) < d ->
    Pyparsing.nested_expr LBRACE RBRACE d (LBRACE :: x) = Ok rest ->
    Pyparsing.scan_from expr n (p1 ++ LBRACE :: x) = Ok l ->
    exists n' l',
      l = firstn (length (LBRACE :: x) - length rest) (LBRACE :: x) :: l'
      /\ Pyparsing.scan_from expr n' rest = Ok l'.
Proof.
  induction p1 as [|c p1 IH]; intros n x rest l Hp Hd N H.
  - destruct n as [|n]; [discriminate|]. cbn [app] in H.
    cbn [Pyparsing.scan_from] in H. cbv zeta in H.
    change (Pyparsing.preParse (LBRACE :: x)) with (LBRACE :: x) in H.
    unfold Pyparsing.original_text_for at 1 in H. rewrite N in H. cbn [bind] in H.
    pose proof (@behaves_nested_expr LBRACE RBRACE d (LBRACE :: x) Hd) as B.
    unfold behaves in B. rewrite N in B.
    apply Nat.ltb_lt in B. rewrite B in H.
    apply bind_ok in H as (r & Hr & H). injection H as <-. eauto.
  - destruct n as [|n]; [discriminate|]. cbn [app] in H, Hd.
    assert (Hp' : ~ In LBRACE p1) by (intros I; apply Hp; now right).
    destruct (one_of Pyparsing.DEFAULT_WHITE_CHARS c) eqn:W.
    + rewrite scan_from_white in H by (try exact W; len).
      exact (IH (S n) x rest l Hp' ltac:(len) N H).
    + cbn [Pyparsing.scan_from] in H. cbv zeta in H.
      cbn [Pyparsing.preParse] in H. rewrite W in H.
      unfold Pyparsing.original_text_for at 1 in H.
      rewrite nested_expr_no_opener in H.
      * cbn [bind] in H. exact (IH n x rest l Hp' ltac:(len) N H).
      * lia.
      * cbn [Pyparsing.preParse]. rewrite W. cbn [starts_in].
        destruct (N.eqb_spec LBRACE c) as [<-|]; [|reflexivity].
        exfalso. apply Hp. now left.
Qed.

Lemma scan_from_objects (segs : list (str * str)) :
  forall n q l,
    forallb (fun seg => prose (fst seg) && plain_object (snd seg)) segs = true ->
    length (laid segs q) < d ->
    Pyparsing.scan_from expr n (laid segs q) = Ok l ->
    exists n' l', l = map snd segs ++ l' /\ Pyparsing.scan_from expr n' q = Ok l'.
Proof.
  induction segs as [|[p J] segs IH]; intros n q l F Hd H; [now exists n, l|].
  cbn [forallb fst snd] in F.
  apply andb_true_iff in F as [[Hp HJ]%andb_true_iff F'].
  apply plain_object_spec in HJ as ([m ->] & _ & V & _ & _).
  apply prose_spec in Hp as [Hp _].
  cbn [laid fold_right fst snd] in H, Hd. fold (laid segs q) in H, Hd.
  unfold valid_json in V.
  destruct (Json.loads (LBRACE :: m ++ [RBRACE])) as [v|] eqn:L; [|discriminate].
  assert (N : Pyparsing.nested_expr LBRACE RBRACE d
                ((LBRACE :: m ++ [RBRACE]) ++ laid segs q) = Ok (laid segs q)).
  { apply loads_nested_expr with v; [exact L|]. rewrite length_app in Hd. lia. }
  destruct (@scan_from_next p n ((m ++ [RBRACE]) ++ laid segs q) (laid segs q) l Hp Hd N H)
    as (n1 & l1 & -> & H1).
  change (LBRACE :: (m ++ [RBRACE]) ++ laid segs q)
    with ((LBRACE :: m ++ [RBRACE]) ++ laid segs q).
  rewrite firstn_prefix.
  destruct (IH n1 q l1 F') as (n' & l' & -> & H'); [|exact H1|].
  - rewrite !length_app in Hd. lia.
  - exists n', l'. split; [reflexivity|exact H'].
Qed.

End Several.

Lemma laid_no_tab (segs : list (str * str)) :
  forallb (fun seg => prose (fst seg) && plain_object (snd seg)) segs = true ->
  ~ In TAB (laid segs []).
Proof.
  induction segs as [|[p J] segs IH]; intros F; [simpl; tauto|].
  cbn [forallb fst snd] in F.
  apply andb_true_iff in F as [[Hp HJ]%andb_true_iff F'].
  cbn [laid fold_right fst snd]. fold (laid segs []).
  apply prose_spec in Hp as [_ Hp]. apply plain_object_spec in HJ as (_ & T & _).
  specialize (IH F').
  intros [I|[I|I]%in_app_or]%in_app_or; auto.
Qed.

Lemma get_json_candidates_objects (segs : list (str * str)) (tail : str) :
  forallb (fun seg => prose (fst seg) && plain_object (snd seg)) segs = true ->
  exists l, get_json_candidates (laid segs tail) = map snd segs ++ l.
Proof.
  intros F.
  destruct (search_string_total (laid segs tail)) as (l & E & ->).
  unfold Pyparsing.search_string in E. cbv zeta in E.
  unfold Str.expandtabs in E. rewrite laid_app in E.
  destruct (@expandtabs_from_prefix (laid segs []) tail (@laid_no_tab segs F) 0) as [col Ex].
  rewrite Ex in E. clear Ex.
  remember (Str.expandtabs_from col tail) as q eqn:Hq. clear Hq.
  rewrite <- laid_app in E.
  destruct (@scan_from_objects (S (length (laid segs q))) segs _ q l F (Nat.lt_succ_diag_r _) E)
    as (n' & l' & -> & _).
  now exists l'.
Qed.

Lemma repaired_objects (segs : list (str * str)) :
  forallb (fun seg => prose (fst seg) && plain_object (snd seg)) segs = true ->
  filter valid_json
    (map (fun c => replace_undefined (normalize c) default_placeholder) (map snd segs))
  = map snd segs.
Proof.
  induction segs as [|[p J] segs IH]; intros F; [reflexivity|].
  cbn [forallb fst snd] in F.
  apply andb_true_iff in F as [[_ HJ]%andb_true_iff F'].
  apply plain_object_spec in HJ as (_ & _ & V & N & R).
  cbn [map snd filter]. rewrite N, R, V. now rewrite IH.
Qed.

(** * The properties of the specification *)




(** C2 as stated fails: two backslashes and an opening brace normalize to
    one backslash and the brace, which normalize again to the brace. *)
Lemma normalize_not_idempotent :
  normalize (normalize (py "\\{")) <> normalize (py "\\{").
Proof. vm_compute. discriminate. Qed.

(** C2 (amended).  Normalizing twice is the same as normalizing once for
    every string in which none of the three escaped characters follows one
    more backslash: the string contains no two backslashes followed by an
    opening brace, by a closing brace or by an underscore. *)
Theorem normalize_idempotent (s : str) :
  contains (py "\\{") s = false ->
  contains (py "\\}") s = false ->
  contains (py "\\_") s = false ->
  normalize (normalize s) = normalize s.
Proof.
  intros H1 H2 H3.
  destruct (normalize_clean s H1 H2 H3) as (C1 & C2 & C3).
  now apply normalize_absent.
Qed.

Lemma normalize_idempotent_witness :
  normalize (normalize (py "{'a\_b': \{1\}}")) = normalize (py "{'a\_b': \{1\}}").
Proof. apply normalize_idempotent; reflexivity. Defined.

(** C3.  The pattern of the repairer matches the JSON literals true, false
    and null like any other bareword: wherever one of them follows a colon
    and optional whitespace, the colon, the whitespace and the literal are
    rewritten to a colon, a space and the quoted placeholder; the candidate
    [{"a": true}] is rewritten to [{"a": "<undefined>"}]. *)
Theorem replace_undefined_json_literals :
  (forall lit p ws q : str,
      In lit [py "true"; py "false"; py "null"] ->
      forallb Re.space ws = true ->
      starts_in bareword_char q = false ->
      Re.re_match undefined_re (COLON :: ws ++ lit ++ q) = Some q
      /\ replace_undefined (p ++ COLON :: ws ++ lit ++ q) default_placeholder
         = replace_undefined p default_placeholder ++ py ": '<undefined>'"
           ++ replace_undefined q default_placeholder)
  /\ replace_undefined (py "{'a': true}") default_placeholder
     = py "{'a': '<undefined>'}"
  /\ replace_undefined (py "{'a': false, 'b':null}") default_placeholder
     = py "{'a': '<undefined>', 'b': '<undefined>'}".
Proof.
  split; [|split; vm_compute; reflexivity].
  intros lit p ws q Hlit Hws Hq.
  assert (Hb : is_bareword lit = true).
  { destruct Hlit as [<-|[<-|[<-|[]]]]; reflexivity. }
  split.
  - now apply undefined_re_hit.
  - now apply replace_undefined_token.
Qed.

Lemma replace_undefined_json_literals_witness :
  replace_undefined (py "{'a'" ++ COLON :: py " " ++ py "null" ++ py ", 'b': 1}")
                    default_placeholder
  = replace_undefined (py "{'a'") default_placeholder ++ py ": '<undefined>'"
    ++ replace_undefined (py ", 'b': 1}") default_placeholder.
Proof.
  apply (proj1 replace_undefined_json_literals (py "null") (py "{'a'") (py " ")
               (py ", 'b': 1}")).
  - simpl. auto.
  - reflexivity.
  - reflexivity.
Defined.



(** C6.  [top_level_json_field s f] is the value bound to [f] at the top
    level of the first valid candidate, in the order of the text, whose top
    level has the key [f]; when no valid candidate has the key it is the
    empty string.  A key inside a nested object does not count.  On
    [{"a":1} {"a":2}] the field [a] is [1]. *)
Theorem top_level_json_field_first_match :
  (forall s f : str,
      exists jsons,
        extract_top_level_json s = Ok jsons
        /\ ((exists before j after d v,
                jsons = before ++ j :: after
                /\ Forall (fun j' => exists d', Json.loads j' = Ok (PDict d')
                                                /\ dict_get d' f = None) before
                /\ Json.loads j = Ok (PDict d) /\ dict_get d f = Some v
                /\ top_level_json_field s f = Ok v)
            \/ (Forall (fun j' => exists d', Json.loads j' = Ok (PDict d')
                                             /\ dict_get d' f = None) jsons
                /\ top_level_json_field s f = Ok (PStr []))))
  /\ top_level_json_field (py "{'a':1} {'a':2}") (py "a") = Ok (PInt 1)
  /\ top_level_json_field (py "{'b':0} {'a':1} {'a':2}") (py "a") = Ok (PInt 1)
  /\ top_level_json_field (py "{'b': {'a': 1}} {'a':2}") (py "a") = Ok (PInt 2)
  /\ top_level_json_field (py "{'b': {'a': 1}}") (py "a") = Ok (PStr [])
  /\ top_level_json_field (py "no json here at all") (py "x") = Ok (PStr []).
Proof.
  split; [|repeat apply conj; vm_compute; reflexivity].
  intros s f.
  destruct (extract_top_level_json s) as [jsons|e] eqn:E.
  2:{ rewrite extract_top_level_json_eq in E. discriminate. }
  exists jsons. split; [reflexivity|].
  rewrite (@top_level_json_field_eq s f jsons E).
  apply first_field_spec. now apply extract_top_level_json_objects with s.
Qed.

(** C7.  A bareword value is repaired end to end: from
    [{"rent": DO-NOT-KNOW}] the one candidate [{"rent": "<undefined>"}] is
    extracted, and the field [rent] of the text is the string
    [<undefined>]. *)
Theorem bareword_repair :
  extract_top_level_json (py "{'rent': DO-NOT-KNOW}")
  = Ok [py "{'rent': '<undefined>'}"]
  /\ top_level_json_field (py "{'rent': DO-NOT-KNOW}") (py "rent")
     = Ok (PStr (py "<undefined>")).
Proof. split; vm_compute; reflexivity. Qed.

(** C8.  Every top-level object gives its own candidate, in the order of
    the text: the spans of the scanner stand in the text one after the
    other in the order of the list, and the valid candidates are the
    repaired spans that parse, in the same order.  From
    [{"a":1} noise {"b":2}] the two candidates [{"a":1}] and [{"b":2}] are
    extracted, in that order. *)
Theorem multiple_top_level_objects :
  (forall s : str,
      laid_out (Str.expandtabs s) (get_json_candidates s)
      /\ extract_top_level_json s
         = Ok (filter valid_json
                 (map (fun c => replace_undefined (normalize c) default_placeholder)
                      (get_json_candidates s))))
  /\ get_json_candidates (py "{'a':1} noise {'b':2}") = [py "{'a':1}"; py "{'b':2}"]
  /\ extract_top_level_json (py "{'a':1} noise {'b':2}")
     = Ok [py "{'a':1}"; py "{'b':2}"].
Proof.
  split; [|split; vm_compute; reflexivity].
  intros s. split; [apply get_json_candidates_laid_out|apply extract_top_level_json_eq].
Qed.



(** C10.  The repairer does not look at quotes: wherever a colon is
    followed by optional whitespace and a bareword, whatever text comes
    before and after, the three are rewritten to a colon, a space and the
    placeholder.  So the valid object [{"note": "a: b"}] is changed inside
    its string value, the result is no longer valid JSON, and
    [extract_top_level_json] returns the empty list for it. *)
Theorem replace_undefined_inside_strings :
  (forall p ws w q : str,
      forallb Re.space ws = true ->
      is_bareword w = true ->
      starts_in bareword_char q = false ->
      replace_undefined (p ++ COLON :: ws ++ w ++ q) default_placeholder
      = replace_undefined p default_placeholder ++ py ": '<undefined>'"
        ++ replace_undefined q default_placeholder)
  /\ replace_undefined (py "{'note': 'a: b'}") default_placeholder
     = py "{'note': 'a: '<undefined>''}"
  /\ replace_undefined (py "{'note': 'a: b'}") default_placeholder
     <> py "{'note': 'a: b'}"
  /\ Json.loads (py "{'note': 'a: b'}") = Ok (PDict [(py "note", PStr (py "a: b"))])
  /\ get_json_candidates (py "{'note': 'a: b'}") = [py "{'note': 'a: b'}"]
  /\ extract_top_level_json (py "{'note': 'a: b'}") = Ok [].
Proof.
  split; [|repeat apply conj; vm_compute; try reflexivity; discriminate].
  intros p ws w q Hws Hw Hq. now apply replace_undefined_token.
Qed.

Lemma replace_undefined_inside_strings_witness :
  replace_undefined (py "{'note': 'a" ++ COLON :: py " " ++ py "b" ++ py "'}")
                    default_placeholder
  = replace_undefined (py "{'note': 'a") default_placeholder ++ py ": '<undefined>'"
    ++ replace_undefined (py "'}") default_placeholder.
Proof.
  apply (proj1 replace_undefined_inside_strings (py "{'note': 'a") (py " ") (py "b")
               (py "'}")); reflexivity.
Defined.

(** * Further properties of the module *)

(** X1.  [flatten] yields the items of a list without nested lists as they
    are, in their order; so flattening what [flatten] has yielded changes
    nothing. *)
Theorem flatten_flat (A : Type) :
  (forall l : list A, flatten (map (@Item A) l) = l)
  /\ (forall nested_list : list (nested A),
         flatten (map (@Item A) (flatten nested_list)) = flatten nested_list).
Proof.
  assert (F : forall l : list A, flatten (map (@Item A) l) = l).
  { induction l as [|a l IH]; [reflexivity|].
    cbn [map]. rewrite flatten_cons_item. now rewrite IH. }
  split; [exact F|]. intros nested_list. apply F.
Qed.

(** X2.  [flatten] reads the list from left to right and puts the items of
    a nested list, flattened, in the place of that list: the items before
    it come first and the items after it come last, at every depth. *)
Theorem flatten_in_place (A : Type) (before inner after : list (nested A)) :
  flatten (before ++ Nest inner :: after)
  = flatten before ++ flatten inner ++ flatten after
  /\ flatten (before ++ Nest [Nest inner] :: after)
     = flatten (before ++ Nest inner :: after).
Proof.
  split.
  - now rewrite flatten_app, flatten_cons_nest.
  - rewrite !flatten_app, !flatten_cons_nest.
    change (flatten [Nest inner]) with (flatten inner ++ []).
    now rewrite app_nil_r.
Qed.





(** X5.  With the default placeholder the repairer returns its input
    unchanged exactly when no colon of the input is followed by optional
    whitespace and a letter or an underscore. *)
Theorem replace_undefined_fixed_points (s : str) :
  replace_undefined s default_placeholder = s <-> has_bareword_value s = false.
Proof.
  split.
  - intros H. destruct (has_bareword_value s) eqn:E; [|reflexivity].
    now apply replace_undefined_changed in E.
  - apply replace_undefined_unchanged.
Qed.

(** X6.  The normalization never makes a candidate longer, and it returns
    a candidate unchanged exactly when the candidate has no backslash
    followed by an opening brace, by a closing brace or by an underscore. *)
Theorem normalize_fixed_points (candidate : str) :
  length (normalize candidate) <= length candidate
  /\ (normalize candidate = candidate
      <-> contains (py "\{") candidate = false
          /\ contains (py "\}") candidate = false
          /\ contains (py "\_") candidate = false).
Proof.
  split; [apply normalize_length|]. split.
  - intros H.
    destruct (contains (py "\{") candidate || contains (py "\}") candidate
              || contains (py "\_") candidate) eqn:E.
    + apply normalize_shorter in E. rewrite H in E. lia.
    + apply orb_false_iff in E as [[E1 E2]%orb_false_iff E3]. auto.
  - intros (H1 & H2 & H3). now apply normalize_absent.
Qed.

(** X7.  JSON whitespace (space, tab, line feed, carriage return) before
    and after a text changes neither what [json.loads] returns nor what
    [is_valid_json] answers; whitespace alone, and the empty string, are not
    valid JSON. *)
Theorem is_valid_json_ignores_whitespace (a json_str b : str) :
  forallb json_space a = true -> forallb json_space b = true ->
  Json.loads (a ++ json_str ++ b) = Json.loads json_str
  /\ is_valid_json (a ++ json_str ++ b) = is_valid_json json_str
  /\ is_valid_json (a ++ b) = Ok false.
Proof.
  intros Ha Hb.
  assert (E : Json.loads (a ++ json_str ++ b) = Json.loads json_str)
    by now rewrite loads_leading, loads_trailing.
  repeat split; [exact E| |].
  - rewrite !is_valid_json_eq. unfold valid_json. now rewrite E.
  - rewrite is_valid_json_eq. unfold valid_json. rewrite loads_blank; [reflexivity|].
    rewrite forallb_app. now rewrite Ha, Hb.
Qed.

Lemma is_valid_json_ignores_whitespace_witness :
  Json.loads ([LF; SPACE] ++ py "{'a': [1, 'x', null]}" ++ [SPACE; TAB; CR; LF])
  = Json.loads (py "{'a': [1, 'x', null]}")
  /\ is_valid_json ([LF; SPACE] ++ py "{'a': [1, 'x', null]}" ++ [SPACE; TAB; CR; LF])
     = is_valid_json (py "{'a': [1, 'x', null]}")
  /\ is_valid_json ([LF; SPACE] ++ [SPACE; TAB; CR; LF]) = Ok false.
Proof. apply is_valid_json_ignores_whitespace; reflexivity. Defined.

(** X8.  A candidate is a piece of the text with its tabs expanded, not of
    the text itself: it has no tab character, and it is a substring of the
    text when the text has no tab. *)
Theorem candidates_have_no_tab (s c : str) :
  In c (get_json_candidates s) ->
  forallb (fun x => negb (x =? TAB)%N) c = true
  /\ (exists p q, Str.expandtabs s = p ++ c ++ q)
  /\ (forallb (fun x => negb (x =? TAB)%N) s = true -> exists p q, s = p ++ c ++ q).
Proof.
  intros I. pose proof (candidate_no_tab _ _ I) as T.
  apply get_json_candidates_spans in I as (p & q & m & E & _ & _).
  repeat split.
  - apply forallb_forall. intros x Hx. apply negb_true_iff, N.eqb_neq.
    intros ->. auto.
  - eauto.
  - intros Hs. exists p, q. rewrite <- E. unfold Str.expandtabs.
    symmetry. apply expandtabs_from_id. intros Ht.
    rewrite forallb_forall in Hs. specialize (Hs _ Ht). discriminate.
Qed.

Lemma candidates_have_no_tab_witness :
  forallb (fun x => negb (x =? TAB)%N) (py "{'a':   1}") = true
  /\ (exists p q, Str.expandtabs (py "{'a':" ++ TAB :: py "1} end")
                  = p ++ py "{'a':   1}" ++ q)
  /\ (forallb (fun x => negb (x =? TAB)%N) (py "{'a':" ++ TAB :: py "1} end") = true ->
      exists p q, py "{'a':" ++ TAB :: py "1} end" = p ++ py "{'a':   1}" ++ q).
Proof.
  apply candidates_have_no_tab. vm_compute. left. reflexivity.
Defined.

(** X9.  A text from an opening brace to a closing brace that
    [json.loads] accepts and that has no tab is, scanned alone, its one
    candidate: the objects nested in it are no candidates. *)
Theorem valid_object_is_its_only_candidate (m : str) (v : pyval) :
  Json.loads (LBRACE :: m ++ [RBRACE]) = Ok v ->
  forallb (fun x => negb (x =? TAB)%N) m = true ->
  get_json_candidates (LBRACE :: m ++ [RBRACE]) = [LBRACE :: m ++ [RBRACE]].
Proof.
  intros L T. apply get_json_candidates_whole with v; [exact L|].
  rewrite forallb_forall in T.
  intros [E|[I|[E|[]]]%in_app_or]; [discriminate| |discriminate].
  specialize (T _ I). discriminate.
Qed.

Lemma valid_object_is_its_only_candidate_witness :
  get_json_candidates (LBRACE :: py "'a': {'b': [1, {'c': '}'}]}, 'd': {}" ++ [RBRACE])
  = [LBRACE :: py "'a': {'b': [1, {'c': '}'}]}, 'd': {}" ++ [RBRACE]].
Proof.
  apply (@valid_object_is_its_only_candidate
           (py "'a': {'b': [1, {'c': '}'}]}, 'd': {}")
           (PDict [(py "a", PDict [(py "b", PList [PInt 1; PDict [(py "c", PStr (py "}"))]])]);
                   (py "d", PDict [])])).
  - vm_compute. reflexivity.
  - reflexivity.
Defined.


(** X11.  Extraction is stable: a returned string that has no backslash
    before a brace or an underscore (the normalization leaves it as it is)
    is, extracted again, returned alone and unchanged. *)
Theorem extract_top_level_json_stable (s j : str) (jsons : list str) :
  extract_top_level_json s = Ok jsons -> In j jsons -> normalize j = j ->
  extract_top_level_json j = Ok [j].
Proof.
  intros E I N.
  destruct (@extracted_shape s j jsons E I) as ([m ->] & T & [d L] & R).
  rewrite extract_top_level_json_eq.
  rewrite (@get_json_candidates_whole m (PDict d) L T).
  cbn [map]. rewrite N, R. cbn [filter]. unfold valid_json. now rewrite L.
Qed.

Lemma extract_top_level_json_stable_witness :
  extract_top_level_json (py "{'rent': '<undefined>', 'n': {'k': 1}}")
  = Ok [py "{'rent': '<undefined>', 'n': {'k': 1}}"].
Proof.
  apply (@extract_top_level_json_stable
           (py "so: {'rent': DO-NOT-KNOW, 'n': {'k': 1}} and {'b'")
           (py "{'rent': '<undefined>', 'n': {'k': 1}}")
           [py "{'rent': '<undefined>', 'n': {'k': 1}}"]).
  - vm_compute. reflexivity.
  - left. reflexivity.
  - vm_compute. reflexivity.
Defined.

(** X12.  A text without opening brace has no candidate: nothing is
    extracted from it, also when the text is valid JSON (an array, a
    number, a string), and every field of it is the empty string. *)
Theorem no_opening_brace_nothing (s : str) :
  forallb (fun x => negb (x =? LBRACE)%N) s = true ->
  get_json_candidates s = []
  /\ extract_top_level_json s = Ok []
  /\ forall f, top_level_json_field s f = Ok (PStr []).
Proof.
  intros Hs.
  assert (C : get_json_candidates s = []).
  { destruct (get_json_candidates s) as [|c l] eqn:E; [reflexivity|]. exfalso.
    destruct (@get_json_candidates_spans s c) as (p & q & m & Es & -> & _).
    { rewrite E. now left. }
    assert (I : In LBRACE s).
    { apply expandtabs_from_in with (col := 0); [discriminate|].
      fold (Str.expandtabs s). rewrite Es.
      apply in_or_app. right. now left. }
    rewrite forallb_forall in Hs. specialize (Hs _ I). discriminate. }
  assert (E : extract_top_level_json s = Ok []).
  { rewrite extract_top_level_json_eq, C. reflexivity. }
  repeat split; [exact C|exact E|].
  intros f. unfold top_level_json_field. rewrite E. reflexivity.
Qed.

Lemma no_opening_brace_nothing_witness :
  get_json_candidates (py "[1, 2, 'three']") = []
  /\ extract_top_level_json (py "[1, 2, 'three']") = Ok []
  /\ forall f, top_level_json_field (py "[1, 2, 'three']") f = Ok (PStr []).
Proof. apply no_opening_brace_nothing. reflexivity. Defined.

(** X13.  Let [J] be an object that runs from an opening brace to a
    closing brace, has no tab, is accepted by [json.loads] and is left as
    it is by the normalization and by the repairer, after a prose [p1]
    without opening brace and without tab.  Then for every key [f] of the
    dictionary that [json.loads] returns for [J],
    [top_level_json_field (p1 + J + p2) f] is the value of [f] in that
    dictionary, whatever [p2] holds. *)
Theorem top_level_json_field_first_object
        (p1 J p2 f : str) (d : list (str * pyval)) (v : pyval) :
  prose p1 = true -> plain_object J = true ->
  Json.loads J = Ok (PDict d) -> dict_get d f = Some v ->
  top_level_json_field (p1 ++ J ++ p2) f = Ok v.
Proof.
  intros Hp HJ L G.
  assert (F : forallb (fun seg => prose (fst seg) && plain_object (snd seg)) [(p1, J)]
              = true).
  { cbn [forallb fst snd]. now rewrite Hp, HJ. }
  destruct (@get_json_candidates_objects [(p1, J)] p2 F) as [l C].
  change (laid [(p1, J)] p2) with (p1 ++ J ++ p2) in C.
  apply plain_object_spec in HJ as (_ & _ & V & N & R).
  unfold top_level_json_field.
  rewrite extract_top_level_json_eq, C. cbn [map snd app]. rewrite N, R.
  cbn [filter]. rewrite V. cbn [bind length Nat.eqb first_field].
  rewrite L. cbn [bind py_in]. rewrite G. cbn [bind py_getitem]. now rewrite G.
Qed.

Lemma top_level_json_field_first_object_witness :
  top_level_json_field
    (py "Answer: " ++ py "{'b': {'a': 2}, 'a': [1]}" ++ py " or {'a': 3}") (py "a")
  = Ok (PList [PInt 1]).
Proof.
  apply (@top_level_json_field_first_object
           (py "Answer: ") (py "{'b': {'a': 2}, 'a': [1]}") (py " or {'a': 3}") (py "a")
           [(py "b", PDict [(py "a", PInt 2)]); (py "a", PList [PInt 1])]
           (PList [PInt 1])).
  - reflexivity.
  - vm_compute. reflexivity.
  - vm_compute. reflexivity.
  - reflexivity.
Defined.

(** X14.  Objects that stand one after the other in a text, each after a
    prose without opening brace and without tab, are the first strings
    that [extract_top_level_json] returns, in the order of the text, when
    each of them runs from an opening brace to a closing brace, has no tab,
    is accepted by [json.loads] and is left as it is by the normalization
    and by the repairer; what follows the last of them is free. *)
Theorem extract_top_level_json_several (segs : list (str * str)) (tail : str) :
  forallb (fun seg => prose (fst seg) && plain_object (snd seg)) segs = true ->
  exists rest, extract_top_level_json (laid segs tail) = Ok (map snd segs ++ rest).
Proof.
  intros F. destruct (@get_json_candidates_objects segs tail F) as [l C].
  rewrite extract_top_level_json_eq, C, map_app, filter_app.
  rewrite (@repaired_objects segs F). eauto.
Qed.

Lemma extract_top_level_json_several_witness :
  exists rest,
    extract_top_level_json
      (laid [(py "first ", py "{'a': 1}"); (py ", then", py "{'b': {'c': [2, '}']}}");
             ([], py "{}")]
            (py " and {'d': x} {broken"))
    = Ok (map snd [(py "first ", py "{'a': 1}"); (py ", then", py "{'b': {'c': [2, '}']}}");
                   ([], py "{}")] ++ rest).
Proof. apply extract_top_level_json_several. vm_compute. reflexivity. Defined.
